(** * Rock-Paper-Scissors-Lizard-Spock tournament (rpsls.cpp)

    A shallow embedding of the round resolution and elimination engine of
    [src/rpsls.cpp]: the rule table ([GameRules]), the round evaluator and the
    elimination policy ([RoundManager]), the group partitioner
    ([GroupDivider]) and the tournament controller ([Game]).

    Conventions.
    - A [Player*] is an index into the roster [players_] owned by [Game].
    - [int] values are modelled in [Z]; the counters of a round are shown to
      stay inside the [int] range ([calculateScores_int_range]), so no
      arithmetic of the evaluator overflows.  The one conversion of the code,
      [static_cast<int>(size)], is written with its wrap-around ([to_int]).
    - [std::map] lookups are lookups in association lists. *)

From Stdlib Require Import ZArith Lia Sorted.
From stdpp Require Import base relations list strings pretty.

Open Scope Z_scope.

(** ** Choices and the rule table *)

Inductive Choice := ROCK | SCISSORS | PAPER | LIZARD | SPOCK.

Inductive DuelResult := WIN | LOSE | DRAW.

Global Instance Choice_eq_dec : EqDecision Choice.
Proof. solve_decision. Defined.

Global Instance DuelResult_eq_dec : EqDecision DuelResult.
Proof. solve_decision. Defined.

(** The outcome of running a piece of the program: a normal return, a C++
    exception with its [what()] text, undefined behaviour (an unchecked
    out-of-range access or a dangling pointer), or a loop that has not finished
    within the fuel it was given. *)
Inductive outcome (A : Type) :=
| Ok (a : A)
| Throw (what : string)
| Undefined
| OutOfFuel.
Arguments Ok {A} a.
Arguments Throw {A} what.
Arguments Undefined {A}.
Arguments OutOfFuel {A}.

Module ChoiceHelper.

Definition allChoices : list Choice := [ROCK; SCISSORS; PAPER; LIZARD; SPOCK].

Definition mapping : list (string * Choice) :=
  [("1", ROCK); ("2", SCISSORS); ("3", PAPER); ("4", LIZARD); ("5", SPOCK)]%string.

Fixpoint find_input (input : string) (m : list (string * Choice)) : option Choice :=
  match m with
  | [] => None
  | (k, c) :: m' => if String.eqb k input then Some c else find_input input m'
  end.

Definition fromInput (input : string) : outcome Choice :=
  match find_input input mapping with
  | Some c => Ok c
  | None => Throw "Invalid input"
  end.

Definition names : list (Choice * string) :=
  [(ROCK, "Камень"); (SCISSORS, "Ножницы"); (PAPER, "Бумага");
   (LIZARD, "Ящерица"); (SPOCK, "Спок")]%string.

Fixpoint find_name (choice : Choice) (m : list (Choice * string)) : option string :=
  match m with
  | [] => None
  | (k, name) :: m' => if decide (k = choice) then Some name else find_name choice m'
  end.

(** [names.at(choice)] *)
Definition toString (choice : Choice) : outcome string :=
  match find_name choice names with
  | Some name => Ok name
  | None => Throw "map::at"
  end.

End ChoiceHelper.

Module GameRules.

(** [std::map::find]: the value stored under a key, if any. *)
Fixpoint find {V : Type} (k : Choice) (m : list (Choice * V)) : option V :=
  match m with
  | [] => None
  | (k', v) :: m' => if decide (k' = k) then Some v else find k m'
  end.

Definition getWinsAgainst : list (Choice * list (Choice * string)) :=
  [ (SCISSORS, [ (PAPER, "Ножницы режут бумагу");
                 (LIZARD, "Ножницы обезглавливают ящерицу") ]);
    (PAPER,    [ (ROCK, "Бумага покрывает камень");
                 (SPOCK, "На бумаге улики против Спока") ]);
    (ROCK,     [ (LIZARD, "Камень давит ящерицу");
                 (SCISSORS, "Камень разбивает ножницы") ]);
    (LIZARD,   [ (SPOCK, "Ящерица отравляет Спока");
                 (PAPER, "Ящерица съедает бумагу") ]);
    (SPOCK,    [ (SCISSORS, "Спок ломает ножницы");
                 (ROCK, "Спок испаряет камень") ]) ]%string.

Definition compare (choice1 choice2 : Choice) : DuelResult :=
  if decide (choice1 = choice2) then DRAW
  else
    let wins := getWinsAgainst in
    match find choice1 wins with
    | Some second =>
        match find choice2 second with
        | Some _ => WIN
        | None => LOSE
        end
    | None => LOSE
    end.

(** [wins.at(winner).at(loser)]: [std::map::at] throws [std::out_of_range]
    for a missing key. *)
Definition getDescription (winner loser : Choice) : outcome string :=
  match find winner getWinsAgainst with
  | Some second =>
      match find loser second with
      | Some d => Ok d
      | None => Throw "map::at"
      end
  | None => Throw "map::at"
  end.

End GameRules.

(** The ten winning pairs as the specification lists them. *)
Definition winning_pairs : list (Choice * Choice) :=
  [ (SCISSORS, PAPER); (SCISSORS, LIZARD); (PAPER, ROCK); (PAPER, SPOCK);
    (ROCK, LIZARD); (ROCK, SCISSORS); (LIZARD, SPOCK); (LIZARD, PAPER);
    (SPOCK, SCISSORS); (SPOCK, ROCK) ].

(** ** Players and scores *)

Record Player := mkPlayer {
  name_ : string;
  isHuman : bool;
  choiceHistory_ : list Choice;
  isActive_ : bool
}.

(** [Player(name)]: empty history, [isActive_ = true]. *)
Definition newPlayer (name : string) (human : bool) : Player :=
  mkPlayer name human [] true.

Definition setActive (active : bool) (p : Player) : Player :=
  mkPlayer (name_ p) (isHuman p) (choiceHistory_ p) active.

Definition recordChoice (choice : Choice) (p : Player) : Player :=
  mkPlayer (name_ p) (isHuman p) (choiceHistory_ p ++ [choice]) (isActive_ p).

Record PlayerScore := mkScore {
  player : nat;
  choice : Choice;
  wins : Z;
  losses : Z
}.

Definition getNetScore (s : PlayerScore) : Z := wins s - losses s.

(** The range of a 32-bit [int]. *)
Definition int_range (z : Z) : Prop := - 2 ^ 31 <= z < 2 ^ 31.

(** [static_cast<int>]: reduction modulo [2^32] into the [int] range. *)
Definition to_int (z : Z) : Z := (z + 2 ^ 31) mod 2 ^ 32 - 2 ^ 31.

(** ** Round evaluator: [RoundManager::calculateScores] *)

Definition addWin (s : PlayerScore) : PlayerScore :=
  mkScore (player s) (choice s) (wins s + 1) (losses s).

Definition addLoss (s : PlayerScore) : PlayerScore :=
  mkScore (player s) (choice s) (wins s) (losses s + 1).

(** The body of the inner loop, for one pair [i < j].  Both indices are in
    range whenever the loops reach it; out of range nothing is touched. *)
Definition duel (i j : nat) (scores : list PlayerScore) : list PlayerScore :=
  match scores !! i, scores !! j with
  | Some si, Some sj =>
      match GameRules.compare (choice si) (choice sj) with
      | WIN => alter addLoss j (alter addWin i scores)
      | LOSE => alter addWin j (alter addLoss i scores)
      | DRAW => scores
      end
  | _, _ => scores
  end.

(** [for (j = i + 1; j < scores.size(); ++j)] *)
Definition duelsFrom (i : nat) (scores : list PlayerScore) : list PlayerScore :=
  foldl (fun s j => duel i j s) scores (seq (S i) (length scores - S i)).

Definition calculateScores (choices : list (nat * Choice)) : list PlayerScore :=
  let scores := map (fun pc => mkScore (fst pc) (snd pc) 0 0) choices in
  foldl (fun s i => duelsFrom i s) scores (seq 0 (length scores)).

(** ** Elimination policy: [RoundManager::determineLosers]

    The announcements it prints are left out, the names they need are read
    in [executeRound]; the returned list is empty for a replay.  [scores[0]]
    is an unchecked access. *)

(** The first loop: one step updates the running minimum and maximum. *)
Definition boundsStep (mm : Z * Z) (score : PlayerScore) : Z * Z :=
  let minNetScore :=
    if getNetScore score <? fst mm then getNetScore score else fst mm in
  let maxNetScore :=
    if snd mm <? getNetScore score then getNetScore score else snd mm in
  (minNetScore, maxNetScore).

Definition netBounds (first : PlayerScore) (scores : list PlayerScore) : Z * Z :=
  foldl boundsStep (getNetScore first, getNetScore first) scores.

Definition collectLosers (minNetScore : Z) (scores : list PlayerScore) : list nat :=
  foldl (fun losers score =>
           if getNetScore score =? minNetScore
           then losers ++ [player score] else losers)
        [] scores.

Definition determineLosers (scores : list PlayerScore) : outcome (list nat) :=
  match scores !! 0%nat with
  | None => Undefined
  | Some first =>
      let (minNetScore, maxNetScore) := netBounds first scores in
      if minNetScore =? maxNetScore then Ok []
      else Ok (collectLosers minNetScore scores)
  end.

(** The comparison [printScoreTable] hands to [std::sort]: the greater
    balance first, and of two equal balances the one with more wins. *)
Definition tableBefore (a b : PlayerScore) : bool :=
  if negb (getNetScore a =? getNetScore b) then getNetScore b <? getNetScore a
  else wins b <? wins a.

(** ** Group partitioner: [GroupDivider::divideIntoGroups] *)

(** The sizes pushed to [groupSizes]; [/] and [%] of C++ truncate. *)
Definition groupSizes (n : Z) : list Z :=
  let numFours := Z.quot n 4 in
  let remainder := Z.rem n 4 in
  if remainder =? 0 then replicate (Z.to_nat numFours) 4
  else if remainder =? 1 then replicate (Z.to_nat (numFours - 1)) 4 ++ [3; 2]
  else if remainder =? 2 then replicate (Z.to_nat numFours) 4 ++ [2]
  else replicate (Z.to_nat numFours) 4 ++ [3].

(** The slicing loop: [idx] runs through [shuffled]; a group takes up to
    [size] elements and stops early at the end of [shuffled]. *)
Fixpoint makeGroups {A : Type} (idx : nat) (sizes : list Z) (shuffled : list A)
  : list (list A) :=
  match sizes with
  | [] => []
  | size :: sizes' =>
      let group := take (Z.to_nat size) (drop idx shuffled) in
      group :: makeGroups (idx + length group) sizes' shuffled
  end.

Definition sliceGroups {A : Type} (shuffled : list A) : list (list A) :=
  let n := to_int (Z.of_nat (length shuffled)) in
  makeGroups 0 (groupSizes n) shuffled.

(** The remainder policy in the words of the specification, on [nat]. *)
Definition policySizes (n : nat) : list nat :=
  match (n mod 4)%nat with
  | 0%nat => replicate (n / 4) 4%nat
  | 1%nat => replicate (n / 4 - 1) 4%nat ++ [3; 2]%nat
  | 2%nat => replicate (n / 4) 4%nat ++ [2]%nat
  | _ => replicate (n / 4) 4%nat ++ [3]%nat
  end.

(** ** Tournament controller: [Game]

    What lies outside the engine is a parameter.  [choose e p pl] is the
    virtual call [p->makeChoice()] on the object [pl] behind the pointer [p],
    up to the [recordChoice] it ends with: its outcome (the choice, or an
    exception, undefined behaviour, a prompt that is never answered), the
    texts it writes on the console, and the next state of the outside world
    (the console input for a human, the strategy and its generator for a
    computer).  [shuffle] is [std::shuffle] with the divider's generator,
    and [pause] is the [std::cin.get()] between two rounds.  They thread the
    state [Env] of the outside world. *)

(** The console output of the rounds, as far as it is kept: the banner of
    [collectChoices] for a named group, the texts written by the players'
    [makeChoice], the block of [printChoices] (its heading, which stands for
    the entries of the round, followed by the line of each entry) and the
    announcement of a split in [playRound].  The comparisons, the score
    table, the announcements of the elimination step and the headings of
    [run] are left out. *)
Inductive Message :=
| MsgChoosing (groupName : string)
| MsgText (text : string)
| MsgChoices (groupName : string) (choices : list (nat * Choice))
| MsgEntry (line : string)
| MsgGroups (numPlayers : nat) (groups : list (list nat)).

Section Controller.

Context {Env : Type}.
Variable choose : Env -> nat -> Player -> outcome Choice * list string * Env.
Variable shuffle : Env -> list nat -> list nat * Env.
Variable pause : Env -> Env.

Record Game := mkGame {
  players_ : list Player;
  roundNumber_ : Z;
  env : Env;
  out : list Message
}.

(** Computations over the game state.  The state is returned whatever the
    outcome, so that the state reached when a run stops is observable. *)
Definition M (A : Type) : Type := Game -> outcome A * Game.

Definition ret {A : Type} (a : A) : M A := fun g => (Ok a, g).

Definition bind {A B : Type} (m : M A) (k : A -> M B) : M B :=
  fun g =>
    match m g with
    | (Ok a, g') => k a g'
    | (Throw w, g') => (Throw w, g')
    | (Undefined, g') => (Undefined, g')
    | (OutOfFuel, g') => (OutOfFuel, g')
    end.

Definition lift {A : Type} (r : outcome A) : M A := fun g => (r, g).

Definition print (m : Message) : M unit :=
  fun g => (Ok tt, mkGame (players_ g) (roundNumber_ g) (env g) (out g ++ [m])).

(** Reading through a [Player*]. *)
Definition deref (p : nat) : M Player :=
  fun g =>
    match players_ g !! p with
    | Some pl => (Ok pl, g)
    | None => (Undefined, g)
    end.

(** [p->makeChoice()]: obtain the choice, [recordChoice] it, return it.
    What the call writes is on the console whatever its outcome; the choice
    is recorded when there is one. *)
Definition makeChoice (p : nat) : M Choice :=
  fun g =>
    match players_ g !! p with
    | Some pl =>
        let '(r, written, e) := choose (env g) p pl in
        let players :=
          match r with
          | Ok c => <[p := recordChoice c pl]> (players_ g)
          | _ => players_ g
          end in
        (r, mkGame players (roundNumber_ g) e (out g ++ (MsgText <$> written)))
    | None => (Undefined, g)
    end.

(** [p->setActive(active)] *)
Definition setActiveAt (active : bool) (p : nat) : M unit :=
  fun g =>
    match players_ g !! p with
    | Some pl =>
        (Ok tt, mkGame (<[p := setActive active pl]> (players_ g))
                       (roundNumber_ g) (env g) (out g))
    | None => (Undefined, g)
    end.

(** One of the two loops of [collectChoices]: the players whose [isHuman()]
    is [human] choose, in roster order. *)
Fixpoint collectFrom (human : bool) (players : list nat) : M (list (nat * Choice)) :=
  match players with
  | [] => ret []
  | p :: rest =>
      bind (deref p) (fun pl =>
        if bool_decide (isHuman pl = human) then
          bind (makeChoice p) (fun c =>
          bind (collectFrom human rest) (fun cs =>
          ret ((p, c) :: cs)))
        else collectFrom human rest)
  end.

Definition collectChoices (players : list nat) (groupName : string)
  : M (list (nat * Choice)) :=
  bind (if decide (groupName = EmptyString) then ret tt
        else print (MsgChoosing groupName)) (fun _ =>
  bind (collectFrom true players) (fun humanChoices =>
  bind (collectFrom false players) (fun choices =>
  ret (choices ++ humanChoices)))).

(** The loop of [printChoices]: the name is read through the pointer, the
    text of the choice is [names.at(choice)], which can throw. *)
Fixpoint printChoiceLines (choices : list (nat * Choice)) : M unit :=
  match choices with
  | [] => ret tt
  | (player, choice) :: rest =>
      bind (deref player) (fun pl =>
      bind (lift (ChoiceHelper.toString choice)) (fun text =>
      bind (print (MsgEntry ("    " +:+ name_ pl +:+ ": " +:+ text)%string)) (fun _ =>
      printChoiceLines rest)))
  end.

Definition printChoices (choices : list (nat * Choice)) (groupName : string) : M unit :=
  bind (print (MsgChoices groupName choices)) (fun _ =>
  printChoiceLines choices).

(** [p->getName()] for each pointer of a list: the printing code whose
    lines are not kept still reads the names through the pointers. *)
Fixpoint getNames (ps : list nat) : M (list string) :=
  match ps with
  | [] => ret []
  | p :: rest =>
      bind (deref p) (fun pl =>
      bind (getNames rest) (fun names =>
      ret (name_ pl :: names)))
  end.

(** [printAllComparisons]: one line per pair [i < j], with the names of the
    two players and, for a decided pair, its description, which is looked up
    with [std::map::at] and can throw.  The lines themselves are not kept. *)
Definition comparisonLine (choice1 choice2 : Choice) : outcome string :=
  match GameRules.compare choice1 choice2 with
  | DRAW => Ok "(ничья)"
  | WIN => GameRules.getDescription choice1 choice2
  | LOSE => GameRules.getDescription choice2 choice1
  end.

Fixpoint comparisonsWith (player1 : nat) (choice1 : Choice)
    (later : list (nat * Choice)) : M unit :=
  match later with
  | [] => ret tt
  | (player2, choice2) :: rest =>
      bind (getNames [player1; player2]) (fun _ =>
      bind (lift (comparisonLine choice1 choice2)) (fun _ =>
      comparisonsWith player1 choice1 rest))
  end.

Fixpoint allComparisons (choices : list (nat * Choice)) : M unit :=
  match choices with
  | [] => ret tt
  | (player1, choice1) :: rest =>
      bind (comparisonsWith player1 choice1 rest) (fun _ =>
      allComparisons rest)
  end.

Definition printAllComparisons (choices : list (nat * Choice)) (groupName : string)
  : M unit :=
  allComparisons choices.

(** [printScoreTable]: a copy of the scores is sorted with [tableBefore]
    and printed with the names of the players.  The table itself is not
    kept. *)
Definition printScoreTable (scores : list PlayerScore) (groupName : string) : M unit :=
  bind (getNames (player <$> scores)) (fun _ => ret tt).

(** [executeRound].  The elimination step announces the losers by their
    names as it collects them. *)
Definition executeRound (players : list nat) (groupName : string) : M (list nat) :=
  bind (collectChoices players groupName) (fun choices =>
  bind (printChoices choices groupName) (fun _ =>
  let scores := calculateScores choices in
  bind (printAllComparisons choices groupName) (fun _ =>
  bind (printScoreTable scores groupName) (fun _ =>
  bind (lift (determineLosers scores)) (fun losers =>
  bind (getNames losers) (fun _ =>
  ret losers)))))).

Fixpoint deactivate (losers : list nat) : M unit :=
  match losers with
  | [] => ret tt
  | loser :: rest => bind (setActiveAt false loser) (fun _ => deactivate rest)
  end.

(** [group.erase(remove_if(..., !p->isActive()), group.end())] *)
Fixpoint keepActive (group : list nat) : M (list nat) :=
  match group with
  | [] => ret []
  | p :: rest =>
      bind (deref p) (fun pl =>
      bind (keepActive rest) (fun rest' =>
      ret (if isActive_ pl then p :: rest' else rest')))
  end.

(** [playGroupRound]; the group is passed by reference, its final value is
    returned. *)
Fixpoint playGroupRound (fuel : nat) (group : list nat) (groupName : string)
  : M (list nat) :=
  match fuel with
  | O => lift OutOfFuel
  | S fuel' =>
      bind (executeRound group groupName) (fun losers =>
        match losers with
        | [] => playGroupRound fuel' group groupName
        | _ :: _ => bind (deactivate losers) (fun _ => keepActive group)
        end)
  end.

Definition divideIntoGroups (players : list nat) : M (list (list nat)) :=
  fun g =>
    let (shuffled, e) := shuffle (env g) players in
    (Ok (sliceGroups shuffled),
     mkGame (players_ g) (roundNumber_ g) e (out g)).

(** The loop over [groups] in [playRound]; [i] is the index of the first
    group of the list. *)
Fixpoint playGroups (fuel : nat) (i : nat) (groups : list (list nat)) : M unit :=
  match groups with
  | [] => ret tt
  | group :: rest =>
      let groupName := ("Группа " +:+ pretty (i + 1)%nat)%string in
      bind (playGroupRound fuel group groupName) (fun _ =>
      playGroups fuel (S i) rest)
  end.

(** The [while (true)] of the branch of [playRound] without groups. *)
Fixpoint playTogether (fuel : nat) (activePlayers : list nat) : M unit :=
  match fuel with
  | O => lift OutOfFuel
  | S fuel' =>
      bind (executeRound activePlayers "") (fun losers =>
        match losers with
        | [] => playTogether fuel' activePlayers
        | _ :: _ => deactivate losers
        end)
  end.

(** [playRound]; after the announcement of a split the groups are listed
    with the names of their players. *)
Definition playRound (fuel : nat) (activePlayers : list nat) : M unit :=
  if decide (5 < length activePlayers)%nat then
    bind (divideIntoGroups activePlayers) (fun groups =>
    bind (print (MsgGroups (length activePlayers) groups)) (fun _ =>
    bind (getNames (concat groups)) (fun _ =>
    playGroups fuel 0 groups)))
  else playTogether fuel activePlayers.

Fixpoint activeFrom (i : nat) (players : list Player) : list nat :=
  match players with
  | [] => []
  | p :: rest => if isActive_ p then i :: activeFrom (S i) rest
                 else activeFrom (S i) rest
  end.

Definition getActivePlayers : M (list nat) :=
  fun g => (Ok (activeFrom 0 (players_ g)), g).

Definition nextRound : M unit :=
  fun g => (Ok tt, mkGame (players_ g) (roundNumber_ g + 1) (env g) (out g)).

(** [std::cin.get()] after the request to press Enter. *)
Definition waitForEnter : M unit :=
  fun g => (Ok tt, mkGame (players_ g) (roundNumber_ g) (pause (env g)) (out g)).

(** [Game::run]; the result is the winner it announces by name, if any. *)
Fixpoint run (fuel : nat) : M (option nat) :=
  match fuel with
  | O => lift OutOfFuel
  | S fuel' =>
      bind getActivePlayers (fun active =>
        if decide (1 < length active)%nat then
          bind nextRound (fun _ =>
          bind getActivePlayers (fun activePlayers =>
          bind (playRound fuel' activePlayers) (fun _ =>
          bind getActivePlayers (fun remaining =>
          bind (if decide (1 < length remaining)%nat then waitForEnter
                else ret tt) (fun _ =>
          run fuel')))))
        else
          bind getActivePlayers (fun finalPlayers =>
          bind (getNames (take 1 finalPlayers)) (fun _ =>
          ret (head finalPlayers))))
  end.

End Controller.

Arguments Game Env : clear implicits.
Arguments M Env A : clear implicits.

(** ** Notions used to state the properties *)

(** Number of entries of [others] against which [c] has the result [r]. *)
Fixpoint tally (r : DuelResult) (c : Choice) (others : list Choice) : Z :=
  match others with
  | [] => 0
  | d :: ds => (if decide (GameRules.compare c d = r) then 1 else 0) + tally r c ds
  end.

(** What one comparison does to the entry on its left, [strike], and to the
    entry on its right, [hit]. *)
Definition strike (x : PlayerScore) (c : Choice) : PlayerScore :=
  match GameRules.compare (choice x) c with
  | WIN => addWin x
  | LOSE => addLoss x
  | DRAW => x
  end.

Definition hit (c : Choice) (y : PlayerScore) : PlayerScore :=
  match GameRules.compare c (choice y) with
  | WIN => addLoss y
  | LOSE => addWin y
  | DRAW => y
  end.

(** The state of the entries from index [i] on once the outer loop is over,
    [before] being the choices at the indices below [i], nearest first. *)
Fixpoint settle (before : list Choice) (l : list PlayerScore) : list PlayerScore :=
  match l with
  | [] => []
  | x :: rest =>
      foldl strike (foldr hit x before) (choice <$> rest)
      :: settle (choice x :: before) rest
  end.

(** The score of an entry against all the choices of the round. *)
Definition scoreAgainst (all : list Choice) (pc : nat * Choice) : PlayerScore :=
  mkScore (fst pc) (snd pc) (tally WIN (snd pc) all) (tally LOSE (snd pc) all).

Fixpoint total {A : Type} (f : A -> Z) (l : list A) : Z :=
  match l with
  | [] => 0
  | x :: l' => f x + total f l'
  end.

(** Wins, losses and net score of the first entry of player [p]. *)
Fixpoint scoreOf (p : nat) (scores : list PlayerScore) : option (Z * Z * Z) :=
  match scores with
  | [] => None
  | s :: rest =>
      if decide (player s = p) then Some (wins s, losses s, getNetScore s)
      else scoreOf p rest
  end.

(** The roster only moves forward: no player appears or disappears, names
    and kinds are fixed, a history only grows, and an eliminated player stays
    eliminated. *)
Definition advances {Env : Type} (g g' : Game Env) : Prop :=
  length (players_ g') = length (players_ g) /\
  forall i p, players_ g !! i = Some p ->
    exists p', players_ g' !! i = Some p' /\
      name_ p' = name_ p /\ isHuman p' = isHuman p /\
      choiceHistory_ p `prefix_of` choiceHistory_ p' /\
      (isActive_ p = false -> isActive_ p' = false).

(** The steps of the tournament controller, each from an arbitrary state and
    with arbitrary arguments.  A step that runs out of fuel ends in the state
    reached so far, so the states in the middle of a loop are end states of
    steps too. *)
Inductive ctrl_step {Env : Type}
    (choose : Env -> nat -> Player -> outcome Choice * list string * Env)
    (shuffle : Env -> list nat -> list nat * Env) (pause : Env -> Env)
  : Game Env -> Game Env -> Prop :=
| step_run fuel g :
    ctrl_step choose shuffle pause g (snd (run choose shuffle pause fuel g))
| step_playRound fuel activePlayers g :
    ctrl_step choose shuffle pause g (snd (playRound choose shuffle fuel activePlayers g))
| step_playGroupRound fuel group groupName g :
    ctrl_step choose shuffle pause g (snd (playGroupRound choose fuel group groupName g))
| step_executeRound players groupName g :
    ctrl_step choose shuffle pause g (snd (executeRound choose players groupName g))
| step_makeChoice p g :
    ctrl_step choose shuffle pause g (snd (makeChoice choose p g))
| step_eliminate loser g :
    ctrl_step choose shuffle pause g (snd (setActiveAt false loser g))
| step_divideIntoGroups players g :
    ctrl_step choose shuffle pause g (snd (divideIntoGroups shuffle players g))
| step_nextRound g :
    ctrl_step choose shuffle pause g (snd (nextRound g))
| step_waitForEnter g :
    ctrl_step choose shuffle pause g (snd (waitForEnter pause g))
| step_print m g :
    ctrl_step choose shuffle pause g (snd (print m g)).

(** [m] keeps the relation [R] between the state it starts from and the
    state it ends in, whatever its outcome. *)
Definition preserves {Env A : Type} (R : relation (Game Env)) (m : M Env A) : Prop :=
  forall g, R g (snd (m g)).

Definition same_out {Env : Type} (g g' : Game Env) : Prop := out g' = out g.

(** The output grows by messages that satisfy [P]. *)
Definition logs {Env : Type} (P : Message -> Prop) (g g' : Game Env) : Prop :=
  exists msgs, out g' = out g ++ msgs /\ Forall P msgs.

(** Who is a human according to the roster of [g]. *)
Definition humanAt {Env : Type} (g : Game Env) (p : nat) : option bool :=
  isHuman <$> players_ g !! p.

(** The messages of rounds in which all of [players] play together: no
    group is named or announced, and the entries of every block of choices
    are those of the players, one each. *)
Definition wholeRound (players : list nat) (m : Message) : Prop :=
  match m with
  | MsgChoices groupName choices => groupName = EmptyString /\ choices.*1 ≡ₚ players
  | MsgText _ | MsgEntry _ => True
  | MsgChoosing _ | MsgGroups _ _ => False
  end.

(** The name [playRound] gives to the group at index [i]. *)
Definition groupNameOf (i : nat) : string :=
  ("Группа " +:+ pretty (i + 1)%nat)%string.

(** The messages of rounds played in the groups [groups], the first of which
    is the group of index [i]: every banner and every block of choices
    carries the name of a group, and the entries of a block are those of the
    players of that group, one each.  No further split is announced. *)
Definition groupRound (i : nat) (groups : list (list nat)) (m : Message) : Prop :=
  match m with
  | MsgChoices groupName choices =>
      exists k group, groups !! k = Some group /\
        groupName = groupNameOf (i + k) /\ choices.*1 ≡ₚ group
  | MsgChoosing groupName =>
      exists k group, groups !! k = Some group /\ groupName = groupNameOf (i + k)
  | MsgText _ | MsgEntry _ => True
  | MsgGroups _ _ => False
  end.

(** A source of choices that always returns and writes nothing. *)
Definition silent {Env : Type} (choose : Env -> Player -> Choice * Env)
  : Env -> nat -> Player -> outcome Choice * list string * Env :=
  fun e _ pl => let (c, e') := choose e pl in (Ok c, [], e').

(** A concrete outside world, for running the controller: every player
    walks through the five choices as [CyclicStrategy] does, and the
    shuffle reverses the list. *)
Definition cyclicChoose (index : nat) (p : Player) : Choice * nat :=
  (nth (index mod 5) ChoiceHelper.allChoices ROCK, S index).

Definition reverseShuffle (e : nat) (l : list nat) : list nat * nat := (rev l, e).

Definition startGame {Env : Type} (e : Env) (players : list Player) : Game Env :=
  mkGame players 0 e [].

(** ** Notions used to state the further properties *)

(** The active flags of the roster, and what becomes of them when the
    players of [losers] are eliminated. *)
Definition flags {Env : Type} (g : Game Env) : list bool := isActive_ <$> players_ g.

Definition dropOut (losers : list nat) (bs : list bool) : list bool :=
  imap (fun i b => if decide (i ∈ losers) then false else b) bs.

(** Nobody is eliminated and the round counter stands still. *)
Definition quiet {Env : Type} (g g' : Game Env) : Prop :=
  flags g' = flags g /\ roundNumber_ g' = roundNumber_ g.

(** The outcomes of a run without fault: it has returned, or it is still
    going on when the fuel ends. *)
Definition faultless {A : Type} (r : outcome A) : Prop :=
  match r with
  | Ok _ | OutOfFuel => True
  | Throw _ | Undefined => False
  end.

(** A run that has not returned has been stopped by a call of [choose]: that
    call has ended in the same way. *)
Definition blame {Env A : Type}
    (choose : Env -> nat -> Player -> outcome Choice * list string * Env)
    (r : outcome A) : Prop :=
  match r with
  | Ok _ => True
  | Throw what => exists e p pl, (choose e p pl).1.1 = Throw what
  | Undefined => exists e p pl, (choose e p pl).1.1 = Undefined
  | OutOfFuel => exists e p pl, (choose e p pl).1.1 = OutOfFuel
  end.

(** What [collectChoices] writes of its own for the group [groupName]. *)
Definition banner (groupName : string) : list Message :=
  if decide (groupName = EmptyString) then [] else [MsgChoosing groupName].


(** The pointers of [ps] point into the roster. *)
Definition inRoster {Env : Type} (g : Game Env) (ps : list nat) : Prop :=
  Forall (fun p => (p < length (players_ g))%nat) ps.

(** What a round over [players] may do to the flags: the eliminated
    [losers] are some of the players, each once, and not all of them. *)
Definition eliminates {Env : Type} (players losers : list nat) (g g' : Game Env) : Prop :=
  flags g' = dropOut losers (flags g) /\
  roundNumber_ g' = roundNumber_ g /\
  losers ⊆ players /\ NoDup losers /\
  exists p, p ∈ players /\ p ∉ losers.


(** A world in which every player walks through the five choices on its
    own, as a computer with a [CyclicStrategy] does: its [index] counts its
    calls, as the length of the history of its player does. *)
Definition ownCycle (e : unit) (p : Player) : Choice * unit :=
  (nth (length (choiceHistory_ p) mod 5) ChoiceHelper.allChoices ROCK, e).

(** ** Further parts of the program *)

(** *** The console

    [std::cin] is the list of the lines still to be read, [std::cout] the list
    of the texts written so far (without their line ends).  [std::getline] at
    the end of the input fails and leaves the fresh string empty. *)
Record Console := mkConsole { cin : list string; cout : list string }.

Definition put (text : string) (io : Console) : Console :=
  mkConsole (cin io) (cout io ++ [text]).

Definition getline (io : Console) : string * Console :=
  match cin io with
  | [] => (EmptyString, io)
  | line :: rest => (line, mkConsole rest (cout io))
  end.


(** The characters of [" \t"]. *)
Definition isBlank (a : Ascii.ascii) : bool :=
  Ascii.eqb a (Ascii.ascii_of_nat 32) || Ascii.eqb a (Ascii.ascii_of_nat 9).

(** [s.erase(0, s.find_first_not_of(" \t"))]: when there is no such
    character the position is [npos] and everything goes. *)
Fixpoint trimLeft (s : string) : string :=
  match s with
  | EmptyString => EmptyString
  | String a s' => if isBlank a then trimLeft s' else s
  end.

(** [s.erase(s.find_last_not_of(" \t") + 1)]: [npos + 1] is 0, so a string
    of blanks, or an empty one, is emptied. *)
Fixpoint trimRight (s : string) : string :=
  match s with
  | EmptyString => EmptyString
  | String a s' =>
      match trimRight s' with
      | EmptyString => if isBlank a then EmptyString else String a EmptyString
      | t => String a t
      end
  end.

Module HumanPlayer.

(** The menu printed before the prompt. *)
Definition menu (name_ : string) : list string :=
  [ ("  " +:+ name_ +:+ ", сделайте выбор:");
    "    1. Камень"; "    2. Ножницы"; "    3. Бумага";
    "    4. Ящерица"; "    5. Спок" ]%string.

(** The [while (true)] of [makeChoice].  [fromInput] throws nothing but
    [std::invalid_argument], which the loop catches. *)
Fixpoint prompt (fuel : nat) (p : Player) (io : Console)
  : outcome (Choice * Player) * Console :=
  match fuel with
  | O => (OutOfFuel, io)
  | S fuel' =>
      let io := put "  Ваш выбор (1-5): " io in
      let (input, io) := getline io in
      let input := trimLeft input in
      let input := trimRight input in
      match ChoiceHelper.fromInput input with
      | Ok choice => (Ok (choice, recordChoice choice p), io)
      | Throw _ => prompt fuel' p (put "  Неверный ввод. Попробуйте снова." io)
      | Undefined => (Undefined, io)
      | OutOfFuel => (OutOfFuel, io)
      end
  end.

Definition makeChoice (fuel : nat) (p : Player) (io : Console)
  : outcome (Choice * Player) * Console :=
  prompt fuel p (mkConsole (cin io) (cout io ++ menu (name_ p))).

End HumanPlayer.

(** *** The strategies of the computers

    A generator is a state [Rng]; [uniform rng hi] is
    [std::uniform_int_distribution<>(0, hi)(rng)], a number from 0 to [hi] and
    the next state.  A [std::map] with [Choice] keys is the function from a
    key to its value, if the key is present; it is walked through in the
    order of the keys, which is the order of the enumeration. *)

Definition keyOrder : list Choice := [ROCK; SCISSORS; PAPER; LIZARD; SPOCK].

Definition entries {V : Type} (m : Choice -> option V) : list (Choice * V) :=
  omap (fun k => (fun v => (k, v)) <$> m k) keyOrder.

(** [counts[c]++]: a missing key is inserted with 0 first. *)
Definition bump (counts : Choice -> option Z) (c : Choice) : Choice -> option Z :=
  fun k => if decide (k = c) then Some (default 0 (counts k) + 1) else counts k.

Section Strategies.

Context {Rng : Type}.
Variable uniform : Rng -> nat -> nat * Rng.

(** [options[dist(rng)]] with [dist(0, options.size() - 1)]; the subscript
    is not checked.  The lists it is used with are not empty. *)
Definition pick (options : list Choice) (rng : Rng) : outcome Choice * Rng :=
  let (k, rng') := uniform rng (length options - 1) in
  match options !! k with
  | Some c => (Ok c, rng')
  | None => (Undefined, rng')
  end.

Definition RandomStrategy_makeChoice (rng : Rng) (history : list Choice)
  : outcome Choice * Rng :=
  let choices := ChoiceHelper.allChoices in
  pick choices rng.

Definition weights : Choice -> option Z :=
  fun c => match c with
           | ROCK | PAPER | SCISSORS => Some 2
           | LIZARD | SPOCK => Some 1
           end.

Definition pool : list Choice :=
  flat_map (fun cw => replicate (Z.to_nat (snd cw)) (fst cw)) (entries weights).

Definition BiasedStrategy_makeChoice (rng : Rng) (history : list Choice)
  : outcome Choice * Rng :=
  pick pool rng.

Definition counters : list (Choice * list Choice) :=
  [ (ROCK, [PAPER; SPOCK]); (SCISSORS, [ROCK; SPOCK]); (PAPER, [SCISSORS; LIZARD]);
    (LIZARD, [ROCK; SCISSORS]); (SPOCK, [LIZARD; PAPER]) ].

(** [counters.at(target)] throws for a missing key. *)
Definition findCounter (target : Choice) (rng : Rng) : outcome Choice * Rng :=
  match GameRules.find target counters with
  | Some options => pick options rng
  | None => (Throw "map::at", rng)
  end.

Definition countChoices (history : list Choice) : Choice -> option Z :=
  foldl bump (fun _ => None) history.

(** The loop over [counts]: a strictly greater count takes over. *)
Definition mostCommonStep (best : Choice * Z) (entry : Choice * Z) : Choice * Z :=
  if snd best <? snd entry then (fst entry, snd entry) else best.

Definition mostCommon (first : Choice) (counts : Choice -> option Z) : Choice :=
  fst (foldl mostCommonStep (first, 0) (entries counts)).

Definition AdaptiveStrategy_makeChoice (rng : Rng) (history : list Choice)
  : outcome Choice * Rng :=
  if (length history <? 3)%nat then
    let choices := ChoiceHelper.allChoices in
    pick choices rng
  else
    let counts := countChoices history in
    match history !! 0%nat with
    | Some first => findCounter (mostCommon first counts) rng
    | None => (Undefined, rng)
    end.

(** [CyclicStrategy]: [index] is a [size_t], which wraps at 2^64. *)
Definition CyclicStrategy_makeChoice (index : Z) (history : list Choice)
  : outcome Choice * Z :=
  let cycle := ChoiceHelper.allChoices in
  let choice := cycle !! Z.to_nat (index mod Z.of_nat (length cycle)) in
  (match choice with Some c => Ok c | None => Undefined end,
   (index + 1) mod 2 ^ 64).

(** The four strategies behind [ChoiceStrategy], with their state. *)
Inductive Strategy :=
| RandomStrategy (rng : Rng)
| BiasedStrategy (rng : Rng)
| AdaptiveStrategy (rng : Rng)
| CyclicStrategy (index : Z).

Definition Strategy_makeChoice (strategy : Strategy) (history : list Choice)
  : outcome Choice * Strategy :=
  match strategy with
  | RandomStrategy rng =>
      let (r, rng') := RandomStrategy_makeChoice rng history in (r, RandomStrategy rng')
  | BiasedStrategy rng =>
      let (r, rng') := BiasedStrategy_makeChoice rng history in (r, BiasedStrategy rng')
  | AdaptiveStrategy rng =>
      let (r, rng') := AdaptiveStrategy_makeChoice rng history in (r, AdaptiveStrategy rng')
  | CyclicStrategy index =>
      let (r, index') := CyclicStrategy_makeChoice index history in (r, CyclicStrategy index')
  end.

(** [ComputerPlayer::makeChoice]: the strategy sees the history of its own
    player; the choice is recorded. *)
Definition ComputerPlayer_makeChoice (strategy : Strategy) (p : Player)
  : outcome (Choice * Player) * Strategy :=
  let (r, strategy') := Strategy_makeChoice strategy (choiceHistory_ p) in
  (match r with
   | Ok choice => Ok (choice, recordChoice choice p)
   | Throw w => Throw w
   | Undefined => Undefined
   | OutOfFuel => OutOfFuel
   end, strategy').

(** The players as the program has them.  The outside world of the
    controller is the lines still to be read from the console, the strategy
    of the computer behind each pointer, and the generator of the group
    divider. *)
Record World := mkWorld {
  stdin : list string;
  strategy_ : nat -> Strategy;
  dividerRng : Rng
}.

Definition choiceOf (r : outcome (Choice * Player)) : outcome Choice :=
  match r with
  | Ok (choice, _) => Ok choice
  | Throw w => Throw w
  | Undefined => Undefined
  | OutOfFuel => OutOfFuel
  end.

(** The virtual [Player::makeChoice]: the prompt of a human, with [patience]
    as the fuel of its loop, or the strategy of a computer.  The texts it
    writes are those on the console after the call. *)
Definition Player_makeChoice (patience : nat) (w : World) (p : nat) (pl : Player)
  : outcome Choice * list string * World :=
  if isHuman pl then
    let (r, io) := HumanPlayer.makeChoice patience pl (mkConsole (stdin w) []) in
    (choiceOf r, cout io, mkWorld (cin io) (strategy_ w) (dividerRng w))
  else
    let (r, strategy) := ComputerPlayer_makeChoice (strategy_ w p) pl in
    (choiceOf r, [],
     mkWorld (stdin w)
       (fun q => if decide (q = p) then strategy else strategy_ w q)
       (dividerRng w)).



End Strategies.

Arguments Strategy Rng : clear implicits.
Arguments World Rng : clear implicits.
Arguments mkWorld {Rng}.

(** Calling a cyclic strategy [n] times in a row. *)
Fixpoint cyclicCalls (n : nat) (index : Z) : list (outcome Choice) :=
  match n with
  | O => []
  | S n' => let (r, index') := CyclicStrategy_makeChoice index [] in
            r :: cyclicCalls n' index'
  end.

(** How often [c] occurs in [l]. *)
Definition occurrences (c : Choice) (l : list Choice) : Z :=
  Z.of_nat (length (filter (fun d => d = c) l)).

(** A generator for running the strategies: it counts. *)
Definition stepUniform (rng : nat) (hi : nat) : nat * nat :=
  ((rng mod S hi)%nat, S rng).

(** *** The player factory and the setup

    [seed device] is [std::mt19937(std::random_device{}())], the generator a
    new strategy is given.  [stoi] is [std::stoi], a parameter: it returns an
    [int] or throws. *)

Record Factory (Rng Device : Type) := mkFactory {
  humanCounter_ : Z;
  computerCounter_ : Z;
  rng_ : Rng;
  device : Device
}.
Arguments mkFactory {Rng Device}.
Arguments humanCounter_ {Rng Device}.
Arguments computerCounter_ {Rng Device}.
Arguments rng_ {Rng Device}.
Arguments device {Rng Device}.

Section Setup.

Context {Rng Device : Type}.
Variable uniform : Rng -> nat -> nat * Rng.
Variable seed : Device -> Rng * Device.
Variable stoi : string -> outcome Z.

Definition resetCounters (f : Factory Rng Device) : Factory Rng Device :=
  mkFactory 0 0 (rng_ f) (device f).

Definition createHuman (name : string) (f : Factory Rng Device)
  : Player * Factory Rng Device :=
  let humanCounter := humanCounter_ f + 1 in
  let playerName :=
    if decide (name = EmptyString)
    then ("Игрок " +:+ pretty humanCounter)%string else name in
  (newPlayer playerName true,
   mkFactory humanCounter (computerCounter_ f) (rng_ f) (device f)).

Definition createComputer (f : Factory Rng Device)
  : (Player * Strategy Rng) * Factory Rng Device :=
  let computerCounter := computerCounter_ f + 1 in
  let botName := ("Бот " +:+ pretty computerCounter)%string in
  let (k, rng) := uniform (rng_ f) 3 in
  let (strategy, dev) :=
    match k with
    | 1%nat => let (r, dev) := seed (device f) in (BiasedStrategy r, dev)
    | 2%nat => let (r, dev) := seed (device f) in (AdaptiveStrategy r, dev)
    | 3%nat => (CyclicStrategy 0, device f)
    | _ => let (r, dev) := seed (device f) in (RandomStrategy r, dev)
    end in
  ((newPlayer botName false, strategy),
   mkFactory (humanCounter_ f) computerCounter rng dev).

(** The first loop of [createPlayers], from [i] on. *)
Fixpoint readHumans (n : nat) (i : Z) (io : Console) (f : Factory Rng Device)
  : list Player * Console * Factory Rng Device :=
  match n with
  | O => ([], io, f)
  | S n' =>
      let io := put ("  Введите имя игрока " +:+ pretty (i + 1) +:+ ": ")%string io in
      let (name, io) := getline io in
      let name := trimLeft name in
      let name := if decide (name = EmptyString) then name else trimRight name in
      let (p, f) := createHuman name f in
      let '(ps, io, f) := readHumans n' (i + 1) io f in
      (p :: ps, io, f)
  end.

Fixpoint makeComputers (n : nat) (f : Factory Rng Device)
  : list (Player * Strategy Rng) * Factory Rng Device :=
  match n with
  | O => ([], f)
  | S n' =>
      let (c, f) := createComputer f in
      let (cs, f) := makeComputers n' f in
      (c :: cs, f)
  end.

(** [createPlayers]; a computer comes with its strategy. *)
Definition createPlayers (numHumans numComputers : Z) (io : Console)
    (f : Factory Rng Device)
  : list (Player * option (Strategy Rng)) * Console * Factory Rng Device :=
  let f := resetCounters f in
  let '(humans, io, f) := readHumans (Z.to_nat numHumans) 0 io f in
  let (computers, f) := makeComputers (Z.to_nat numComputers) f in
  (((fun p => (p, None)) <$> humans)
     ++ ((fun c => (fst c, Some (snd c))) <$> computers), io, f).

(** [readInt]: [catch (...)] takes every exception of [std::stoi]. *)
Fixpoint readInt (fuel : nat) (prompt : string) (io : Console) : outcome Z * Console :=
  match fuel with
  | O => (OutOfFuel, io)
  | S fuel' =>
      let io := put prompt io in
      let (input, io) := getline io in
      match stoi input with
      | Ok v => (Ok v, io)
      | Throw _ => readInt fuel' prompt (put "  Введите целое число!" io)
      | Undefined => (Undefined, io)
      | OutOfFuel => (OutOfFuel, io)
      end
  end.

(** The two loops of [setup] that ask for the numbers of players.  The sum
    of two [int] is undefined when it leaves the range of [int]. *)
Fixpoint askHumans (fuel : nat) (io : Console) : outcome Z * Console :=
  match fuel with
  | O => (OutOfFuel, io)
  | S fuel' =>
      match readInt fuel' "  Количество игроков-людей: " io with
      | (Ok numHumans, io) =>
          if numHumans <? 0
          then askHumans fuel' (put "  Число не может быть отрицательным!" io)
          else (Ok numHumans, io)
      | r => r
      end
  end.

Fixpoint askComputers (fuel : nat) (numHumans : Z) (io : Console)
  : outcome Z * Console :=
  match fuel with
  | O => (OutOfFuel, io)
  | S fuel' =>
      match readInt fuel' "  Количество игроков-компьютеров: " io with
      | (Ok numComputers, io) =>
          if numComputers <? 0 then
            askComputers fuel' numHumans (put "  Число не может быть отрицательным!" io)
          else
            let total := numHumans + numComputers in
            if negb ((- 2 ^ 31 <=? total) && (total <? 2 ^ 31)) then (Undefined, io)
            else if total <? 2 then
              askComputers fuel' numHumans
                (put "  Для игры нужно минимум 2 участника!" io)
            else if (numHumans =? 1) && (numComputers =? 0) then
              askComputers fuel' numHumans
                (put "  Добавьте хотя бы одного компьютера."
                   (put "  Один игрок не может играть сам с собой," io))
            else (Ok numComputers, io)
      | r => r
      end
  end.

(** [setup] between the banner it prints first and the list of participants
    it prints last: the numbers are asked for, the players made. *)
Definition setup (fuel : nat) (io : Console) (f : Factory Rng Device)
  : outcome (list (Player * option (Strategy Rng))) * Console * Factory Rng Device :=
  match askHumans fuel io with
  | (Ok numHumans, io) =>
      match askComputers fuel numHumans io with
      | (Ok numComputers, io) =>
          let '(players, io, f) := createPlayers numHumans numComputers io f in
          (Ok players, io, f)
      | (Throw w, io) => (Throw w, io, f)
      | (Undefined, io) => (Undefined, io, f)
      | (OutOfFuel, io) => (OutOfFuel, io, f)
      end
  | (Throw w, io) => (Throw w, io, f)
  | (Undefined, io) => (Undefined, io, f)
  | (OutOfFuel, io) => (OutOfFuel, io, f)
  end.

End Setup.

(** A [stoi] for running the setup: it reads the numbers 0 to 2. *)
Definition smallStoi (s : string) : outcome Z :=
  if String.eqb s "0" then Ok 0
  else if String.eqb s "1" then Ok 1
  else if String.eqb s "2" then Ok 2
  else Throw "stoi".

(** The name [createPlayers] gives to the human who types [line]. *)
Definition humanName (i : nat) (line : string) : string :=
  let name := trimRight (trimLeft line) in
  if decide (name = EmptyString) then ("Игрок " +:+ pretty (Z.of_nat i + 1))%string
  else name.

(** Strings of blanks, and strings with a blank at an end. *)
Fixpoint allBlank (s : string) : bool :=
  match s with
  | EmptyString => true
  | String a s' => isBlank a && allBlank s'
  end.

Definition startsBlank (s : string) : bool :=
  match s with
  | EmptyString => false
  | String a _ => isBlank a
  end.

Fixpoint endsBlank (s : string) : bool :=
  match s with
  | EmptyString => false
  | String a EmptyString => isBlank a
  | String _ s' => endsBlank s'
  end.

(** A line that [HumanPlayer::makeChoice] turns down. *)
Definition rejected (line : string) : Prop :=
  exists what, ChoiceHelper.fromInput (trimRight (trimLeft line)) = Throw what.

(** What is written for [n] lines turned down, and the prompt that follows. *)
Fixpoint retries (n : nat) : list string :=
  match n with
  | O => ["  Ваш выбор (1-5): "]%string
  | S n' => ["  Ваш выбор (1-5): "; "  Неверный ввод. Попробуйте снова."]%string
            ++ retries n'
  end.

(** * Properties *)

(** ** Rule table *)

Lemma compare_same (a : Choice) : GameRules.compare a a = DRAW.
Proof. by destruct a. Qed.

Lemma compare_lose_win (a b : Choice) :
  GameRules.compare a b = LOSE <-> GameRules.compare b a = WIN.
Proof. destruct a, b; vm_compute; split; congruence. Qed.

Lemma compare_draw_eq (a b : Choice) : GameRules.compare a b = DRAW <-> a = b.
Proof. destruct a, b; vm_compute; split; congruence. Qed.

(** C1.  [compare a b] is [DRAW] when [a = b], [WIN] exactly on the ten
    winning pairs of the rules, and [LOSE] on every other ordered pair. *)
Theorem compare_table (a b : Choice) :
  (a = b -> GameRules.compare a b = DRAW) /\
  (GameRules.compare a b = WIN <-> (a, b) ∈ winning_pairs) /\
  (a ≠ b -> (a, b) ∉ winning_pairs -> GameRules.compare a b = LOSE).
Proof.
  split; [intros ->; apply compare_same|].
  split.
  - destruct a, b; vm_compute; split; intros H; try congruence;
      try (repeat (first [left; reflexivity | right]); fail);
      exfalso; repeat (apply elem_of_cons in H as [H|H]; [discriminate H|]);
      by apply elem_of_nil in H.
  - intros Hne Hnot.
    destruct a, b; try reflexivity; try (by destruct Hne);
      exfalso; apply Hnot; repeat (first [left; reflexivity | right]).
Qed.

(** C4.  For distinct choices the two directions of [compare] are opposite:
    one is [WIN], the other [LOSE]; they are never both [WIN], and neither is
    [DRAW]. *)
Theorem compare_opposite (a b : Choice) :
  a ≠ b ->
  ((GameRules.compare a b = WIN /\ GameRules.compare b a = LOSE) \/
   (GameRules.compare a b = LOSE /\ GameRules.compare b a = WIN)) /\
  ~ (GameRules.compare a b = WIN /\ GameRules.compare b a = WIN) /\
  ~ (GameRules.compare a b = DRAW /\ GameRules.compare b a = DRAW).
Proof.
  intros Hne.
  destruct a, b; try (by destruct Hne); vm_compute;
    (split; [auto | split; intros [? ?]; congruence]).
Qed.

Lemma compare_opposite_witness :
  ROCK ≠ SPOCK /\
  ((GameRules.compare ROCK SPOCK = WIN /\ GameRules.compare SPOCK ROCK = LOSE) \/
   (GameRules.compare ROCK SPOCK = LOSE /\ GameRules.compare SPOCK ROCK = WIN)) /\
  ~ (GameRules.compare ROCK SPOCK = WIN /\ GameRules.compare SPOCK ROCK = WIN) /\
  ~ (GameRules.compare ROCK SPOCK = DRAW /\ GameRules.compare SPOCK ROCK = DRAW).
Proof.
  assert (Hne : ROCK ≠ SPOCK) by discriminate.
  split; [exact Hne | exact (compare_opposite ROCK SPOCK Hne)].
Defined.

(** Every decided pair has its description in the table, so printing the
    comparisons of a round never throws. *)
Lemma comparisonLine_ok (a b : Choice) : exists line, comparisonLine a b = Ok line.
Proof. destruct a, b; vm_compute; eauto. Qed.

(** ** Elimination policy *)

Lemma netBounds_fold (scores : list PlayerScore) (a b : Z) :
  a <= b ->
  fst (foldl boundsStep (a, b) scores) <= a /\
  b <= snd (foldl boundsStep (a, b) scores) /\
  (forall s, s ∈ scores ->
     fst (foldl boundsStep (a, b) scores) <= getNetScore s
     <= snd (foldl boundsStep (a, b) scores)) /\
  (fst (foldl boundsStep (a, b) scores) = a \/
   exists s, s ∈ scores /\ getNetScore s = fst (foldl boundsStep (a, b) scores)) /\
  (snd (foldl boundsStep (a, b) scores) = b \/
   exists s, s ∈ scores /\ getNetScore s = snd (foldl boundsStep (a, b) scores)).
Proof.
  revert a b. induction scores as [|x l IH]; intros a b Hab; simpl.
  - split; [lia|]. split; [lia|]. split; [|auto].
    intros s Hs. by apply elem_of_nil in Hs.
  - unfold boundsStep at 2 4 6 8 10 12 14 16. cbn [fst snd].
    set (a' := if getNetScore x <? a then getNetScore x else a).
    set (b' := if b <? getNetScore x then getNetScore x else b).
    assert (Ha' : a' <= a /\ a' <= getNetScore x /\ (a' = a \/ a' = getNetScore x))
      by (subst a'; destruct (Z.ltb_spec (getNetScore x) a); lia).
    assert (Hb' : b <= b' /\ getNetScore x <= b' /\ (b' = b \/ b' = getNetScore x))
      by (subst b'; destruct (Z.ltb_spec b (getNetScore x)); lia).
    destruct (IH a' b' ltac:(lia)) as (H1 & H2 & H3 & H4 & H5).
    split; [lia|]. split; [lia|]. split; [|split].
    + intros s [->|Hs]%elem_of_cons; [lia | by apply H3].
    + destruct H4 as [H4|(s & Hs & H4)].
      * destruct Ha' as (_ & _ & [Ha'|Ha']); [left; lia|].
        right. exists x. split; [left | lia].
      * right. exists s. split; [by right | done].
    + destruct H5 as [H5|(s & Hs & H5)].
      * destruct Hb' as (_ & _ & [Hb'|Hb']); [left; lia|].
        right. exists x. split; [left | lia].
      * right. exists s. split; [by right | done].
Qed.

(** [netBounds] computes the least and the greatest net score of a list that
    contains [first]. *)
Lemma netBounds_spec (first : PlayerScore) (scores : list PlayerScore) :
  first ∈ scores ->
  (forall s, s ∈ scores ->
     fst (netBounds first scores) <= getNetScore s <= snd (netBounds first scores)) /\
  (exists s, s ∈ scores /\ getNetScore s = fst (netBounds first scores)) /\
  (exists s, s ∈ scores /\ getNetScore s = snd (netBounds first scores)).
Proof.
  intros Hin. unfold netBounds.
  destruct (netBounds_fold scores (getNetScore first) (getNetScore first) ltac:(lia))
    as (_ & _ & H3 & H4 & H5).
  split; [exact H3|]. split.
  - destruct H4 as [H4|H4]; [exists first; split; [done | by rewrite H4] | exact H4].
  - destruct H5 as [H5|H5]; [exists first; split; [done | by rewrite H5] | exact H5].
Qed.

Lemma collectLosers_fold (minNetScore : Z) (scores : list PlayerScore) (acc : list nat) :
  foldl (fun losers score =>
           if getNetScore score =? minNetScore
           then losers ++ [player score] else losers) acc scores
  = acc ++ (player <$> filter (fun s => getNetScore s = minNetScore) scores).
Proof.
  revert acc. induction scores as [|x l IH]; intros acc; simpl.
  - by rewrite app_nil_r.
  - rewrite IH. destruct (Z.eqb_spec (getNetScore x) minNetScore) as [He|He].
    + rewrite filter_cons_True by done. simpl. by rewrite <- app_assoc.
    + by rewrite filter_cons_False.
Qed.

Lemma collectLosers_filter (minNetScore : Z) (scores : list PlayerScore) :
  collectLosers minNetScore scores
  = player <$> filter (fun s => getNetScore s = minNetScore) scores.
Proof. unfold collectLosers. by rewrite collectLosers_fold. Qed.

Lemma determineLosers_unfold (first : PlayerScore) (rest : list PlayerScore) :
  determineLosers (first :: rest) =
  let scores := first :: rest in
  if fst (netBounds first scores) =? snd (netBounds first scores) then Ok []
  else Ok (player <$> filter (fun s => getNetScore s = fst (netBounds first scores)) scores).
Proof.
  unfold determineLosers. cbn [lookup list_lookup].
  destruct (netBounds first (first :: rest)) as [mn mx] eqn:E. cbn [fst snd].
  destruct (mn =? mx); [done|]. by rewrite collectLosers_filter.
Qed.

(** C2.  On a non-empty score list [minNet] and [maxNet] are the least and the
    greatest net score.  If they coincide (all entries have one net score) the
    result is a replay: an empty loser list.  Otherwise the losers are exactly
    the entries whose net score is [minNet], and an entry with a strictly
    greater net score is not among them. *)
Theorem determineLosers_policy (scores : list PlayerScore) :
  scores ≠ [] ->
  exists minNet maxNet : Z,
    (forall s, s ∈ scores -> minNet <= getNetScore s <= maxNet) /\
    (exists s, s ∈ scores /\ getNetScore s = minNet) /\
    (exists s, s ∈ scores /\ getNetScore s = maxNet) /\
    (minNet = maxNet <->
       forall s t, s ∈ scores -> t ∈ scores -> getNetScore s = getNetScore t) /\
    (minNet = maxNet -> determineLosers scores = Ok []) /\
    (minNet ≠ maxNet ->
       let eliminated := filter (fun s => getNetScore s = minNet) scores in
       determineLosers scores = Ok (player <$> eliminated) /\
       eliminated ≠ [] /\
       exists s, s ∈ scores /\ minNet < getNetScore s /\ (s ∉ eliminated) /\
                 (NoDup (player <$> scores) -> player s ∉ (player <$> eliminated))).
Proof.
  destruct scores as [|first rest]; [done | intros _].
  set (scores := first :: rest).
  destruct (netBounds_spec first scores ltac:(left)) as (Hb & (lo & Hlo & Elo) & (hi & Hhi & Ehi)).
  exists (fst (netBounds first scores)), (snd (netBounds first scores)).
  split; [exact Hb|]. split; [by exists lo|]. split; [by exists hi|].
  split; [|split].
  - split.
    + intros E s t Hs Ht. pose proof (Hb s Hs). pose proof (Hb t Ht). lia.
    + intros Hall. rewrite <- Elo, <- Ehi. by apply Hall.
  - intros E. subst scores. rewrite determineLosers_unfold. cbn zeta.
    by apply Z.eqb_eq in E as ->.
  - intros Hne. cbn zeta. split; [|split].
    + subst scores. rewrite determineLosers_unfold. cbn zeta.
      by apply Z.eqb_neq in Hne as ->.
    + intros Hnil. assert (Hin : lo ∈ filter (fun s => getNetScore s = fst (netBounds first scores)) scores)
        by (apply list_elem_of_filter; done).
      rewrite Hnil in Hin. by apply elem_of_nil in Hin.
    + exists hi. pose proof (Hb hi Hhi). split; [done|]. split; [lia|]. split.
      * intros [Hf _]%list_elem_of_filter. lia.
      * intros Hnd [t [Hp [Hs Hs']%list_elem_of_filter]]%list_elem_of_fmap.
        assert (hi = t); [|subst t; lia].
        apply list_elem_of_lookup in Hhi as [i Hi].
        apply list_elem_of_lookup in Hs' as [j Hj].
        assert (i = j); [|congruence].
        eapply NoDup_lookup; [exact Hnd| |]; rewrite list_lookup_fmap.
        -- rewrite Hi. reflexivity.
        -- rewrite Hj. simpl. by rewrite Hp.
Qed.

(** ** Round evaluator *)

Lemma alter_middle {A : Type} (f : A -> A) (l1 l2 : list A) (x : A) :
  alter f (length l1) (l1 ++ x :: l2) = l1 ++ f x :: l2.
Proof.
  replace (length l1) with (length l1 + 0)%nat by lia.
  by rewrite alter_app_r.
Qed.

Lemma choice_strike (x : PlayerScore) (c : Choice) : choice (strike x c) = choice x.
Proof. unfold strike. by destruct (GameRules.compare _ _). Qed.

Lemma choice_hit (c : Choice) (y : PlayerScore) : choice (hit c y) = choice y.
Proof. unfold hit. by destruct (GameRules.compare _ _). Qed.

Lemma hit_strike (c : Choice) (y : PlayerScore) : hit c y = strike y c.
Proof.
  unfold hit, strike.
  destruct (GameRules.compare c (choice y)) eqn:E.
  - apply compare_lose_win in E. by rewrite E.
  - apply compare_lose_win in E. by rewrite E.
  - apply compare_draw_eq in E. by rewrite E, compare_same.
Qed.

(** One comparison, the two entries being located in the list. *)
Lemma duel_middle (pre mid post : list PlayerScore) (x y : PlayerScore) :
  duel (length pre) (S (length pre + length mid)) (pre ++ x :: mid ++ y :: post)
  = pre ++ strike x (choice y) :: mid ++ hit (choice x) y :: post.
Proof.
  unfold duel.
  rewrite list_lookup_middle by done.
  assert (Hj : S (length pre + length mid) = length (pre ++ x :: mid))
    by (rewrite length_app; simpl; lia).
  assert (Hy : (pre ++ x :: mid ++ y :: post) !! S (length pre + length mid) = Some y).
  { replace (pre ++ x :: mid ++ y :: post) with ((pre ++ x :: mid) ++ y :: post)
      by (by rewrite <- app_assoc).
    by apply list_lookup_middle. }
  rewrite Hy. unfold strike, hit.
  assert (Hupd : forall f g : PlayerScore -> PlayerScore,
    alter g (S (length pre + length mid)) (alter f (length pre) (pre ++ x :: mid ++ y :: post))
    = pre ++ f x :: mid ++ g y :: post).
  { intros f g. rewrite alter_middle.
    replace (pre ++ f x :: mid ++ y :: post) with ((pre ++ f x :: mid) ++ y :: post)
      by (by rewrite <- app_assoc).
    replace (S (length pre + length mid)) with (length (pre ++ f x :: mid))
      by (rewrite length_app; simpl; lia).
    rewrite alter_middle. by rewrite <- app_assoc. }
  destruct (GameRules.compare (choice x) (choice y)); by rewrite ?Hupd.
Qed.

(** The inner loop from [j = i + 1 + length mid] to the end. *)
Lemma duels_middle (pre : list PlayerScore) (rest mid : list PlayerScore) (x : PlayerScore) :
  foldl (fun s j => duel (length pre) j s) (pre ++ x :: mid ++ rest)
        (seq (S (length pre + length mid)) (length rest))
  = pre ++ foldl strike x (choice <$> rest) :: mid ++ (hit (choice x) <$> rest).
Proof.
  revert mid x. induction rest as [|y rest IH]; intros mid x; [done|].
  cbn [length seq foldl fmap list_fmap].
  rewrite duel_middle.
  replace (pre ++ strike x (choice y) :: mid ++ hit (choice x) y :: rest)
    with (pre ++ strike x (choice y) :: (mid ++ [hit (choice x) y]) ++ rest)
    by (by rewrite <- app_assoc).
  replace (S (S (length pre + length mid)))
    with (S (length pre + length (mid ++ [hit (choice x) y])))
    by (rewrite length_app; simpl; lia).
  rewrite IH, choice_strike. by rewrite <- app_assoc.
Qed.

Lemma duelsFrom_middle (pre rest : list PlayerScore) (x : PlayerScore) :
  duelsFrom (length pre) (pre ++ x :: rest)
  = pre ++ foldl strike x (choice <$> rest) :: (hit (choice x) <$> rest).
Proof.
  unfold duelsFrom.
  replace (length (pre ++ x :: rest) - S (length pre))%nat with (length rest)
    by (rewrite length_app; simpl; lia).
  pose proof (duels_middle pre rest [] x) as H. simpl in H.
  by rewrite Nat.add_0_r in H.
Qed.

(** The outer loop from [i = length pre] to the end. *)
Lemma rounds_settle (post : list PlayerScore) (pre : list PlayerScore) (before : list Choice) :
  foldl (fun s i => duelsFrom i s) (pre ++ ((fun s => foldr hit s before) <$> post))
        (seq (length pre) (length post))
  = pre ++ settle before post.
Proof.
  revert pre before. induction post as [|x rest IH]; intros pre before; [done|].
  cbn [length seq foldl fmap list_fmap settle].
  rewrite duelsFrom_middle.
  assert (Hc : forall s, choice (foldr hit s before) = choice s).
  { intros s. induction before as [|c before IHb]; [done|]. simpl.
    by rewrite choice_hit. }
  rewrite Hc.
  replace (choice <$> ((fun s => foldr hit s before) <$> rest)) with (choice <$> rest).
  2:{ rewrite <- list_fmap_compose. apply list_fmap_ext. intros i s _. simpl. by rewrite Hc. }
  rewrite <- list_fmap_compose.
  set (X := foldl strike (foldr hit x before) (choice <$> rest)).
  replace (pre ++ X :: (hit (choice x) ∘ (fun s => foldr hit s before) <$> rest))
    with ((pre ++ [X]) ++ ((fun s => foldr hit s (choice x :: before)) <$> rest))
    by (by rewrite <- app_assoc).
  replace (S (length pre)) with (length (pre ++ [X])) by (rewrite length_app; simpl; lia).
  rewrite IH. by rewrite <- app_assoc.
Qed.

Lemma calculateScores_settle (choices : list (nat * Choice)) :
  calculateScores choices
  = settle [] ((fun pc => mkScore (fst pc) (snd pc) 0 0) <$> choices).
Proof.
  unfold calculateScores. cbn zeta.
  pose proof (rounds_settle ((fun pc => mkScore (fst pc) (snd pc) 0 0) <$> choices) [] []) as H.
  simpl in H. rewrite list_fmap_id in H. exact H.
Qed.

Lemma tally_app (r : DuelResult) (c : Choice) (l1 l2 : list Choice) :
  tally r c (l1 ++ l2) = tally r c l1 + tally r c l2.
Proof. induction l1 as [|d l1 IH]; simpl; [done | rewrite IH; lia]. Qed.

Lemma tally_Permutation (r : DuelResult) (c : Choice) (l1 l2 : list Choice) :
  l1 ≡ₚ l2 -> tally r c l1 = tally r c l2.
Proof. induction 1; simpl; lia. Qed.

Lemma tally_bounds (r : DuelResult) (c : Choice) (l : list Choice) :
  0 <= tally r c l <= Z.of_nat (length l).
Proof. induction l as [|d l IH]; simpl; [lia | case_decide; lia]. Qed.

(** An entry does not count against itself. *)
Lemma tally_bounds_self (r : DuelResult) (c : Choice) (l : list Choice) :
  r ≠ DRAW -> c ∈ l -> 0 <= tally r c l <= Z.of_nat (length l) - 1.
Proof.
  intros Hr [l1 [l2 ->]]%list_elem_of_split.
  rewrite tally_app, length_app. simpl.
  pose proof (tally_bounds r c l1). pose proof (tally_bounds r c l2).
  rewrite compare_same. case_decide; [congruence | lia].
Qed.

Lemma strike_fold (cs : list Choice) (x : PlayerScore) :
  foldl strike x cs
  = mkScore (player x) (choice x)
            (wins x + tally WIN (choice x) cs) (losses x + tally LOSE (choice x) cs).
Proof.
  revert x. induction cs as [|c cs IH]; intros x; simpl.
  - destruct x; simpl; f_equal; lia.
  - rewrite IH, choice_strike. unfold strike.
    destruct (GameRules.compare (choice x) c); simpl;
      repeat case_decide; try congruence; f_equal; lia.
Qed.

Lemma hit_fold (before : list Choice) (x : PlayerScore) :
  foldr hit x before
  = mkScore (player x) (choice x)
            (wins x + tally WIN (choice x) before)
            (losses x + tally LOSE (choice x) before).
Proof.
  induction before as [|c before IH]; simpl.
  - destruct x; simpl; f_equal; lia.
  - rewrite IH, hit_strike. unfold strike. cbn [choice].
    destruct (GameRules.compare (choice x) c);
      unfold addWin, addLoss; cbn [player choice wins losses];
      repeat case_decide; try congruence; f_equal; lia.
Qed.

Lemma settle_scoreAgainst (l : list (nat * Choice)) (before all : list Choice) :
  all = rev before ++ l.*2 ->
  settle before ((fun pc => mkScore (fst pc) (snd pc) 0 0) <$> l)
  = scoreAgainst all <$> l.
Proof.
  revert before. induction l as [|[p c] l IH]; intros before Hall; [done|].
  cbn [fmap list_fmap settle]. f_equal.
  - rewrite strike_fold, hit_fold. unfold scoreAgainst. simpl.
    rewrite Hall, !tally_app, (tally_Permutation _ _ (rev before) before)
      by (symmetry; apply Permutation_rev).
    rewrite (tally_Permutation _ _ (rev before) before)
      by (symmetry; apply Permutation_rev).
    cbn [fmap list_fmap tally snd]. rewrite compare_same.
    replace (choice <$> ((fun pc => mkScore (fst pc) (snd pc) 0 0) <$> l)) with (l.*2)
      by (rewrite <- list_fmap_compose; done).
    repeat case_decide; try congruence. f_equal; lia.
  - simpl. apply IH. rewrite Hall. simpl. by rewrite <- app_assoc.
Qed.

(** The nested loops of the evaluator give every entry the number of
    entries its choice beats and the number of entries that beat it. *)
Lemma calculateScores_closed (choices : list (nat * Choice)) :
  calculateScores choices = scoreAgainst (choices.*2) <$> choices.
Proof. rewrite calculateScores_settle. by apply settle_scoreAgainst. Qed.

Lemma total_fmap {A B : Type} (f : B -> Z) (g : A -> B) (l : list A) :
  total f (g <$> l) = total (fun x => f (g x)) l.
Proof. induction l as [|x l IH]; csimpl; [done | by rewrite IH]. Qed.

Lemma total_plus {A : Type} (f g : A -> Z) (l : list A) :
  total (fun x => f x + g x) l = total f l + total g l.
Proof. induction l as [|x l IH]; simpl; [done | rewrite IH; lia]. Qed.

Lemma total_zero {A : Type} (l : list A) : total (fun _ => 0) l = 0.
Proof. induction l as [|x l IH]; simpl; [done | by rewrite IH]. Qed.

(** The duels won by [x] against [ys] are the duels the [ys] lose to [x]. *)
Lemma tally_win_lose (x : Choice) (ys : list Choice) :
  tally WIN x ys
  = total (fun d => if decide (GameRules.compare d x = LOSE) then 1 else 0) ys.
Proof.
  induction ys as [|d ys IH]; simpl; [done|]. rewrite IH.
  pose proof (compare_lose_win d x). repeat case_decide; tauto || lia.
Qed.

(** Every won duel is a lost duel of the opponent: counting by winner or by
    loser gives the same number. *)
Lemma total_tally_swap (xs ys : list Choice) :
  total (fun c => tally WIN c ys) xs = total (fun d => tally LOSE d xs) ys.
Proof.
  induction xs as [|x xs IH]; simpl.
  - by rewrite total_zero.
  - rewrite IH, total_plus, tally_win_lose. done.
Qed.

(** C5.  In the score list of a round the wins of all entries add up to the
    same number as the losses of all entries. *)
Theorem calculateScores_wins_eq_losses (choices : list (nat * Choice)) :
  total wins (calculateScores choices) = total losses (calculateScores choices).
Proof.
  rewrite calculateScores_closed, !total_fmap. unfold scoreAgainst. simpl.
  rewrite <- (total_fmap (fun c => tally WIN c (choices.*2)) snd).
  rewrite <- (total_fmap (fun c => tally LOSE c (choices.*2)) snd).
  apply total_tally_swap.
Qed.

(** No counter of the evaluator leaves the range of [int]: an entry wins or
    loses at most once against each other entry. *)
Lemma calculateScores_int_range (choices : list (nat * Choice)) (s : PlayerScore) :
  Z.of_nat (length choices) <= 2 ^ 31 ->
  s ∈ calculateScores choices ->
  0 <= wins s <= Z.of_nat (length choices) - 1 /\
  0 <= losses s <= Z.of_nat (length choices) - 1 /\
  int_range (wins s) /\ int_range (losses s) /\ int_range (getNetScore s).
Proof.
  intros Hlen. rewrite calculateScores_closed.
  intros [[p c] [-> Hin]]%list_elem_of_fmap.
  assert (Hc : c ∈ choices.*2) by (apply list_elem_of_fmap; by exists (p, c)).
  pose proof (tally_bounds_self WIN c _ ltac:(done) Hc) as Hw.
  pose proof (tally_bounds_self LOSE c _ ltac:(done) Hc) as Hl.
  rewrite length_fmap in Hw, Hl.
  unfold int_range, getNetScore, scoreAgainst. simpl. lia.
Qed.

Lemma scoreAgainst_Permutation (all all' : list Choice) (pc : nat * Choice) :
  all ≡ₚ all' -> scoreAgainst all pc = scoreAgainst all' pc.
Proof.
  intros H. unfold scoreAgainst.
  by rewrite (tally_Permutation WIN _ _ _ H), (tally_Permutation LOSE _ _ _ H).
Qed.

Lemma calculateScores_Permutation (l l' : list (nat * Choice)) :
  l ≡ₚ l' -> calculateScores l ≡ₚ calculateScores l'.
Proof.
  intros H. rewrite !calculateScores_closed.
  assert (H2 : l.*2 ≡ₚ l'.*2) by (by apply fmap_Permutation).
  rewrite (list_fmap_ext (scoreAgainst (l.*2)) (scoreAgainst (l'.*2)) l).
  - by apply fmap_Permutation.
  - intros i pc _. by apply scoreAgainst_Permutation.
Qed.

Lemma players_calculateScores (l : list (nat * Choice)) :
  player <$> calculateScores l = l.*1.
Proof. rewrite calculateScores_closed, <- list_fmap_compose. done. Qed.

(** With one entry per player, [scoreOf] finds the entry of the player. *)
Lemma scoreOf_Some (scores : list PlayerScore) (p : nat) (v : Z * Z * Z) :
  NoDup (player <$> scores) ->
  scoreOf p scores = Some v <->
  exists s, s ∈ scores /\ player s = p /\ v = (wins s, losses s, getNetScore s).
Proof.
  induction scores as [|x scores IH]; simpl; intros Hnd.
  - split; [done | intros (s & Hs & _); by apply elem_of_nil in Hs].
  - apply NoDup_cons in Hnd as [Hx Hnd]. case_decide as Hp.
    + split.
      * intros [= <-]. exists x. split; [left | done].
      * intros (s & [->|Hs]%elem_of_cons & Hps & ->); [done|].
        exfalso. apply Hx. apply list_elem_of_fmap. exists s. split; [congruence | done].
    + rewrite (IH Hnd). split.
      * intros (s & Hs & Hps & Hv). exists s. split; [by right | done].
      * intros (s & [->|Hs]%elem_of_cons & Hps & Hv); [done|]. by exists s.
Qed.

Lemma scoreOf_Permutation (scores scores' : list PlayerScore) (p : nat) :
  NoDup (player <$> scores) -> scores ≡ₚ scores' ->
  scoreOf p scores = scoreOf p scores'.
Proof.
  intros Hnd Hperm.
  assert (Hnd' : NoDup (player <$> scores'))
    by (by rewrite <- (fmap_Permutation player _ _ Hperm)).
  assert (Himp : forall a b : list PlayerScore, NoDup (player <$> a) ->
            NoDup (player <$> b) -> a ≡ₚ b ->
            forall v, scoreOf p a = Some v -> scoreOf p b = Some v).
  { intros a b Ha Hb Hab v. rewrite !scoreOf_Some by done.
    intros (s & Hs & H). exists s. split; [by rewrite <- Hab | done]. }
  destruct (scoreOf p scores) as [v|] eqn:E.
  - symmetry. by apply (Himp scores scores').
  - destruct (scoreOf p scores') as [v|] eqn:E'; [|done].
    apply (Himp scores' scores) in E'; [congruence | done | done | done].
Qed.

(** C6.  Permuting the entries of a round permutes the score list and
    nothing else: the two score lists hold the same entries, and every player
    has the same wins, losses and net score in both. *)
Theorem calculateScores_order_independent (l l' : list (nat * Choice)) :
  l ≡ₚ l' ->
  calculateScores l ≡ₚ calculateScores l' /\
  (forall s, s ∈ calculateScores l <-> s ∈ calculateScores l') /\
  (NoDup (l.*1) ->
   forall p, scoreOf p (calculateScores l) = scoreOf p (calculateScores l')).
Proof.
  intros H. pose proof (calculateScores_Permutation l l' H) as Hp.
  split; [done|]. split.
  - intros s. by rewrite Hp.
  - intros Hnd p. apply scoreOf_Permutation; [|done].
    by rewrite players_calculateScores.
Qed.

(** C10.  For a single entry the least and the greatest net score coincide,
    so the result is a replay and the sole player is not eliminated. *)
Theorem determineLosers_single (s : PlayerScore) :
  netBounds s [s] = (getNetScore s, getNetScore s) /\
  determineLosers [s] = Ok [].
Proof.
  assert (H : netBounds s [s] = (getNetScore s, getNetScore s)).
  { unfold netBounds, boundsStep. simpl. by rewrite Z.ltb_irrefl. }
  split; [exact H|].
  unfold determineLosers. cbn [lookup list_lookup]. rewrite H.
  by rewrite Z.eqb_refl.
Qed.

(** C7.  In a group of two, distinct choices eliminate exactly one player,
    the one whose choice loses, and the other one stays; equal choices give a
    replay with no loser. *)
Theorem two_player_round (p1 p2 : nat) (c1 c2 : Choice) :
  let result := determineLosers (calculateScores [(p1, c1); (p2, c2)]) in
  (c1 = c2 -> result = Ok []) /\
  (c1 ≠ c2 ->
   exists loser survivor : nat,
     result = Ok [loser] /\
     ((GameRules.compare c1 c2 = WIN /\ survivor = p1 /\ loser = p2) \/
      (GameRules.compare c2 c1 = WIN /\ survivor = p2 /\ loser = p1)) /\
     (p1 ≠ p2 -> survivor ∉ [loser])).
Proof.
  cbn zeta. split.
  - intros <-. by destruct c1.
  - intros Hne.
    destruct (GameRules.compare c1 c2) eqn:E.
    + exists p2, p1. split; [|split].
      * destruct c1, c2; try discriminate E; reflexivity.
      * left. done.
      * intros Hp [->|[]%elem_of_nil]%elem_of_cons. done.
    + exists p1, p2. split; [|split].
      * destruct c1, c2; try discriminate E; reflexivity.
      * right. by apply compare_lose_win in E.
      * intros Hp [->|[]%elem_of_nil]%elem_of_cons. done.
    + by apply compare_draw_eq in E.
Qed.

Lemma determineLosers_defined (scores : list PlayerScore) :
  determineLosers scores = Undefined <-> scores = [].
Proof.
  destruct scores as [|first rest]; [done|].
  rewrite determineLosers_unfold. cbn zeta.
  by destruct (_ =? _).
Qed.

Lemma determineLosers_no_throw (scores : list PlayerScore) (what : string) :
  determineLosers scores ≠ Throw what.
Proof.
  destruct scores as [|first rest]; [done|].
  rewrite determineLosers_unfold. cbn zeta.
  by destruct (_ =? _).
Qed.

(** C9, as the code has it.  Nothing checks for an empty round: the
    evaluator returns an empty score list for it, and the elimination step
    then reads [scores[0]] of an empty vector, which is undefined behaviour.
    The step raises no exception on any input, so there is nothing for
    [main] to report; it is defined exactly on the non-empty lists.  A round
    of the controller over an empty list of players ends the same way. *)
Theorem empty_round_unchecked :
  calculateScores [] = [] /\
  determineLosers (calculateScores []) = Undefined /\
  (forall scores, determineLosers scores = Undefined <-> scores = []) /\
  (forall scores what, determineLosers scores ≠ Throw what) /\
  (forall (Env : Type)
          (choose : Env -> nat -> Player -> outcome Choice * list string * Env)
          (groupName : string) (g : Game Env),
     fst (executeRound choose [] groupName g) = Undefined) /\
  (forall (Env : Type)
          (choose : Env -> nat -> Player -> outcome Choice * list string * Env)
          (fuel : nat) (groupName : string) (g : Game Env),
     fst (playTogether choose (S fuel) [] g) = Undefined /\
     fst (playGroupRound choose (S fuel) [] groupName g) = Undefined).
Proof.
  split; [done|]. split; [done|].
  split; [apply determineLosers_defined|].
  split; [apply determineLosers_no_throw|].
  assert (Hround : forall (Env : Type)
            (choose : Env -> nat -> Player -> outcome Choice * list string * Env)
            (groupName : string) (g : Game Env),
            fst (executeRound choose [] groupName g) = Undefined).
  { intros Env choose groupName g. unfold executeRound, collectChoices, bind.
    by case_decide. }
  split; [exact Hround|]. intros Env choose fuel groupName g.
  split; cbn [playTogether playGroupRound]; unfold bind at 1.
  - specialize (Hround Env choose EmptyString g).
    by destruct (executeRound choose [] "" g) as [[losers|w| |] g']; simplify_eq/=.
  - specialize (Hround Env choose groupName g).
    by destruct (executeRound choose [] groupName g) as [[losers|w| |] g']; simplify_eq/=.
Qed.

(** C9 as stated fails: on the empty round-entry list the elimination step is
    undefined behaviour, not an exception that aborts the run with a
    report. *)
Lemma empty_round_not_reported :
  determineLosers (calculateScores []) = Undefined /\
  ~ (exists what, determineLosers (calculateScores []) = Throw what).
Proof. split; [done|]. intros [what H]. discriminate H. Qed.

(** ** Group partitioner *)

Lemma to_int_small (z : Z) : 0 <= z < 2 ^ 31 -> to_int z = z.
Proof. intros H. unfold to_int. rewrite Z.mod_small; lia. Qed.

(** The sizes computed by the code are those of the remainder policy. *)
Lemma groupSizes_policy (n : nat) :
  Z.to_nat <$> groupSizes (Z.of_nat n) = policySizes n.
Proof.
  unfold groupSizes, policySizes. cbn zeta.
  assert (Hq : Z.of_nat n ÷ 4 = Z.of_nat (n / 4)%nat).
  { rewrite Z.quot_div_nonneg by lia. change 4 with (Z.of_nat 4) at 1.
    by rewrite <- Nat2Z.inj_div. }
  assert (Hm : Z.rem (Z.of_nat n) 4 = Z.of_nat (n mod 4)%nat).
  { rewrite Z.rem_mod_nonneg by lia. change 4 with (Z.of_nat 4) at 1.
    by rewrite <- Nat2Z.inj_mod. }
  rewrite Hq, Hm.
  pose proof (Nat.mod_upper_bound n 4 ltac:(lia)) as Hr.
  generalize dependent (n / 4)%nat. intros q _.
  destruct (n mod 4)%nat as [|[|[|[|r]]]]; [| | | |lia];
    repeat match goal with
      | |- context [Z.of_nat ?k =? ?m] =>
          let b := eval vm_compute in (Z.of_nat k =? m) in
          change (Z.of_nat k =? m) with b
      end;
    cbv iota; rewrite ?fmap_app, ?fmap_replicate; cbn [fmap list_fmap];
    rewrite ?Nat2Z.id; try done.
  do 2 f_equal. lia.
Qed.

Lemma policySizes_range (n : nat) :
  Forall (fun k => 2 <= k <= 4)%nat (policySizes n).
Proof.
  unfold policySizes.
  destruct (n mod 4)%nat as [|[|[|r]]];
    repeat first [apply Forall_app_2 | apply Forall_replicate
                 | apply Forall_cons_2 | apply Forall_nil_2 | lia].
Qed.

Lemma policySizes_sum (n : nat) : (2 <= n)%nat -> sum_list (policySizes n) = n.
Proof.
  intros Hn. unfold policySizes.
  pose proof (Nat.div_mod_eq n 4) as Hdm.
  pose proof (Nat.mod_upper_bound n 4 ltac:(lia)) as Hr.
  generalize dependent (n / 4)%nat. intros q Hdm.
  destruct (n mod 4)%nat as [|[|[|[|r]]]] eqn:E; [| | | |lia];
    rewrite ?sum_list_with_app, ?sum_list_replicate; cbn [sum_list_with];
    unfold id; lia.
Qed.

Lemma makeGroups_drop {A : Type} (sizes : list Z) (idx : nat) (l : list A) :
  makeGroups idx sizes l = makeGroups 0 sizes (drop idx l).
Proof.
  revert idx l. induction sizes as [|size sizes IH]; intros idx l; [done|].
  cbn [makeGroups]. rewrite drop_0. f_equal.
  rewrite IH, (IH (0 + _)%nat). by rewrite drop_drop.
Qed.

(** Slicing by sizes that add up to the length of the list cuts the list
    into consecutive pieces of exactly these sizes. *)
Lemma makeGroups_exact {A : Type} (sizes : list Z) (l : list A) :
  sum_list (Z.to_nat <$> sizes) = length l ->
  concat (makeGroups 0 sizes l) = l /\
  length <$> makeGroups 0 sizes l = Z.to_nat <$> sizes.
Proof.
  revert l. induction sizes as [|size sizes IH]; intros l Hsum.
  - simpl in *. symmetry in Hsum. by apply nil_length_inv in Hsum as ->.
  - cbn [makeGroups]. rewrite drop_0, makeGroups_drop.
    csimpl in Hsum.
    assert (Hlen : length (take (Z.to_nat size) l) = Z.to_nat size)
      by (apply length_take_le; lia).
    rewrite Hlen. cbn [Nat.add].
    destruct (IH (drop (Z.to_nat size) l)) as [Hc Hl].
    { rewrite length_drop. lia. }
    csimpl. rewrite Hc, Hl, take_drop, Hlen. done.
Qed.

Lemma sliceGroups_spec {A : Type} (shuffled : list A) :
  (2 <= length shuffled)%nat -> Z.of_nat (length shuffled) < 2 ^ 31 ->
  concat (sliceGroups shuffled) = shuffled /\
  length <$> sliceGroups shuffled = policySizes (length shuffled).
Proof.
  intros Hn Hint. unfold sliceGroups. cbn zeta.
  rewrite to_int_small by lia.
  rewrite <- groupSizes_policy. apply makeGroups_exact.
  rewrite groupSizes_policy. by apply policySizes_sum.
Qed.

Lemma elem_of_concat {A : Type} (ls : list (list A)) (x : A) :
  x ∈ concat ls <-> exists l, l ∈ ls /\ x ∈ l.
Proof.
  induction ls as [|l0 ls IH]; simpl.
  - split; [by intros ?%elem_of_nil | by intros (l & ?%elem_of_nil & _)].
  - rewrite elem_of_app, IH. split.
    + intros [Hx|(l & Hl & Hx)]; [exists l0; split; [left | done]|].
      exists l. split; [by right | done].
    + intros (l & [->|Hl]%elem_of_cons & Hx); [by left|]. right. by exists l.
Qed.

(** In a list of lists without repetition an element lies in one list only. *)
Lemma concat_NoDup_unique {A : Type} (ls : list (list A)) (i j : nat)
    (a b : list A) (x : A) :
  NoDup (concat ls) -> ls !! i = Some a -> ls !! j = Some b ->
  x ∈ a -> x ∈ b -> i = j.
Proof.
  revert i j. induction ls as [|l ls IH]; intros i j Hnd Hi Hj Ha Hb; [done|].
  simpl in Hnd. apply NoDup_app in Hnd as (_ & Hdisj & Hnd).
  assert (Hin : forall k c, ls !! k = Some c -> x ∈ c -> x ∈ concat ls).
  { intros k c Hk Hc. apply elem_of_concat. exists c. split; [|done].
    by apply list_elem_of_lookup_2 in Hk. }
  destruct i as [|i], j as [|j]; simpl in *; simplify_eq; try done.
  - exfalso. eapply Hdisj; [exact Ha | by eapply Hin].
  - exfalso. eapply Hdisj; [exact Hb | by eapply Hin].
  - f_equal. by eapply IH.
Qed.

(** ** Tournament controller *)

Section ControllerFacts.

Context {Env : Type}.
Variable choose : Env -> nat -> Player -> outcome Choice * list string * Env.
Variable shuffle : Env -> list nat -> list nat * Env.
Variable pause : Env -> Env.

Global Instance advances_preorder : PreOrder (@advances Env).
Proof.
  split.
  - intros g. split; [done|]. intros i p Hp. exists p. by repeat split.
  - intros g1 g2 g3 [Hl12 H12] [Hl23 H23]. split; [congruence|].
    intros i p Hp.
    destruct (H12 i p Hp) as (p2 & Hp2 & Hn2 & Hh2 & Hc2 & Ha2).
    destruct (H23 i p2 Hp2) as (p3 & Hp3 & Hn3 & Hh3 & Hc3 & Ha3).
    exists p3. repeat split; [done|congruence|congruence| |auto].
    by etrans.
Qed.

Global Instance same_out_preorder : PreOrder (@same_out Env).
Proof. split; unfold same_out; [done | intros g1 g2 g3; congruence]. Qed.

Global Instance logs_preorder (P : Message -> Prop) : PreOrder (@logs Env P).
Proof.
  split.
  - intros g. exists []. by rewrite app_nil_r.
  - intros g1 g2 g3 (m1 & H1 & F1) (m2 & H2 & F2). exists (m1 ++ m2).
    split; [by rewrite H2, H1, <- app_assoc | by apply Forall_app_2].
Qed.

Lemma same_out_logs (P : Message -> Prop) (g g' : Game Env) :
  same_out g g' -> logs P g g'.
Proof. intros H. exists []. by rewrite app_nil_r. Qed.

Lemma advances_same_players (g g' : Game Env) :
  players_ g' = players_ g -> advances g g'.
Proof.
  intros H. split; [by rewrite H|]. intros i p Hp. exists p.
  rewrite H. by repeat split.
Qed.

Section Preserved.

Context (R : relation (Game Env)) `{!PreOrder R}.

Lemma preserves_ret {A : Type} (a : A) : preserves R (ret a).
Proof. intros g. simpl. reflexivity. Qed.

Lemma preserves_lift {A : Type} (r : outcome A) : preserves R (lift r).
Proof. intros g. simpl. reflexivity. Qed.

Lemma preserves_bind {A B : Type} (m : M Env A) (k : A -> M Env B) :
  preserves R m -> (forall a, preserves R (k a)) -> preserves R (bind m k).
Proof.
  intros Hm Hk g. unfold bind. specialize (Hm g).
  destruct (m g) as [[a|w| |] g']; simpl in *; [|done..].
  etrans; [exact Hm | apply Hk].
Qed.

End Preserved.

(** [m] keeps the relation by lemma [lem]; go on with what follows it. *)
Ltac after lem := apply preserves_bind; [apply _ | lem | intros ?].
Ltac finish := first [apply preserves_ret; apply _ | apply preserves_lift; apply _].

Lemma deref_state (p : nat) (g : Game Env) : snd (deref p g) = g.
Proof. unfold deref. by destruct (players_ g !! p). Qed.

Lemma preserves_deref (R : relation (Game Env)) `{!PreOrder R} (p : nat) :
  preserves R (deref p).
Proof. intros g. rewrite deref_state. reflexivity. Qed.

(** The printing code whose lines are not kept only reads the state. *)
Lemma reads_bind {A B : Type} (m : M Env A) (k : A -> M Env B) :
  (forall g, snd (m g) = g) -> (forall a g, snd (k a g) = g) ->
  forall g, snd (bind m k g) = g.
Proof.
  intros Hm Hk g. unfold bind. specialize (Hm g).
  destruct (m g) as [[a|w| |] g']; simpl in *; subst; [apply Hk|done..].
Qed.

Lemma getNames_state (ps : list nat) (g : Game Env) : snd (getNames ps g) = g.
Proof.
  revert g. induction ps as [|p rest IH]; [done|]. simpl.
  apply reads_bind; [apply deref_state|]. intros pl.
  apply reads_bind; [exact IH | done].
Qed.

Lemma comparisonsWith_state (player1 : nat) (choice1 : Choice)
    (later : list (nat * Choice)) (g : Game Env) :
  snd (comparisonsWith player1 choice1 later g) = g.
Proof.
  revert g. induction later as [|[player2 choice2] rest IH]; [done|].
  cbn [comparisonsWith].
  apply reads_bind; [apply getNames_state|]. intros _.
  apply reads_bind; [done | intros _; exact IH].
Qed.

Lemma allComparisons_state (choices : list (nat * Choice)) (g : Game Env) :
  snd (allComparisons choices g) = g.
Proof.
  revert g. induction choices as [|[player1 choice1] rest IH]; [done|].
  cbn [allComparisons].
  apply reads_bind; [apply comparisonsWith_state | intros _; exact IH].
Qed.

Lemma printScoreTable_state (scores : list PlayerScore) (groupName : string)
    (g : Game Env) :
  snd (printScoreTable scores groupName g) = g.
Proof. revert g. apply reads_bind; [apply getNames_state | done]. Qed.

(** What follows [printChoices] in [executeRound]: the comparisons, the
    table, the elimination step and its announcements. *)
Lemma evaluation_state (choices : list (nat * Choice)) (groupName : string)
    (g : Game Env) :
  snd (bind (printAllComparisons choices groupName) (fun _ =>
       bind (printScoreTable (calculateScores choices) groupName) (fun _ =>
       bind (lift (determineLosers (calculateScores choices))) (fun losers =>
       bind (getNames losers) (fun _ =>
       ret losers)))) g) = g.
Proof.
  revert g. apply reads_bind; [apply allComparisons_state|]. intros _.
  apply reads_bind; [apply printScoreTable_state|]. intros _.
  apply reads_bind; [done|]. intros losers.
  apply reads_bind; [apply getNames_state | done].
Qed.

Lemma preserves_reads (R : relation (Game Env)) `{!PreOrder R} {A : Type}
    (m : M Env A) :
  (forall g, snd (m g) = g) -> preserves R m.
Proof. intros H g. rewrite H. reflexivity. Qed.

Lemma makeChoice_advances (p : nat) : preserves advances (makeChoice choose p).
Proof.
  intros g. unfold makeChoice.
  destruct (players_ g !! p) as [pl|] eqn:Hp; [|reflexivity].
  destruct (choose (env g) p pl) as [[r written] e].
  destruct r as [c|w| |]; try (by apply advances_same_players).
  unfold advances. simpl.
  split; [by rewrite length_insert|].
  intros i q Hq. destruct (decide (i = p)) as [->|Hne].
  - exists (recordChoice c pl). rewrite list_lookup_insert_eq
      by (by eapply lookup_lt_Some).
    assert (q = pl) as -> by congruence.
    repeat split; [by apply prefix_app_r|done].
  - exists q. rewrite list_lookup_insert_ne by done. by repeat split.
Qed.

(** A call of [makeChoice] adds to the output the texts the player writes. *)
Lemma makeChoice_logs (P : Message -> Prop) (p : nat) :
  (forall text, P (MsgText text)) -> preserves (logs P) (makeChoice choose p).
Proof.
  intros HP g. unfold makeChoice.
  destruct (players_ g !! p) as [pl|]; [|reflexivity].
  destruct (choose (env g) p pl) as [[r written] e]. simpl.
  exists (MsgText <$> written). split; [done|].
  apply Forall_fmap, Forall_forall. intros text _. apply HP.
Qed.

(** Eliminating a player: the only place where a flag changes, and it is set
    to [false]. *)
Lemma eliminate_advances (p : nat) : preserves advances (setActiveAt (Env:=Env) false p).
Proof.
  intros g. unfold setActiveAt.
  destruct (players_ g !! p) as [pl|] eqn:Hp; [|reflexivity].
  unfold advances. simpl.
  split; [by rewrite length_insert|].
  intros i q Hq. destruct (decide (i = p)) as [->|Hne].
  - exists (setActive false pl). rewrite list_lookup_insert_eq
      by (by eapply lookup_lt_Some).
    assert (q = pl) as -> by congruence. by repeat split.
  - exists q. rewrite list_lookup_insert_ne by done. by repeat split.
Qed.

Lemma setActiveAt_same_out (active : bool) (p : nat) :
  preserves same_out (setActiveAt (Env:=Env) active p).
Proof. intros g. unfold setActiveAt. by destruct (players_ g !! p). Qed.

Lemma print_advances (m : Message) : preserves advances (print (Env:=Env) m).
Proof. intros g. by apply advances_same_players. Qed.

Lemma print_logs (P : Message -> Prop) (m : Message) :
  P m -> preserves (logs P) (print (Env:=Env) m).
Proof. intros HP g. exists [m]. split; [done | by constructor]. Qed.

Lemma collectFrom_advances (human : bool) (players : list nat) :
  preserves advances (collectFrom choose human players).
Proof.
  induction players as [|p rest IH]; simpl; [finish|].
  after ltac:(apply preserves_deref; apply _).
  case_bool_decide; [|done].
  after ltac:(apply makeChoice_advances).
  after ltac:(done).
  finish.
Qed.

Lemma collectFrom_logs (P : Message -> Prop) (human : bool) (players : list nat) :
  (forall text, P (MsgText text)) ->
  preserves (logs P) (collectFrom choose human players).
Proof.
  intros HP. induction players as [|p rest IH]; simpl; [finish|].
  after ltac:(apply preserves_deref; apply _).
  case_bool_decide; [|done].
  after ltac:(by apply makeChoice_logs).
  after ltac:(done).
  finish.
Qed.

(** The banner of [collectChoices]: written for a named group only. *)
Lemma banner_state (groupName : string) (g : Game Env) :
  (if decide (groupName = EmptyString) then ret tt
   else print (MsgChoosing groupName)) g
  = (Ok tt, mkGame (players_ g) (roundNumber_ g) (env g) (out g ++ banner groupName)).
Proof.
  unfold banner. case_decide; [|done].
  unfold ret. rewrite app_nil_r. by destruct g.
Qed.

Lemma collectChoices_advances (players : list nat) (groupName : string) :
  preserves advances (collectChoices choose players groupName).
Proof.
  unfold collectChoices.
  after ltac:(case_decide; [finish | apply print_advances]).
  after ltac:(apply collectFrom_advances).
  after ltac:(apply collectFrom_advances).
  finish.
Qed.

Lemma collectChoices_logs (P : Message -> Prop) (players : list nat)
    (groupName : string) :
  (forall text, P (MsgText text)) ->
  (groupName ≠ EmptyString -> P (MsgChoosing groupName)) ->
  preserves (logs P) (collectChoices choose players groupName).
Proof.
  intros HP Hbanner. unfold collectChoices.
  after ltac:(case_decide; [finish | apply print_logs; auto]).
  after ltac:(by apply collectFrom_logs).
  after ltac:(by apply collectFrom_logs).
  finish.
Qed.

Lemma printChoiceLines_advances (choices : list (nat * Choice)) :
  preserves advances (printChoiceLines (Env:=Env) choices).
Proof.
  induction choices as [|[p c] rest IH]; simpl; [finish|].
  after ltac:(apply preserves_deref; apply _).
  after ltac:(apply preserves_lift; apply _).
  after ltac:(apply print_advances).
  exact IH.
Qed.

Lemma printChoiceLines_logs (P : Message -> Prop) (choices : list (nat * Choice)) :
  (forall line, P (MsgEntry line)) ->
  preserves (logs P) (printChoiceLines (Env:=Env) choices).
Proof.
  intros HP. induction choices as [|[p c] rest IH]; simpl; [finish|].
  after ltac:(apply preserves_deref; apply _).
  after ltac:(apply preserves_lift; apply _).
  after ltac:(apply print_logs; auto).
  exact IH.
Qed.

Lemma printChoices_advances (choices : list (nat * Choice)) (groupName : string) :
  preserves advances (printChoices (Env:=Env) choices groupName).
Proof.
  unfold printChoices.
  after ltac:(apply print_advances).
  apply printChoiceLines_advances.
Qed.

Lemma printChoices_logs (P : Message -> Prop) (choices : list (nat * Choice))
    (groupName : string) :
  (forall line, P (MsgEntry line)) -> P (MsgChoices groupName choices) ->
  preserves (logs P) (printChoices (Env:=Env) choices groupName).
Proof.
  intros HP Hblock. unfold printChoices.
  after ltac:(by apply print_logs).
  by apply printChoiceLines_logs.
Qed.

Lemma executeRound_advances (players : list nat) (groupName : string) :
  preserves advances (executeRound choose players groupName).
Proof.
  unfold executeRound. cbv zeta.
  after ltac:(apply collectChoices_advances).
  after ltac:(apply printChoices_advances).
  apply preserves_reads; [apply _|]. apply evaluation_state.
Qed.

Lemma deactivate_advances (losers : list nat) :
  preserves advances (deactivate (Env:=Env) losers).
Proof.
  induction losers as [|loser rest IH]; simpl; [finish|].
  apply preserves_bind; [apply _ | apply eliminate_advances | done].
Qed.

Lemma deactivate_same_out (losers : list nat) :
  preserves same_out (deactivate (Env:=Env) losers).
Proof.
  induction losers as [|loser rest IH]; simpl; [finish|].
  apply preserves_bind; [apply _ | apply setActiveAt_same_out | done].
Qed.

Lemma keepActive_advances (group : list nat) :
  preserves advances (keepActive (Env:=Env) group).
Proof.
  induction group as [|p rest IH]; simpl; [finish|].
  after ltac:(apply preserves_deref; apply _).
  after ltac:(done).
  finish.
Qed.

Lemma keepActive_same_out (group : list nat) :
  preserves same_out (keepActive (Env:=Env) group).
Proof.
  induction group as [|p rest IH]; simpl; [finish|].
  after ltac:(apply preserves_deref; apply _).
  after ltac:(done).
  finish.
Qed.

Lemma playGroupRound_advances (fuel : nat) (group : list nat) (groupName : string) :
  preserves advances (playGroupRound choose fuel group groupName).
Proof.
  induction fuel as [|fuel IH]; simpl; [finish|].
  apply preserves_bind; [apply _ | apply executeRound_advances |].
  intros [|loser losers]; [done|].
  after ltac:(apply deactivate_advances).
  apply keepActive_advances.
Qed.

Lemma playGroups_advances (fuel i : nat) (groups : list (list nat)) :
  preserves advances (playGroups choose fuel i groups).
Proof.
  revert i. induction groups as [|group rest IH]; intros i; simpl;
    [finish|].
  after ltac:(apply playGroupRound_advances).
  apply IH.
Qed.

Lemma playTogether_advances (fuel : nat) (activePlayers : list nat) :
  preserves advances (playTogether choose fuel activePlayers).
Proof.
  induction fuel as [|fuel IH]; simpl; [finish|].
  apply preserves_bind; [apply _ | apply executeRound_advances |].
  intros [|loser losers]; [done|]. apply deactivate_advances.
Qed.

Lemma divideIntoGroups_advances (players : list nat) :
  preserves advances (divideIntoGroups shuffle players).
Proof.
  intros g. unfold divideIntoGroups. destruct (shuffle (env g) players).
  by apply advances_same_players.
Qed.

Lemma playRound_advances (fuel : nat) (activePlayers : list nat) :
  preserves advances (playRound choose shuffle fuel activePlayers).
Proof.
  unfold playRound. case_decide; [|apply playTogether_advances].
  after ltac:(apply divideIntoGroups_advances).
  after ltac:(apply print_advances).
  after ltac:(apply preserves_reads; [apply _ | apply getNames_state]).
  apply playGroups_advances.
Qed.

Lemma run_advances (fuel : nat) : preserves advances (run choose shuffle pause fuel).
Proof.
  induction fuel as [|fuel IH]; simpl; [finish|].
  assert (Hget : preserves advances (getActivePlayers (Env:=Env)))
    by (intros g; reflexivity).
  after ltac:(done).
  case_decide.
  - apply preserves_bind; [apply _ | |].
    { intros g. by apply advances_same_players. }
    intros _. after ltac:(done).
    after ltac:(apply playRound_advances).
    after ltac:(done).
    after ltac:(case_decide; [intros g; by apply advances_same_players | finish]).
    done.
  - after ltac:(done).
    after ltac:(apply preserves_reads; [apply _ | apply getNames_state]).
    apply preserves_ret; apply _.
Qed.

Lemma ctrl_step_advances (g g' : Game Env) :
  ctrl_step choose shuffle pause g g' -> advances g g'.
Proof.
  destruct 1.
  - apply run_advances.
  - apply playRound_advances.
  - apply playGroupRound_advances.
  - apply executeRound_advances.
  - apply makeChoice_advances.
  - apply eliminate_advances.
  - apply divideIntoGroups_advances.
  - by apply advances_same_players.
  - by apply advances_same_players.
  - apply print_advances.
Qed.

Lemma humanAt_advances (g g' : Game Env) (q : nat) :
  advances g g' -> humanAt g' q = humanAt g q.
Proof.
  intros [Hlen H]. unfold humanAt.
  destruct (players_ g !! q) as [p|] eqn:Hq.
  - destruct (H q p Hq) as (p' & -> & _ & Hh & _). simpl. by rewrite Hh.
  - apply lookup_ge_None in Hq. rewrite <- Hlen in Hq.
    apply lookup_ge_None in Hq. by rewrite Hq.
Qed.

(** One loop of [collectChoices] returns an entry for each player of the
    requested kind, in the order of the list. *)
Lemma collectFrom_value (human : bool) (players : list nat) (g g' : Game Env)
    (cs : list (nat * Choice)) :
  collectFrom choose human players g = (Ok cs, g') ->
  cs.*1 = filter (fun p => humanAt g p = Some human) players /\
  Forall (fun p => is_Some (humanAt g p)) players.
Proof.
  revert g cs. induction players as [|p rest IH]; intros g cs; simpl.
  - intros [= <- <-]. done.
  - unfold bind at 1. unfold deref.
    destruct (players_ g !! p) as [pl|] eqn:Hp; [|done].
    assert (Hh : humanAt g p = Some (isHuman pl)) by (unfold humanAt; by rewrite Hp).
    case_bool_decide as Hk.
    + unfold bind at 1.
      pose proof (makeChoice_advances p g) as Hadv.
      destruct (makeChoice choose p g) as [[c| | |] g1] eqn:Hmc; [|done..].
      simpl in Hadv.
      unfold bind at 1.
      destruct (collectFrom choose human rest g1) as [[cs'| | |] g2] eqn:Hrest; [|done..].
      intros [= <- <-]. destruct (IH _ _ Hrest) as [Hcs Hall].
      split.
      * rewrite filter_cons_True by (by rewrite Hh, Hk). csimpl. f_equal.
        rewrite Hcs. apply list_filter_iff. intros q.
        by rewrite (humanAt_advances g g1).
      * constructor; [by rewrite Hh|].
        eapply Forall_impl; [exact Hall|]. intros q. simpl.
        by rewrite (humanAt_advances g g1).
    + intros Hrest. destruct (IH _ _ Hrest) as [Hcs Hall]. split.
      * rewrite filter_cons_False by (rewrite Hh; congruence). done.
      * constructor; [by rewrite Hh | done].
Qed.

Lemma split_humans (f : nat -> option bool) (l : list nat) :
  Forall (fun p => is_Some (f p)) l ->
  filter (fun p => f p = Some false) l ++ filter (fun p => f p = Some true) l ≡ₚ l.
Proof.
  induction 1 as [|p l [b Hb] _ IH]; [done|].
  destruct b.
  - rewrite filter_cons_False, filter_cons_True by congruence.
    by rewrite <- Permutation_middle, IH.
  - rewrite filter_cons_True, filter_cons_False by congruence.
    simpl. by rewrite IH.
Qed.

(** [collectChoices] returns one entry per player of the round. *)
Lemma collectChoices_value (players : list nat) (groupName : string)
    (g g' : Game Env) (cs : list (nat * Choice)) :
  collectChoices choose players groupName g = (Ok cs, g') -> cs.*1 ≡ₚ players.
Proof.
  unfold collectChoices. unfold bind at 1. rewrite banner_state.
  set (g0 := mkGame _ _ _ _). unfold bind at 1.
  pose proof (collectFrom_advances true players g0) as Hadv.
  destruct (collectFrom choose true players g0) as [[hs| | |] g1] eqn:Hfirst; [|done..].
  simpl in Hadv. unfold bind at 1.
  destruct (collectFrom choose false players g1) as [[cs2| | |] g2] eqn:Hsecond; [|done..].
  intros [= <- <-].
  destruct (collectFrom_value _ _ _ _ _ Hfirst) as [Hhs Hall].
  destruct (collectFrom_value _ _ _ _ _ Hsecond) as [Hcs2 _].
  rewrite fmap_app, Hhs, Hcs2.
  rewrite (list_filter_iff _ (fun p => humanAt g0 p = Some false)).
  - by apply split_humans.
  - intros q. by rewrite (humanAt_advances g0 g1).
Qed.

(** What a call of [executeRound] writes: the banner of its group, texts,
    and a block of choices with an entry for each of its players. *)
Lemma executeRound_logs (P : Message -> Prop) (players : list nat)
    (groupName : string) :
  (forall text, P (MsgText text)) -> (forall line, P (MsgEntry line)) ->
  (groupName ≠ EmptyString -> P (MsgChoosing groupName)) ->
  (forall choices, choices.*1 ≡ₚ players -> P (MsgChoices groupName choices)) ->
  preserves (logs P) (executeRound choose players groupName).
Proof.
  intros HP Hentry Hbanner Hblock g. unfold executeRound. unfold bind at 1.
  pose proof (collectChoices_logs P players groupName HP Hbanner g) as Hout.
  destruct (collectChoices choose players groupName g) as [[cs| | |] g1] eqn:Hcs;
    simpl in Hout; [|done..].
  apply collectChoices_value in Hcs.
  etrans; [exact Hout|].
  etrans; [apply (printChoices_logs P cs groupName); auto|].
  unfold bind at 1.
  destruct (printChoices cs groupName g1) as [[[]| | |] g2]; simpl; [|done..].
  rewrite evaluation_state. reflexivity.
Qed.

Lemma wholeRound_round (players : list nat) :
  preserves (logs (wholeRound players)) (executeRound choose players "").
Proof. by apply executeRound_logs. Qed.

Lemma playTogether_logs (fuel : nat) (activePlayers : list nat) :
  preserves (logs (wholeRound activePlayers)) (playTogether choose fuel activePlayers).
Proof.
  induction fuel as [|fuel IH]; simpl; [finish|].
  apply preserves_bind; [apply _ | apply wholeRound_round |].
  intros [|loser losers]; [done|].
  intros g. apply same_out_logs, deactivate_same_out.
Qed.

Lemma groupNameOf_neq (i : nat) : groupNameOf i ≠ EmptyString.
Proof. done. Qed.

(** The rounds of the group at index [k] of [groups]. *)
Lemma playGroupRound_logs (fuel i k : nat) (groups : list (list nat))
    (group : list nat) :
  groups !! k = Some group ->
  preserves (logs (groupRound i groups))
    (playGroupRound choose fuel group (groupNameOf (i + k))).
Proof.
  intros Hk. induction fuel as [|fuel IH]; simpl; [finish|].
  apply preserves_bind; [apply _ | |].
  { apply executeRound_logs; [done | done | | ].
    - intros _. by exists k, group.
    - intros choices Hperm. by exists k, group. }
  intros [|loser losers]; [done|].
  after ltac:(intros g; apply same_out_logs, deactivate_same_out).
  intros g. apply same_out_logs, keepActive_same_out.
Qed.

Lemma groupRound_shift (i : nat) (group : list nat) (rest : list (list nat))
    (m : Message) :
  groupRound (S i) rest m -> groupRound i (group :: rest) m.
Proof.
  destruct m as [name|text|name choices|line|n gs]; simpl; [|done| |done|done].
  - intros (k & grp & Hk & ->). exists (S k), grp. split; [done|].
    f_equal. lia.
  - intros (k & grp & Hk & -> & Hperm). exists (S k), grp. split; [done|].
    split; [f_equal; lia | done].
Qed.

Lemma playGroups_logs (fuel i : nat) (groups : list (list nat)) :
  preserves (logs (groupRound i groups)) (playGroups choose fuel i groups).
Proof.
  revert i. induction groups as [|group rest IH]; intros i; [simpl; finish|].
  cbn [playGroups]. cbv zeta.
  apply preserves_bind; [apply _ | |].
  - pose proof (playGroupRound_logs fuel i 0 (group :: rest) group eq_refl) as H.
    by rewrite Nat.add_0_r in H.
  - intros _ g. destruct (IH (S i) g) as (msgs & Hout & Hall).
    exists msgs. split; [done|].
    eapply Forall_impl; [exact Hall|]. apply groupRound_shift.
Qed.

End ControllerFacts.

(** C3.  For 6 to 40 active players the partitioner returns groups of 2 to 4
    players whose sizes add up to the number of players and follow the
    remainder policy; the groups, put end to end, are a rearrangement of the
    players, so that every player is in one group and in one only.  These
    are the groups [playRound] plays: it announces them and plays the rounds
    of each group, so that every banner and every block of choices it writes
    is that of one of the groups.  With at most 5 players [playRound] forms
    no groups: it is the loop that runs a round over all the players, again
    after a draw, and every block of choices it writes has an entry for each
    of them. *)
Theorem partition_policy {Env : Type}
    (choose : Env -> nat -> Player -> outcome Choice * list string * Env)
    (shuffle : Env -> list nat -> list nat * Env) :
  (forall e l, fst (shuffle e l) ≡ₚ l) ->
  forall (players : list nat) (g : Game Env),
    ((6 <= length players <= 40)%nat ->
     exists groups g',
       divideIntoGroups shuffle players g = (Ok groups, g') /\
       Forall (fun group => 2 <= length group <= 4)%nat groups /\
       sum_list (length <$> groups) = length players /\
       length <$> groups = policySizes (length players) /\
       concat groups ≡ₚ players /\
       (NoDup players ->
        forall p, p ∈ players ->
          exists i group, groups !! i = Some group /\ p ∈ group /\
            forall j group', groups !! j = Some group' -> p ∈ group' -> j = i) /\
       forall fuel,
         playRound choose shuffle fuel players g
         = bind (print (MsgGroups (length players) groups)) (fun _ =>
           bind (getNames (concat groups)) (fun _ =>
           playGroups choose fuel 0 groups)) g' /\
         exists msgs,
           out (snd (playRound choose shuffle fuel players g))
           = out g ++ MsgGroups (length players) groups :: msgs /\
           Forall (groupRound 0 groups) msgs) /\
    ((length players <= 5)%nat ->
     playRound choose shuffle 0 players g = (OutOfFuel, g) /\
     forall fuel,
       playRound choose shuffle (S fuel) players g
       = bind (executeRound choose players "")
           (fun losers =>
              match losers with
              | [] => playRound choose shuffle fuel players
              | _ :: _ => deactivate losers
              end) g /\
       logs (wholeRound players) g (snd (playRound choose shuffle fuel players g))).
Proof.
  intros Hshuffle players g. split.
  - intros Hn.
    assert (Hdiv : exists shuffled e, shuffle (env g) players = (shuffled, e) /\
              divideIntoGroups shuffle players g
              = (Ok (sliceGroups shuffled),
                 mkGame (players_ g) (roundNumber_ g) e (out g))).
    { unfold divideIntoGroups. destruct (shuffle (env g) players) as [shuffled e].
      by exists shuffled, e. }
    destruct Hdiv as (shuffled & e & Hsh & Hdiv).
    specialize (Hshuffle (env g) players). rewrite Hsh in Hshuffle.
    simpl in Hshuffle.
    assert (Hlen : length shuffled = length players) by (by rewrite Hshuffle).
    destruct (sliceGroups_spec shuffled) as [Hcat Hsizes]; [lia..|].
    rewrite Hlen in Hsizes.
    eexists _, _. split; [exact Hdiv|].
    split; [|split; [|split; [|split; [|split]]]].
    + pose proof (policySizes_range (length players)) as Hr.
      rewrite <- Hsizes in Hr. by apply Forall_fmap in Hr.
    + rewrite Hsizes. apply policySizes_sum. lia.
    + done.
    + by rewrite Hcat.
    + intros Hnd p Hp.
      assert (Hin : p ∈ concat (sliceGroups shuffled)) by (by rewrite Hcat, Hshuffle).
      apply elem_of_concat in Hin as (group & [i Hi]%list_elem_of_lookup & Hpg).
      exists i, group. split; [done|]. split; [done|].
      intros j group' Hj Hpg'.
      eapply (concat_NoDup_unique (sliceGroups shuffled)); [|done..].
      by rewrite Hcat, Hshuffle.
    + intros fuel.
      assert (Heq : playRound choose shuffle fuel players g
                = bind (print (MsgGroups (length players) (sliceGroups shuffled)))
                    (fun _ =>
                     bind (getNames (concat (sliceGroups shuffled))) (fun _ =>
                     playGroups choose fuel 0 (sliceGroups shuffled)))
                    (mkGame (players_ g) (roundNumber_ g) e (out g))).
      { unfold playRound. rewrite decide_True by lia.
        unfold bind at 1. by rewrite Hdiv. }
      split; [exact Heq|]. rewrite Heq. unfold bind at 1, print. cbn [fst snd].
      set (g2 := mkGame _ _ _ _).
      assert (Hlogs : preserves (Env:=Env) (logs (groupRound 0 (sliceGroups shuffled)))
                (bind (getNames (concat (sliceGroups shuffled))) (fun _ =>
                 playGroups choose fuel 0 (sliceGroups shuffled)))).
      { apply preserves_bind; [apply _ | |intros _; apply playGroups_logs].
        apply preserves_reads; [apply _ | apply getNames_state]. }
      destruct (Hlogs g2) as (msgs & Hout & Hall).
      exists msgs. split; [|done].
      rewrite Hout. unfold g2. simpl. by rewrite <- app_assoc.
  - intros Hn. split.
    + unfold playRound. by rewrite decide_False by lia.
    + intros fuel. split.
      * unfold playRound. destruct (decide (5 < length players)%nat); [lia|]. done.
      * unfold playRound. case_decide; [lia|]. apply playTogether_logs.
Qed.

Lemma partition_policy_witness :
  (forall e l, fst (reverseShuffle e l) ≡ₚ l) /\
  (exists groups g',
      divideIntoGroups reverseShuffle (seq 0 7)
        (startGame 0%nat (replicate 7 (newPlayer "bot" false))) = (Ok groups, g') /\
      Forall (fun group => 2 <= length group <= 4)%nat groups /\
      sum_list (length <$> groups) = 7%nat /\
      length <$> groups = [4; 3]%nat /\
      concat groups ≡ₚ seq 0 7 /\
      (NoDup (seq 0 7) ->
       forall p, p ∈ seq 0 7 ->
         exists i group, groups !! i = Some group /\ p ∈ group /\
           forall j group', groups !! j = Some group' -> p ∈ group' -> j = i) /\
      forall fuel,
        playRound (silent cyclicChoose) reverseShuffle fuel (seq 0 7)
          (startGame 0%nat (replicate 7 (newPlayer "bot" false)))
        = bind (print (MsgGroups 7 groups)) (fun _ =>
          bind (getNames (concat groups)) (fun _ =>
          playGroups (silent cyclicChoose) fuel 0 groups)) g' /\
        exists msgs,
          out (snd (playRound (silent cyclicChoose) reverseShuffle fuel (seq 0 7)
                      (startGame 0%nat (replicate 7 (newPlayer "bot" false)))))
          = [] ++ MsgGroups 7 groups :: msgs /\
          Forall (groupRound 0 groups) msgs) /\
  (playRound (silent cyclicChoose) reverseShuffle 0 (seq 0 3)
     (startGame 0%nat (replicate 3 (newPlayer "bot" false)))
   = (OutOfFuel, startGame 0%nat (replicate 3 (newPlayer "bot" false))) /\
   forall fuel,
     playRound (silent cyclicChoose) reverseShuffle (S fuel) (seq 0 3)
       (startGame 0%nat (replicate 3 (newPlayer "bot" false)))
     = bind (executeRound (silent cyclicChoose) (seq 0 3) "")
         (fun losers =>
            match losers with
            | [] => playRound (silent cyclicChoose) reverseShuffle fuel (seq 0 3)
            | _ :: _ => deactivate losers
            end) (startGame 0%nat (replicate 3 (newPlayer "bot" false))) /\
     logs (wholeRound (seq 0 3))
       (startGame 0%nat (replicate 3 (newPlayer "bot" false)))
       (snd (playRound (silent cyclicChoose) reverseShuffle fuel (seq 0 3)
               (startGame 0%nat (replicate 3 (newPlayer "bot" false)))))).
Proof.
  assert (Hperm : forall e l, fst (reverseShuffle e l) ≡ₚ l).
  { intros e l. simpl. symmetry. apply Permutation_rev. }
  split; [exact Hperm|]. split.
  - refine (proj1 (partition_policy (silent cyclicChoose) reverseShuffle Hperm (seq 0 7)
             (startGame 0%nat (replicate 7 (newPlayer "bot" false)))) _).
    simpl. lia.
  - refine (proj2 (partition_policy (silent cyclicChoose) reverseShuffle Hperm (seq 0 3)
             (startGame 0%nat (replicate 3 (newPlayer "bot" false)))) _).
    simpl. lia.
Defined.

(** C8.  Along any sequence of steps of the tournament controller a player
    whose active flag is false keeps a false flag: no step sets it back to
    true. *)
Theorem inactive_stays_inactive {Env : Type}
    (choose : Env -> nat -> Player -> outcome Choice * list string * Env)
    (shuffle : Env -> list nat -> list nat * Env) (pause : Env -> Env)
    (g g' : Game Env) (i : nat) (p : Player) :
  rtc (ctrl_step choose shuffle pause) g g' ->
  players_ g !! i = Some p -> isActive_ p = false ->
  exists p', players_ g' !! i = Some p' /\ isActive_ p' = false.
Proof.
  intros Hsteps.
  assert (Hadv : advances g g').
  { induction Hsteps as [|g1 g2 g3 Hstep _ IH]; [reflexivity|].
    etrans; [|exact IH]. by eapply ctrl_step_advances. }
  intros Hp Hout. destruct Hadv as [_ Hadv].
  destruct (Hadv i p Hp) as (p' & Hp' & _ & _ & _ & Hact).
  exists p'. auto.
Qed.

Lemma inactive_stays_inactive_witness :
  let roster := [newPlayer "A" false; setActive false (newPlayer "B" false);
                 newPlayer "C" false] in
  let g := startGame 0%nat roster in
  let g' := snd (run (silent cyclicChoose) reverseShuffle id 5 g) in
  rtc (ctrl_step (silent cyclicChoose) reverseShuffle id) g g' /\
  players_ g !! 1%nat = Some (setActive false (newPlayer "B" false)) /\
  isActive_ (setActive false (newPlayer "B" false)) = false /\
  exists p', players_ g' !! 1%nat = Some p' /\ isActive_ p' = false.
Proof.
  cbv zeta.
  assert (Hsteps : rtc (ctrl_step (silent cyclicChoose) reverseShuffle id)
            (startGame 0%nat [newPlayer "A" false; setActive false (newPlayer "B" false);
                              newPlayer "C" false])
            (snd (run (silent cyclicChoose) reverseShuffle id 5
               (startGame 0%nat [newPlayer "A" false; setActive false (newPlayer "B" false);
                                 newPlayer "C" false]))))
    by (apply rtc_once, step_run).
  split; [exact Hsteps|]. split; [reflexivity|]. split; [reflexivity|].
  exact (inactive_stays_inactive (silent cyclicChoose) reverseShuffle id _ _ 1%nat _
           Hsteps eq_refl eq_refl).
Defined.

Lemma determineLosers_policy_witness :
  let scores := [mkScore 0 ROCK 0 1; mkScore 1 ROCK 0 1; mkScore 2 PAPER 2 0] in
  scores ≠ [] /\
  exists minNet maxNet : Z,
    (forall s, s ∈ scores -> minNet <= getNetScore s <= maxNet) /\
    (exists s, s ∈ scores /\ getNetScore s = minNet) /\
    (exists s, s ∈ scores /\ getNetScore s = maxNet) /\
    (minNet = maxNet <->
       forall s t, s ∈ scores -> t ∈ scores -> getNetScore s = getNetScore t) /\
    (minNet = maxNet -> determineLosers scores = Ok []) /\
    (minNet ≠ maxNet ->
       let eliminated := filter (fun s => getNetScore s = minNet) scores in
       determineLosers scores = Ok (player <$> eliminated) /\
       eliminated ≠ [] /\
       exists s, s ∈ scores /\ minNet < getNetScore s /\ (s ∉ eliminated) /\
                 (NoDup (player <$> scores) -> player s ∉ (player <$> eliminated))).
Proof.
  cbv zeta.
  assert (Hne : [mkScore 0 ROCK 0 1; mkScore 1 ROCK 0 1; mkScore 2 PAPER 2 0] ≠ [])
    by discriminate.
  split; [exact Hne|].
  exact (determineLosers_policy _ Hne).
Defined.

Lemma calculateScores_order_independent_witness :
  let l := [(0%nat, ROCK); (1%nat, PAPER); (2%nat, ROCK)] in
  let l' := [(1%nat, PAPER); (0%nat, ROCK); (2%nat, ROCK)] in
  l ≡ₚ l' /\
  calculateScores l ≡ₚ calculateScores l' /\
  (forall s, s ∈ calculateScores l <-> s ∈ calculateScores l') /\
  (NoDup (l.*1) ->
   forall p, scoreOf p (calculateScores l) = scoreOf p (calculateScores l')).
Proof.
  cbv zeta.
  assert (Hperm : [(0%nat, ROCK); (1%nat, PAPER); (2%nat, ROCK)]
                  ≡ₚ [(1%nat, PAPER); (0%nat, ROCK); (2%nat, ROCK)])
    by apply perm_swap.
  split; [exact Hperm|].
  exact (calculateScores_order_independent _ _ Hperm).
Defined.

(** * Further properties *)

(** ** A round: evaluator followed by elimination *)

Lemma length_calculateScores (choices : list (nat * Choice)) :
  length (calculateScores choices) = length choices.
Proof. by rewrite calculateScores_closed, length_fmap. Qed.

Lemma choices_calculateScores (choices : list (nat * Choice)) :
  choice <$> calculateScores choices = choices.*2.
Proof. rewrite calculateScores_closed, <- list_fmap_compose. done. Qed.

Lemma total_net (scores : list PlayerScore) :
  total getNetScore scores = total wins scores - total losses scores.
Proof. induction scores as [|s l IH]; simpl; [done|]. unfold getNetScore at 1. lia. Qed.

Lemma total_net_calculateScores (choices : list (nat * Choice)) :
  total getNetScore (calculateScores choices) = 0.
Proof.
  rewrite total_net, calculateScores_closed, !total_fmap. unfold scoreAgainst. simpl.
  rewrite <- (total_fmap (fun c => tally WIN c (choices.*2)) snd).
  rewrite <- (total_fmap (fun c => tally LOSE c (choices.*2)) snd).
  rewrite total_tally_swap. lia.
Qed.

Lemma total_bounds {A : Type} (f : A -> Z) (l : list A) (lo hi : Z) :
  (forall x, x ∈ l -> lo <= f x <= hi) ->
  lo * Z.of_nat (length l) <= total f l <= hi * Z.of_nat (length l).
Proof.
  induction l as [|x l IH]; intros H; simpl; [lia|].
  pose proof (H x ltac:(left)).
  assert (Hl : forall y, y ∈ l -> lo <= f y <= hi) by (intros y Hy; apply H; by right).
  specialize (IH Hl). lia.
Qed.

(** A sum that some entry exceeds the least value of cannot be the least
    value taken everywhere. *)
Lemma total_above {A : Type} (f : A -> Z) (l : list A) (lo : Z) (x : A) :
  (forall y, y ∈ l -> lo <= f y) -> x ∈ l -> lo < f x ->
  lo * Z.of_nat (length l) < total f l.
Proof.
  induction l as [|y l IH]; intros H Hx Hlt; [by apply elem_of_nil in Hx|].
  assert (Hl : forall z, z ∈ l -> lo <= f z) by (intros z Hz; apply H; by right).
  pose proof (H y ltac:(left)) as Hy. simpl.
  assert (Hge : lo * Z.of_nat (length l) <= total f l).
  { clear -Hl. induction l as [|z l IH]; simpl; [lia|].
    pose proof (Hl z ltac:(left)).
    assert (forall y, y ∈ l -> lo <= f y) by (intros y Hy; apply Hl; by right).
    specialize (IH ltac:(done)). lia. }
  apply elem_of_cons in Hx as [->|Hx]; [lia|].
  specialize (IH Hl Hx Hlt). lia.
Qed.

Lemma total_below {A : Type} (f : A -> Z) (l : list A) (hi : Z) (x : A) :
  (forall y, y ∈ l -> f y <= hi) -> x ∈ l -> f x < hi ->
  total f l < hi * Z.of_nat (length l).
Proof.
  intros H Hx Hlt.
  pose proof (total_above (fun y => - f y) l (- hi) x) as Ha.
  assert (Hneg : total (fun y => - f y) l = - total f l).
  { clear. induction l as [|y l IH]; simpl; [done | rewrite IH; lia]. }
  rewrite Hneg in Ha.
  assert (- hi * Z.of_nat (length l) < - total f l); [|lia].
  apply Ha; [|done|lia]. intros y Hy. specialize (H y Hy). lia.
Qed.

(** X24.  The net scores of a round add up to zero.  So a
    round is replayed exactly when every balance is zero, and otherwise the
    eliminated entries are those of the least balance, which is negative,
    while some entry has a positive balance. *)
Theorem round_balance (choices : list (nat * Choice)) :
  choices ≠ [] ->
  let scores := calculateScores choices in
  total getNetScore scores = 0 /\
  (determineLosers scores = Ok [] <-> forall s, s ∈ scores -> getNetScore s = 0) /\
  (forall losers, determineLosers scores = Ok losers -> losers ≠ [] ->
     exists minNet, minNet < 0 /\
       losers = player <$> filter (fun s => getNetScore s = minNet) scores /\
       (forall s, s ∈ scores -> minNet <= getNetScore s) /\
       exists s, s ∈ scores /\ 0 < getNetScore s).
Proof.
  intros Hne. cbn zeta.
  pose proof (total_net_calculateScores choices) as Hsum.
  pose proof (length_calculateScores choices) as Hlen.
  destruct (calculateScores choices) as [|first rest] eqn:E.
  { destruct choices; [done | discriminate Hlen]. }
  set (scores := first :: rest) in *.
  destruct (netBounds_spec first scores ltac:(left))
    as (Hb & (lo & Hlo & Elo) & (hi & Hhi & Ehi)).
  set (mn := fst (netBounds first scores)) in *.
  set (mx := snd (netBounds first scores)) in *.
  assert (Hpos : 0 < Z.of_nat (length scores)) by (simpl; lia).
  assert (Hcases : (mn = mx /\ mn = 0) \/ (mn < 0 /\ 0 < mx)).
  { destruct (decide (mn = mx)) as [Heq|Hneq].
    - left. split; [done|].
      pose proof (total_bounds getNetScore scores mn mx Hb) as Htb.
      rewrite Hsum in Htb. rewrite <- Heq in Htb. nia.
    - right. assert (mn < mx) by (pose proof (Hb lo Hlo); lia).
      pose proof (total_above getNetScore scores mn hi
                    (fun y Hy => proj1 (Hb y Hy)) Hhi ltac:(lia)) as Ha.
      pose proof (total_below getNetScore scores mx lo
                    (fun y Hy => proj2 (Hb y Hy)) Hlo ltac:(lia)) as Hbl.
      rewrite Hsum in Ha, Hbl. nia. }
  assert (Hunf := determineLosers_unfold first rest). cbn zeta in Hunf.
  fold scores in Hunf. fold mn mx in Hunf.
  split; [done|]. split.
  - rewrite Hunf. split.
    + destruct (Z.eqb_spec mn mx) as [Heq|Hneq].
      * intros _ s Hs. specialize (Hb s Hs). lia.
      * intros [= Hnil]. apply fmap_nil_inv in Hnil.
        assert (Hin : lo ∈ filter (fun s => getNetScore s = mn) scores)
          by (by apply list_elem_of_filter).
        rewrite Hnil in Hin. by apply elem_of_nil in Hin.
    + intros Hall. assert (mn = mx) as -> by (rewrite <- Elo, <- Ehi, !Hall; done).
      by rewrite Z.eqb_refl.
  - intros losers. rewrite Hunf.
    destruct (Z.eqb_spec mn mx) as [Heq|Hneq]; [by intros [= <-]|].
    intros [= <-] _. exists mn.
    destruct Hcases as [[? _]|[Hlt Hgt]]; [done|].
    split; [done|]. split; [done|]. split; [intros s Hs; by apply Hb|].
    exists hi. split; [done | lia].
Qed.

Lemma round_balance_witness :
  let choices := [(0%nat, ROCK); (1%nat, ROCK); (2%nat, PAPER)] in
  choices ≠ [] /\
  let scores := calculateScores choices in
  total getNetScore scores = 0 /\
  (determineLosers scores = Ok [] <-> forall s, s ∈ scores -> getNetScore s = 0) /\
  (forall losers, determineLosers scores = Ok losers -> losers ≠ [] ->
     exists minNet, minNet < 0 /\
       losers = player <$> filter (fun s => getNetScore s = minNet) scores /\
       (forall s, s ∈ scores -> minNet <= getNetScore s) /\
       exists s, s ∈ scores /\ 0 < getNetScore s).
Proof.
  cbv zeta.
  assert (Hne : [(0%nat, ROCK); (1%nat, ROCK); (2%nat, PAPER)] ≠ []) by discriminate.
  split; [exact Hne|]. exact (round_balance _ Hne).
Defined.

Lemma NoDup_fmap_elem {A B : Type} (f : A -> B) (l : list A) (x y : A) :
  NoDup (f <$> l) -> x ∈ l -> y ∈ l -> f x = f y -> x = y.
Proof.
  intros Hnd [i Hi]%list_elem_of_lookup [j Hj]%list_elem_of_lookup Hf.
  assert (i = j); [|congruence].
  eapply NoDup_lookup; [exact Hnd| |]; rewrite list_lookup_fmap.
  - rewrite Hi. reflexivity.
  - rewrite Hj. simpl. by rewrite Hf.
Qed.

(** The losers of a round are players of the round, in the order of the
    entries, and with one entry per player somebody is left. *)
Lemma round_losers (choices : list (nat * Choice)) :
  choices ≠ [] ->
  exists losers, determineLosers (calculateScores choices) = Ok losers /\
    losers `sublist_of` choices.*1 /\
    (NoDup (choices.*1) -> exists p, p ∈ choices.*1 /\ p ∉ losers).
Proof.
  intros Hne.
  pose proof (length_calculateScores choices) as Hlen.
  pose proof (players_calculateScores choices) as Hpl.
  destruct (calculateScores choices) as [|first rest] eqn:E.
  { destruct choices; [done | discriminate Hlen]. }
  rewrite determineLosers_unfold. cbn zeta.
  set (scores := first :: rest) in *.
  destruct (netBounds_spec first scores ltac:(left))
    as (Hb & (lo & Hlo & Elo) & (hi & Hhi & Ehi)).
  destruct (Z.eqb_spec (fst (netBounds first scores)) (snd (netBounds first scores)))
    as [Heq|Hneq].
  - exists []. split; [done|]. split; [apply sublist_nil_l|].
    intros _. exists (player first). split; [|by intros ?%elem_of_nil].
    rewrite <- Hpl. left.
  - eexists. split; [reflexivity|]. split.
    + rewrite <- Hpl. apply fmap_sublist, sublist_filter.
    + intros Hnd. rewrite <- Hpl in Hnd. exists (player hi). split.
      * rewrite <- Hpl. by apply list_elem_of_fmap_2.
      * intros [t [Hp [Ht Ht']%list_elem_of_filter]]%list_elem_of_fmap.
        assert (hi = t) by (by eapply NoDup_fmap_elem).
        subst t. pose proof (Hb hi Hhi). pose proof (Hb lo Hlo). lia.
Qed.

Section ControllerRuns.

Context {Env : Type}.
Variable choose : Env -> nat -> Player -> outcome Choice * list string * Env.
Variable shuffle : Env -> list nat -> list nat * Env.
Variable pause : Env -> Env.

Ltac after lem := apply preserves_bind; [apply _ | lem | intros ?].
Ltac finish := first [apply preserves_ret; apply _ | apply preserves_lift; apply _].

Global Instance quiet_preorder : PreOrder (@quiet Env).
Proof.
  split; [done|]. intros g1 g2 g3 [H1 R1] [H2 R2]. split; congruence.
Qed.

Lemma length_flags (g : Game Env) : length (flags g) = length (players_ g).
Proof. unfold flags. by rewrite length_fmap. Qed.

Lemma quiet_length (g g' : Game Env) :
  quiet g g' -> length (players_ g') = length (players_ g).
Proof. intros [H _]. by rewrite <- !length_flags, H. Qed.

Lemma dropOut_nil (bs : list bool) : dropOut [] bs = bs.
Proof.
  apply list_eq. intros i. unfold dropOut. rewrite list_lookup_imap.
  destruct (bs !! i); simpl; [|done].
  first [done | case_decide as H; [by apply elem_of_nil in H | done]].
Qed.

Lemma dropOut_app (l1 l2 : list nat) (bs : list bool) :
  dropOut l2 (dropOut l1 bs) = dropOut (l1 ++ l2) bs.
Proof.
  apply list_eq. intros i. unfold dropOut. rewrite !list_lookup_imap.
  destruct (bs !! i) as [b|]; simpl; [|done]. f_equal.
  destruct (decide (i ∈ l1)) as [H1|H1], (decide (i ∈ l2)) as [H2|H2];
    (rewrite decide_True by (apply elem_of_app; auto)) ||
    (rewrite decide_False by (rewrite elem_of_app; tauto)); done.
Qed.

Lemma dropOut_single (p : nat) (bs : list bool) : dropOut [p] bs = <[p := false]> bs.
Proof.
  apply list_eq. intros i. unfold dropOut. rewrite list_lookup_imap.
  destruct (decide (i = p)) as [->|Hne].
  - destruct (bs !! p) as [b|] eqn:Hb; simpl.
    + rewrite list_lookup_insert_eq by (by eapply lookup_lt_Some).
      by rewrite decide_True by left.
    + rewrite list_insert_ge by (by apply lookup_ge_None). by rewrite Hb.
  - rewrite list_lookup_insert_ne by done.
    destruct (bs !! i); simpl; [|done].
    rewrite decide_False; [done|]. by intros ->%list_elem_of_singleton.
Qed.

Lemma lookup_dropOut (losers : list nat) (bs : list bool) (p : nat) :
  dropOut losers bs !! p = Some true <-> bs !! p = Some true /\ p ∉ losers.
Proof.
  unfold dropOut. rewrite list_lookup_imap.
  destruct (bs !! p) as [b|]; simpl; [|split; [done | by intros [? _]]].
  destruct (decide (p ∈ losers)) as [H|H].
  - split; [done | by intros [_ ?]].
  - split; [by intros [= ->] | by intros [[= ->] _]].
Qed.

Lemma makeChoice_quiet (p : nat) : preserves quiet (makeChoice choose p).
Proof.
  intros g. unfold makeChoice.
  destruct (players_ g !! p) as [pl|] eqn:Hp; [|reflexivity].
  destruct (choose (env g) p pl) as [[r written] e].
  destruct r as [c|w| |]; try done. split; [|done].
  unfold flags. simpl. rewrite list_fmap_insert. apply list_insert_id.
  rewrite list_lookup_fmap, Hp. done.
Qed.

Lemma print_quiet (m : Message) : preserves quiet (print (Env:=Env) m).
Proof. by intros g. Qed.

Lemma collectFrom_quiet (human : bool) (players : list nat) :
  preserves quiet (collectFrom choose human players).
Proof.
  induction players as [|p rest IH]; simpl; [finish|].
  after ltac:(apply preserves_deref; apply _).
  case_bool_decide; [|done].
  after ltac:(apply makeChoice_quiet).
  after ltac:(done).
  finish.
Qed.

Lemma collectChoices_quiet (players : list nat) (groupName : string) :
  preserves quiet (collectChoices choose players groupName).
Proof.
  unfold collectChoices.
  after ltac:(case_decide; [finish | apply print_quiet]).
  after ltac:(apply collectFrom_quiet).
  after ltac:(apply collectFrom_quiet).
  finish.
Qed.

Lemma printChoiceLines_quiet (choices : list (nat * Choice)) :
  preserves quiet (printChoiceLines (Env:=Env) choices).
Proof.
  induction choices as [|[p c] rest IH]; simpl; [finish|].
  after ltac:(apply preserves_deref; apply _).
  after ltac:(apply preserves_lift; apply _).
  after ltac:(apply print_quiet).
  exact IH.
Qed.

Lemma printChoices_quiet (choices : list (nat * Choice)) (groupName : string) :
  preserves quiet (printChoices (Env:=Env) choices groupName).
Proof.
  unfold printChoices.
  after ltac:(apply print_quiet).
  apply printChoiceLines_quiet.
Qed.

Lemma executeRound_quiet (players : list nat) (groupName : string) :
  preserves quiet (executeRound choose players groupName).
Proof.
  unfold executeRound. cbv zeta.
  after ltac:(apply collectChoices_quiet).
  after ltac:(apply printChoices_quiet).
  apply preserves_reads; [apply _|]. apply evaluation_state.
Qed.

Lemma inRoster_quiet (g g' : Game Env) (ps : list nat) :
  quiet g g' -> inRoster g ps -> inRoster g' ps.
Proof. intros Hq. unfold inRoster. by rewrite (quiet_length g g' Hq). Qed.

(** The loops of [collectChoices] go through players that exist: they
    return, unless a call of [choose] has not. *)
Lemma collectFrom_spec (human : bool) (players : list nat) (g : Game Env) :
  inRoster g players ->
  exists r g', collectFrom choose human players g = (r, g') /\ blame choose r.
Proof.
  revert g. induction players as [|p rest IH]; intros g Hv; simpl; [by eexists _, _|].
  apply Forall_cons in Hv as [Hp Hrest].
  apply lookup_lt_is_Some_2 in Hp as [pl Hpl].
  unfold bind at 1. unfold deref. rewrite Hpl.
  case_bool_decide; [|by apply IH].
  pose proof (makeChoice_quiet p g) as Hq.
  unfold bind at 1. unfold makeChoice in *. rewrite Hpl in *.
  destruct (choose (env g) p pl) as [[r written] e] eqn:Hc.
  destruct r as [c|w| |]; simpl in Hq;
    [|(eexists _, _; split; [reflexivity|]; exists (env g), p, pl; by rewrite Hc)..].
  destruct (IH _ (inRoster_quiet _ _ _ Hq Hrest)) as (r & g' & Hcs & Hb).
  unfold bind at 1. rewrite Hcs.
  destruct r as [cs|w| |]; eexists _, _; (split; [reflexivity | exact Hb]).
Qed.

Lemma collectChoices_spec (players : list nat) (groupName : string) (g : Game Env) :
  inRoster g players ->
  exists r g', collectChoices choose players groupName g = (r, g') /\ blame choose r.
Proof.
  intros Hv. unfold collectChoices. unfold bind at 1. rewrite banner_state.
  set (g0 := mkGame _ _ _ _).
  destruct (collectFrom_spec true players g0 Hv) as (r1 & g1 & Hhs & Hb1).
  pose proof (collectFrom_quiet true players g0) as Hq. rewrite Hhs in Hq.
  unfold bind at 1. rewrite Hhs.
  destruct r1 as [hs|w| |];
    [|(eexists _, _; split; [reflexivity | exact Hb1])..].
  destruct (collectFrom_spec false players g1 (inRoster_quiet _ _ _ Hq Hv))
    as (r2 & g2 & Hcs & Hb2).
  unfold bind at 1. rewrite Hcs.
  destruct r2 as [cs|w| |]; eexists _, _; (split; [reflexivity | exact Hb2]).
Qed.

Lemma toString_defined (c : Choice) : exists text, ChoiceHelper.toString c = Ok text.
Proof. destruct c; by eexists. Qed.

(** [printChoices] over players that exist returns: every choice has a
    name. *)
Lemma printChoiceLines_ok (choices : list (nat * Choice)) (g : Game Env) :
  inRoster g (choices.*1) ->
  exists g', printChoiceLines choices g = (Ok tt, g') /\ players_ g' = players_ g.
Proof.
  revert g. induction choices as [|[p c] rest IH]; intros g Hv; [by eexists|].
  csimpl in Hv. apply Forall_cons in Hv as [Hp Hrest]. cbn [printChoiceLines].
  apply lookup_lt_is_Some_2 in Hp as [pl Hpl].
  destruct (toString_defined c) as [text Htext].
  unfold bind at 1. unfold deref. rewrite Hpl.
  unfold bind at 1, lift. rewrite Htext.
  unfold bind at 1, print. cbn [fst snd].
  set (g1 := mkGame _ _ _ _).
  destruct (IH g1 Hrest) as (g' & Hrun & Hpl'). by exists g'.
Qed.

Lemma printChoices_ok (choices : list (nat * Choice)) (groupName : string)
    (g : Game Env) :
  inRoster g (choices.*1) ->
  exists g', printChoices choices groupName g = (Ok tt, g') /\
             players_ g' = players_ g.
Proof.
  intros Hv. unfold printChoices, bind, print. cbn [fst snd].
  set (g1 := mkGame _ _ _ _).
  destruct (printChoiceLines_ok choices g1 Hv) as (g' & Hrun & Hpl'). by exists g'.
Qed.

(** The names of players that exist are read without fault. *)
Lemma getNames_ok (ps : list nat) (g : Game Env) :
  inRoster g ps -> exists names, getNames ps g = (Ok names, g).
Proof.
  induction ps as [|p rest IH]; intros Hv; [by eexists|].
  apply Forall_cons in Hv as [Hp Hrest].
  apply lookup_lt_is_Some_2 in Hp as [pl Hpl].
  destruct (IH Hrest) as [names Hnames].
  cbn [getNames]. unfold bind, deref. rewrite Hpl, Hnames. by eexists.
Qed.

(** Printing the comparisons of players that exist returns: every decided
    pair has its description. *)
Lemma allComparisons_ok (choices : list (nat * Choice)) (g : Game Env) :
  inRoster g (choices.*1) -> allComparisons choices g = (Ok tt, g).
Proof.
  assert (Hwith : forall player1 choice1 later,
            inRoster g (player1 :: later.*1) ->
            comparisonsWith player1 choice1 later g = (Ok tt, g)).
  { intros player1 choice1 later Hv. apply Forall_cons in Hv as [Hp1 Hlater].
    induction later as [|[player2 choice2] later IH]; [done|].
    csimpl in Hlater. apply Forall_cons in Hlater as [Hp2 Hlater].
    destruct (getNames_ok [player1; player2] g) as [names Hnames].
    { by repeat constructor. }
    destruct (comparisonLine_ok choice1 choice2) as [line Hline].
    cbn [comparisonsWith]. unfold bind at 1. rewrite Hnames.
    unfold bind at 1, lift. rewrite Hline. by apply IH. }
  induction choices as [|[player1 choice1] rest IH]; intros Hv; [done|].
  csimpl in Hv. cbn [allComparisons]. unfold bind. rewrite (Hwith _ _ _ Hv).
  apply Forall_cons in Hv as [_ Hrest]. by apply IH.
Qed.

Lemma printScoreTable_ok (scores : list PlayerScore) (groupName : string)
    (g : Game Env) :
  inRoster g (player <$> scores) -> printScoreTable scores groupName g = (Ok tt, g).
Proof.
  intros Hv. destruct (getNames_ok _ g Hv) as [names Hnames].
  unfold printScoreTable, bind. by rewrite Hnames.
Qed.

(** The evaluation of a round of players that exist returns the losers of
    the elimination step. *)
Lemma evaluation_ok (choices : list (nat * Choice)) (groupName : string)
    (g : Game Env) :
  inRoster g (choices.*1) -> choices ≠ [] ->
  exists losers,
    bind (printAllComparisons choices groupName) (fun _ =>
    bind (printScoreTable (calculateScores choices) groupName) (fun _ =>
    bind (lift (determineLosers (calculateScores choices))) (fun losers =>
    bind (getNames losers) (fun _ =>
    ret losers)))) g = (Ok losers, g) /\
    determineLosers (calculateScores choices) = Ok losers /\
    losers `sublist_of` choices.*1 /\
    (NoDup (choices.*1) -> exists p, p ∈ choices.*1 /\ p ∉ losers).
Proof.
  intros Hv Hne.
  destruct (round_losers choices Hne) as (losers & Hlosers & Hsub & Hsurv).
  exists losers. split; [|done].
  destruct (getNames_ok losers g) as [names Hnames].
  { apply Forall_forall. intros p Hp.
    eapply Forall_forall in Hv; [exact Hv|]. by eapply elem_of_sublist. }
  unfold bind at 1, printAllComparisons. rewrite allComparisons_ok by done.
  unfold bind at 1. rewrite printScoreTable_ok
    by (by rewrite players_calculateScores).
  unfold bind, lift. by rewrite Hlosers, Hnames.
Qed.

Lemma evaluation_inv (choices : list (nat * Choice)) (groupName : string)
    (g g' : Game Env) (losers : list nat) :
  bind (printAllComparisons choices groupName) (fun _ =>
  bind (printScoreTable (calculateScores choices) groupName) (fun _ =>
  bind (lift (determineLosers (calculateScores choices))) (fun losers =>
  bind (getNames losers) (fun _ =>
  ret losers)))) g = (Ok losers, g') ->
  determineLosers (calculateScores choices) = Ok losers /\ g' = g.
Proof.
  intros Hrun. split; [|by rewrite <- (evaluation_state choices groupName g), Hrun].
  revert Hrun. unfold bind at 1.
  destruct (printAllComparisons choices groupName g) as [[[]| | |] g1]; [|done..].
  unfold bind at 1.
  destruct (printScoreTable _ groupName g1) as [[[]| | |] g2]; [|done..].
  unfold bind at 1, lift.
  destruct (determineLosers (calculateScores choices)) as [l| | |]; [|done..].
  unfold bind, ret.
  destruct (getNames l g2) as [[names| | |] g3]; [|done..].
  by intros [= <- _].
Qed.

(** What a round that has returned has done: the choices were collected and
    printed, and the losers are those of the elimination step. *)
Lemma executeRound_inv (players : list nat) (groupName : string) (g g' : Game Env)
    (losers : list nat) :
  executeRound choose players groupName g = (Ok losers, g') ->
  exists choices g1,
    collectChoices choose players groupName g = (Ok choices, g1) /\
    determineLosers (calculateScores choices) = Ok losers /\
    snd (printChoices choices groupName g1) = g'.
Proof.
  unfold executeRound. cbv zeta. unfold bind at 1.
  destruct (collectChoices choose players groupName g) as [[cs| | |] g1]; [|done..].
  unfold bind at 1.
  destruct (printChoices cs groupName g1) as [[[]| | |] g2] eqn:Hprint; [|done..].
  intros [Hl ->]%evaluation_inv. exists cs, g1. by rewrite Hprint.
Qed.

(** A round over players that exist returns its losers, unless a call of
    [choose] has not returned; it changes no flag, and with distinct players
    somebody is not among the losers. *)
Lemma executeRound_spec (players : list nat) (groupName : string) (g : Game Env) :
  inRoster g players -> players ≠ [] -> NoDup players ->
  exists r g',
    executeRound choose players groupName g = (r, g') /\
    quiet g g' /\ blame choose r /\
    forall losers, r = Ok losers ->
      losers ⊆ players /\ NoDup losers /\ exists p, p ∈ players /\ p ∉ losers.
Proof.
  intros Hv Hne Hnd.
  pose proof (executeRound_quiet players groupName g) as Hq.
  unfold executeRound in *. cbv zeta in *.
  destruct (collectChoices_spec players groupName g Hv) as (r1 & g1 & Hcs & Hb1).
  pose proof (collectChoices_quiet players groupName g) as Hq1. rewrite Hcs in Hq1.
  unfold bind at 1 in Hq. unfold bind at 1. rewrite Hcs in *.
  destruct r1 as [cs|w| |];
    [|(eexists _, _; split; [reflexivity|]; split; [exact Hq|];
       split; [exact Hb1 | done])..].
  pose proof (collectChoices_value choose _ _ _ _ _ Hcs) as Hperm.
  assert (Hv1 : inRoster g1 (cs.*1)).
  { unfold inRoster. rewrite Hperm. by apply (inRoster_quiet g g1). }
  destruct (printChoices_ok cs groupName g1 Hv1) as (g2 & Hprint & Hpl2).
  unfold bind at 1 in Hq. unfold bind at 1. rewrite Hprint in *.
  assert (Hcsne : cs ≠ []).
  { intros ->. apply Permutation_nil_l in Hperm. done. }
  destruct (evaluation_ok cs groupName g2)
    as (losers & Heval & Hlosers & Hsub & Hsurv); [|done|].
  { unfold inRoster. by rewrite Hpl2. }
  rewrite Heval in *. simpl in Hq.
  eexists _, _. split; [reflexivity|]. split; [exact Hq|]. split; [done|].
  intros ? [= <-].
  assert (Hnd' : NoDup (cs.*1)) by (by rewrite Hperm).
  split; [|split].
  - intros x Hx. rewrite <- Hperm. by eapply elem_of_sublist.
  - by eapply sublist_NoDup.
  - destruct (Hsurv Hnd') as (p & Hp & Hnot). exists p. by rewrite <- Hperm.
Qed.

Lemma eliminate_spec (p : nat) (g : Game Env) :
  (p < length (players_ g))%nat ->
  exists g', setActiveAt false p g = (Ok tt, g') /\
    flags g' = dropOut [p] (flags g) /\ roundNumber_ g' = roundNumber_ g.
Proof.
  intros [pl Hpl]%lookup_lt_is_Some_2. unfold setActiveAt. rewrite Hpl.
  eexists. split; [reflexivity|]. split; [|done].
  unfold flags. simpl. by rewrite list_fmap_insert, dropOut_single.
Qed.

Lemma deactivate_spec (losers : list nat) (g : Game Env) :
  inRoster g losers ->
  exists g', deactivate losers g = (Ok tt, g') /\
    flags g' = dropOut losers (flags g) /\ roundNumber_ g' = roundNumber_ g.
Proof.
  revert g. induction losers as [|loser rest IH]; intros g Hv; simpl.
  - exists g. by rewrite dropOut_nil.
  - apply Forall_cons in Hv as [Hp Hrest].
    destruct (eliminate_spec loser g Hp) as (g1 & Hg1 & Hf1 & Hr1).
    assert (Hlen : length (players_ g1) = length (players_ g)).
    { rewrite <- !length_flags, Hf1. unfold dropOut. by rewrite length_imap. }
    destruct (IH g1) as (g' & Hg' & Hf' & Hr').
    { unfold inRoster. by rewrite Hlen. }
    unfold bind. rewrite Hg1. exists g'. split; [done|].
    split; [|congruence]. by rewrite Hf', Hf1, dropOut_app.
Qed.

Lemma keepActive_ok (group : list nat) (g : Game Env) :
  inRoster g group -> exists group', keepActive group g = (Ok group', g).
Proof.
  induction group as [|p rest IH]; intros Hv; simpl; [by eexists|].
  apply Forall_cons in Hv as [Hp Hrest].
  apply lookup_lt_is_Some_2 in Hp as [pl Hpl].
  destruct (IH Hrest) as (rest' & Hrest').
  unfold bind, deref. rewrite Hpl, Hrest'. by eexists.
Qed.

Lemma dropOut_length (losers : list nat) (bs : list bool) :
  length (dropOut losers bs) = length bs.
Proof. unfold dropOut. by rewrite length_imap. Qed.

Lemma eliminates_quiet (players : list nat) (g g' : Game Env) :
  players ≠ [] -> quiet g g' -> eliminates players [] g g'.
Proof.
  intros Hne [Hf Hr]. split; [by rewrite dropOut_nil|]. split; [done|].
  split; [by intros x ?%elem_of_nil|]. split; [constructor|].
  destruct players as [|p ps]; [done|]. exists p. split; [left | by intros ?%elem_of_nil].
Qed.

(** [playGroupRound] and the loop of [playRound] without groups: they stop
    for want of fuel or because a call of [choose] has not returned, and
    when the loop is over at least one player and not all players of the
    round are eliminated. *)
Lemma playGroupRound_spec (fuel : nat) (group : list nat) (groupName : string)
    (g : Game Env) :
  inRoster g group -> group ≠ [] -> NoDup group ->
  exists r g' losers,
    playGroupRound choose fuel group groupName g = (r, g') /\
    (r = OutOfFuel \/ blame choose r) /\
    (forall group', r = Ok group' -> losers ≠ []) /\
    eliminates group losers g g'.
Proof.
  revert g. induction fuel as [|fuel IH]; intros g Hv Hne Hnd; simpl.
  - eexists _, _, []. split; [reflexivity|]. split; [by left|]. split; [done|].
    by apply eliminates_quiet.
  - destruct (executeRound_spec group groupName g Hv Hne Hnd)
      as (r1 & g1 & Hround & Hq & Hb & Hok).
    unfold bind at 1. rewrite Hround.
    destruct r1 as [losers|w| |];
      [|(eexists _, g1, []; split; [reflexivity|]; split; [by right|];
         split; [done|]; by apply eliminates_quiet)..].
    destruct (Hok losers eq_refl) as (Hsub & Hndl & Hsurv).
    destruct losers as [|loser losers].
    + destruct (IH g1 (inRoster_quiet _ _ _ Hq Hv) Hne Hnd)
        as (r & g' & L & Hrun & Hr & HL & Hf & Hrn & HLs).
      exists r, g', L. split; [done|]. split; [done|]. split; [done|].
      destruct Hq as [Hqf Hqr]. split; [by rewrite Hf, Hqf|]. split; [congruence|done].
    + assert (Hvl : inRoster g1 (loser :: losers)).
      { apply Forall_forall. intros x Hx.
        eapply Forall_forall in Hv; [|by apply Hsub].
        by rewrite (quiet_length g g1 Hq). }
      destruct (deactivate_spec _ g1 Hvl) as (g2 & Hde & Hf2 & Hr2).
      assert (Hv2 : inRoster g2 group).
      { unfold inRoster. rewrite <- length_flags, Hf2, dropOut_length, length_flags.
        by apply (inRoster_quiet g g1). }
      destruct (keepActive_ok group g2 Hv2) as (group' & Hkeep).
      unfold bind. rewrite Hde, Hkeep.
      exists (Ok group'), g2, (loser :: losers). split; [done|].
      split; [by right|]. split; [done|].
      destruct Hq as [Hqf Hqr]. split; [by rewrite Hf2, Hqf|].
      split; [congruence | done].
Qed.

Lemma playTogether_spec (fuel : nat) (activePlayers : list nat) (g : Game Env) :
  inRoster g activePlayers -> activePlayers ≠ [] -> NoDup activePlayers ->
  exists r g' losers,
    playTogether choose fuel activePlayers g = (r, g') /\
    (r = OutOfFuel \/ blame choose r) /\
    (r = Ok tt -> losers ≠ []) /\
    eliminates activePlayers losers g g'.
Proof.
  revert g. induction fuel as [|fuel IH]; intros g Hv Hne Hnd; simpl.
  - eexists _, _, []. split; [reflexivity|]. split; [by left|]. split; [done|].
    by apply eliminates_quiet.
  - destruct (executeRound_spec activePlayers "" g Hv Hne Hnd)
      as (r1 & g1 & Hround & Hq & Hb & Hok).
    unfold bind at 1. rewrite Hround.
    destruct r1 as [losers|w| |];
      [|(eexists _, g1, []; split; [reflexivity|]; split; [by right|];
         split; [done|]; by apply eliminates_quiet)..].
    destruct (Hok losers eq_refl) as (Hsub & Hndl & Hsurv).
    destruct losers as [|loser losers].
    + destruct (IH g1 (inRoster_quiet _ _ _ Hq Hv) Hne Hnd)
        as (r & g' & L & Hrun & Hr & HL & Hf & Hrn & HLs).
      exists r, g', L. split; [done|]. split; [done|]. split; [done|].
      destruct Hq as [Hqf Hqr]. split; [by rewrite Hf, Hqf|]. split; [congruence|done].
    + assert (Hvl : inRoster g1 (loser :: losers)).
      { apply Forall_forall. intros x Hx.
        eapply Forall_forall in Hv; [|by apply Hsub].
        by rewrite (quiet_length g g1 Hq). }
      destruct (deactivate_spec _ g1 Hvl) as (g2 & Hde & Hf2 & Hr2).
      rewrite Hde.
      exists (Ok tt), g2, (loser :: losers). split; [done|].
      split; [by right|]. split; [done|].
      destruct Hq as [Hqf Hqr]. split; [by rewrite Hf2, Hqf|].
      split; [congruence | done].
Qed.

Lemma eliminates_length (players losers : list nat) (g g' : Game Env) :
  eliminates players losers g g' -> length (players_ g') = length (players_ g).
Proof. intros [Hf _]. by rewrite <- !length_flags, Hf, dropOut_length. Qed.

(** The rounds of the groups, one group after the other. *)
Lemma playGroups_spec (fuel : nat) (groups : list (list nat)) (i : nat) (g : Game Env) :
  inRoster g (concat groups) -> NoDup (concat groups) ->
  Forall (fun group => group ≠ []) groups ->
  exists r g' losers,
    playGroups choose fuel i groups g = (r, g') /\
    (r = OutOfFuel \/ blame choose r) /\
    (r = Ok tt -> groups ≠ [] -> losers ≠ []) /\
    flags g' = dropOut losers (flags g) /\
    roundNumber_ g' = roundNumber_ g /\
    losers ⊆ concat groups /\ NoDup losers /\
    forall group, group ∈ groups -> exists p, p ∈ group /\ p ∉ losers.
Proof.
  revert i g. induction groups as [|group rest IH]; intros i g Hv Hnd Hne.
  - exists (Ok tt), g, []. simpl. split; [done|]. split; [by right|].
    split; [done|]. split; [by rewrite dropOut_nil|]. split; [done|].
    split; [done|]. split; [constructor|]. by intros group ?%elem_of_nil.
  - simpl in Hv, Hnd. apply Forall_app in Hv as [Hvg Hvr].
    apply NoDup_app in Hnd as (Hndg & Hdisj & Hndr).
    apply Forall_cons in Hne as [Hneg Hner].
    assert (Hother : forall L, L ⊆ group -> forall group', group' ∈ rest ->
              forall p, p ∈ group' -> p ∉ L).
    { intros L HL group' Hg' p Hp HpL. apply (Hdisj p); [by apply HL|].
      apply elem_of_concat. by exists group'. }
    destruct (playGroupRound_spec fuel group
                ("Группа " +:+ pretty (i + 1)%nat)%string g Hvg Hneg Hndg)
      as (r1 & g1 & L1 & Hrun1 & Hr1 & HL1 & Hel1).
    pose proof (eliminates_length _ _ _ _ Hel1) as Hlen1.
    destruct Hel1 as (Hf1 & Hrn1 & Hsub1 & Hnd1 & p1 & Hp1 & Hp1').
    assert (Hsub1' : L1 ⊆ concat (group :: rest)).
    { intros x Hx. simpl. apply elem_of_app. left. by apply Hsub1. }
    assert (Hsurv1 : forall grp, grp ∈ group :: rest -> exists p, p ∈ grp /\ p ∉ L1).
    { intros grp [->|Hgrp]%elem_of_cons; [by exists p1|].
      eapply Forall_forall in Hner; [|exact Hgrp].
      destruct grp as [|p grp]; [done|]. exists p. split; [left|].
      apply (Hother L1 Hsub1 _ Hgrp). left. }
    cbn [playGroups]. cbv zeta. unfold bind at 1. rewrite Hrun1.
    destruct r1 as [group'|w| |];
      [|(eexists _, g1, L1; split; [reflexivity|];
         split; [destruct Hr1 as [Hr1|Hr1];
                   [first [discriminate Hr1 | by left] | by right]|];
         split; [done|]; split; [done|]; split; [done|];
         split; [done|]; split; done)..].
    specialize (HL1 group' eq_refl).
    destruct (IH (S i) g1) as (r & g' & L2 & Hrun & Hr & HL2 & Hf & Hrn & Hsub & Hnd2 & Hsurv).
    { unfold inRoster. by rewrite Hlen1. }
    { done. }
    { done. }
    exists r, g', (L1 ++ L2). split; [done|]. split; [done|]. split.
    { intros _ _. destruct L1; [done | discriminate]. }
    split; [by rewrite Hf, Hf1, dropOut_app|]. split; [congruence|]. split.
    { intros x [Hx|Hx]%elem_of_app; simpl; apply elem_of_app;
        [left; by apply Hsub1 | right; by apply Hsub]. }
    split.
    { apply NoDup_app. split; [done|]. split; [|done].
      intros x Hx Hx2. apply (Hdisj x); [by apply Hsub1 | by apply Hsub]. }
    intros grp [->|Hgrp]%elem_of_cons.
    + exists p1. split; [done|]. intros [?|Hin]%elem_of_app; [done|].
      apply (Hdisj p1 Hp1). by apply Hsub.
    + destruct (Hsurv grp Hgrp) as (p & Hp & HpL). exists p. split; [done|].
      intros [Hin|?]%elem_of_app; [|done].
      by apply (Hother L1 Hsub1 _ Hgrp p).
Qed.

Hypothesis shuffle_Permutation : forall e l, fst (shuffle e l) ≡ₚ l.

Lemma divideIntoGroups_spec (players : list nat) (g : Game Env) :
  (2 <= length players)%nat -> Z.of_nat (length players) < 2 ^ 31 ->
  exists groups g',
    divideIntoGroups shuffle players g = (Ok groups, g') /\
    players_ g' = players_ g /\ roundNumber_ g' = roundNumber_ g /\
    concat groups ≡ₚ players /\ Forall (fun group => group ≠ []) groups.
Proof.
  intros Hn Hint. unfold divideIntoGroups.
  pose proof (shuffle_Permutation (env g) players) as Hperm.
  destruct (shuffle (env g) players) as [shuffled e]. simpl in Hperm.
  assert (Hlen : length shuffled = length players) by (by rewrite Hperm).
  destruct (sliceGroups_spec shuffled) as [Hcat Hsizes]; [lia..|].
  eexists _, _. split; [reflexivity|]. split; [done|]. split; [done|].
  split; [by rewrite Hcat|].
  pose proof (policySizes_range (length shuffled)) as Hr.
  rewrite <- Hsizes in Hr. apply Forall_fmap in Hr.
  eapply Forall_impl; [exact Hr|]. intros group Hg ->. simpl in Hg. lia.
Qed.

(** One round of the tournament over at least two distinct players. *)
Lemma playRound_spec (fuel : nat) (activePlayers : list nat) (g : Game Env) :
  inRoster g activePlayers -> NoDup activePlayers ->
  (2 <= length activePlayers)%nat -> Z.of_nat (length activePlayers) < 2 ^ 31 ->
  exists r g' losers,
    playRound choose shuffle fuel activePlayers g = (r, g') /\
    (r = OutOfFuel \/ blame choose r) /\
    (r = Ok tt -> losers ≠ []) /\
    eliminates activePlayers losers g g'.
Proof.
  intros Hv Hnd Hn Hint. unfold playRound.
  assert (Hne : activePlayers ≠ []) by (intros ->; simpl in Hn; lia).
  case_decide as Hmany; [|by apply playTogether_spec].
  destruct (divideIntoGroups_spec activePlayers g Hn Hint)
    as (groups & g1 & Hdiv & Hpl & Hrn & Hperm & Hgne).
  unfold bind at 1. rewrite Hdiv. unfold bind at 1, print. cbn [fst snd].
  set (g2 := mkGame _ _ _ _).
  assert (Hv2 : inRoster g2 (concat groups)).
  { unfold inRoster, g2. simpl. rewrite Hpl, Hperm. exact Hv. }
  destruct (getNames_ok _ g2 Hv2) as [names Hnames].
  unfold bind at 1. rewrite Hnames.
  destruct (playGroups_spec fuel groups 0 g2)
    as (r & g' & L & Hrun & Hr & HL & Hf & Hrn' & Hsub & HndL & Hsurv).
  { done. }
  { by rewrite Hperm. }
  { done. }
  assert (Hgroups : groups ≠ []).
  { intros ->. simpl in Hperm. apply Permutation_nil_l in Hperm. done. }
  exists r, g', L. split; [done|]. split; [done|]. split; [auto|].
  split; [rewrite Hf; unfold flags, g2; simpl; by rewrite Hpl|].
  split; [rewrite Hrn'; unfold g2; simpl; done|].
  split; [intros x Hx; rewrite <- Hperm; by apply Hsub|]. split; [done|].
  destruct groups as [|group rest]; [done|].
  destruct (Hsurv group ltac:(left)) as (p & Hp & HpL).
  exists p. split; [|done]. rewrite <- Hperm. simpl. apply elem_of_app. by left.
Qed.

Lemma elem_of_activeFrom (l : list Player) (i p : nat) :
  p ∈ activeFrom i l <->
  (i <= p)%nat /\ (isActive_ <$> l) !! (p - i)%nat = Some true.
Proof.
  revert i. induction l as [|a l IH]; intros i; simpl.
  - split; [by intros ?%elem_of_nil | by intros [_ ?]].
  - assert (Hstep : p ∈ activeFrom (S i) l <->
              (i < p)%nat /\ (isActive_ a :: (isActive_ <$> l)) !! (p - i)%nat = Some true).
    { rewrite IH. split.
      - intros [Hle Hl]. split; [lia|].
        replace (p - i)%nat with (S (p - S i)) by lia. done.
      - intros [Hlt Hl]. split; [lia|].
        replace (p - i)%nat with (S (p - S i)) in Hl by lia. done. }
    destruct (isActive_ a) eqn:Ha.
    + rewrite elem_of_cons, Hstep. split.
      * intros [->|[Hlt Hl]]; [|split; [lia | done]].
        split; [lia|]. by rewrite Nat.sub_diag.
      * intros [Hle Hl]. destruct (decide (p = i)) as [->|Hne]; [by left|].
        right. split; [lia | done].
    + rewrite Hstep. split.
      * intros [Hlt Hl]. split; [lia | done].
      * intros [Hle Hl]. destruct (decide (p = i)) as [->|Hne].
        -- by rewrite Nat.sub_diag in Hl.
        -- split; [lia | done].
Qed.

Lemma NoDup_activeFrom (l : list Player) (i : nat) : NoDup (activeFrom i l).
Proof.
  revert i. induction l as [|a l IH]; intros i; simpl; [constructor|].
  destruct (isActive_ a); [|done]. constructor; [|done].
  intros [Hle _]%elem_of_activeFrom. lia.
Qed.

(** The players [getActivePlayers] returns are those whose flag is set. *)
Lemma elem_of_active (g : Game Env) (p : nat) :
  p ∈ activeFrom 0 (players_ g) <-> flags g !! p = Some true.
Proof.
  rewrite elem_of_activeFrom, Nat.sub_0_r. unfold flags.
  split; [by intros [_ ?] | split; [lia | done]].
Qed.

Lemma active_inRoster (g : Game Env) : inRoster g (activeFrom 0 (players_ g)).
Proof.
  apply Forall_forall. intros p Hp%elem_of_active.
  apply lookup_lt_Some in Hp. by rewrite length_flags in Hp.
Qed.

(** The active players after a round are those of before, less the losers. *)
Lemma active_eliminates (players losers : list nat) (g g' : Game Env) :
  eliminates players losers g g' ->
  players ⊆ activeFrom 0 (players_ g) ->
  activeFrom 0 (players_ g) ≡ₚ activeFrom 0 (players_ g') ++ losers /\
  exists p, p ∈ activeFrom 0 (players_ g').
Proof.
  intros (Hf & _ & Hsub & Hnd & p & Hp & HpL) Hact.
  assert (Hin : forall x, x ∈ activeFrom 0 (players_ g') <->
                          x ∈ activeFrom 0 (players_ g) /\ x ∉ losers).
  { intros x. by rewrite !elem_of_active, Hf, lookup_dropOut. }
  split.
  - apply NoDup_Permutation; [apply NoDup_activeFrom| |].
    + apply NoDup_app. split; [apply NoDup_activeFrom|]. split; [|done].
      intros x Hx. by apply Hin in Hx as [_ ?].
    + intros x. rewrite elem_of_app, Hin. split.
      * intros Hx. destruct (decide (x ∈ losers)); auto.
      * intros [[? _]|Hx]; [done|]. by apply Hact, Hsub.
  - exists p. apply Hin. split; [by apply Hact | done].
Qed.

(** [run] from any state: it stops for want of fuel or because a call of
    [choose] has not returned; nobody comes back; somebody is left; when it
    returns, at most one player is left, who is the winner, and every round
    has eliminated somebody. *)
Lemma run_spec (fuel : nat) (g : Game Env) :
  Z.of_nat (length (players_ g)) < 2 ^ 31 ->
  exists r g',
    run choose shuffle pause fuel g = (r, g') /\
    (r = OutOfFuel \/ blame choose r) /\
    length (players_ g') = length (players_ g) /\
    (forall p, p ∈ activeFrom 0 (players_ g') -> p ∈ activeFrom 0 (players_ g)) /\
    (activeFrom 0 (players_ g) ≠ [] -> activeFrom 0 (players_ g') ≠ []) /\
    (forall w, r = Ok w ->
       w = head (activeFrom 0 (players_ g')) /\
       (length (activeFrom 0 (players_ g')) <= 1)%nat /\
       roundNumber_ g' - roundNumber_ g
       <= Z.of_nat (length (activeFrom 0 (players_ g)))
          - Z.of_nat (length (activeFrom 0 (players_ g')))).
Proof.
  revert g. induction fuel as [|fuel IH]; intros g Hint.
  - exists OutOfFuel, g. simpl. split; [done|]. split; [by left|]. repeat split; try done.
  - cbn [run]. unfold bind at 1, getActivePlayers at 1. cbn [fst snd].
    set (active := activeFrom 0 (players_ g)).
    case_decide as Hmany.
    + unfold bind at 1, nextRound. cbn [fst snd].
      set (g0 := mkGame (players_ g) (roundNumber_ g + 1) (env g) (out g)).
      unfold bind at 1, getActivePlayers at 1. cbn [fst snd].
      change (players_ g0) with (players_ g). fold active.
      assert (Hlenact : (length active <= length (players_ g))%nat).
      { pose proof (NoDup_activeFrom (players_ g) 0) as Hnd.
        pose proof (active_inRoster g) as Hin. fold active in Hnd, Hin.
        assert (Hsub : active ⊆ seq 0 (length (players_ g))).
        { intros x Hx. apply elem_of_seq. eapply Forall_forall in Hin; [|done]. lia. }
        apply NoDup_submseteq in Hsub; [|done].
        apply submseteq_length in Hsub. by rewrite length_seq in Hsub. }
      destruct (playRound_spec fuel active g0)
        as (r1 & g1 & L & Hround & Hr1 & HL & Hel).
      { apply (active_inRoster g). }
      { apply NoDup_activeFrom. }
      { lia. }
      { lia. }
      pose proof (eliminates_length _ _ _ _ Hel) as Hlen1.
      destruct (active_eliminates _ _ g0 g1 Hel ltac:(done)) as [Hperm [q Hq]].
      change (players_ g0) with (players_ g) in Hperm, Hlen1. fold active in Hperm.
      assert (Hrn1 : roundNumber_ g1 = roundNumber_ g + 1) by (by destruct Hel as (_ & -> & _)).
      assert (Hback : forall p, p ∈ activeFrom 0 (players_ g1) -> p ∈ active).
      { intros p Hp. rewrite Hperm. apply elem_of_app. by left. }
      assert (Hleft : activeFrom 0 (players_ g1) ≠ []).
      { intros Hnil. rewrite Hnil in Hq. by apply elem_of_nil in Hq. }
      unfold bind at 1. rewrite Hround.
      destruct r1 as [[]|w| |];
        [|(eexists _, g1; split; [reflexivity|];
           split; [destruct Hr1 as [Hr1|Hr1];
                     [first [discriminate Hr1 | by left] | by right]|];
           split; [done|]; split; [done|]; split; done)..].
      specialize (HL eq_refl).
      unfold bind at 1, getActivePlayers at 1. cbn [fst snd]. unfold bind at 1.
      set (wait := if decide (1 < length (activeFrom 0 (players_ g1)))%nat
                   then waitForEnter pause else ret tt).
      assert (Hwait : exists g2, wait g1 = (Ok tt, g2) /\
                players_ g2 = players_ g1 /\ roundNumber_ g2 = roundNumber_ g1).
      { unfold wait. case_decide; by eexists. }
      destruct Hwait as (g2 & -> & Hpl2 & Hrn2).
      destruct (IH g2) as (r & g' & Hrun & Hfl & Hlen & Hsub & Hsome & Hok).
      { by rewrite Hpl2, Hlen1. }
      rewrite Hpl2 in Hlen, Hsub, Hsome, Hok. rewrite Hrn2 in Hok.
      exists r, g'. split; [done|]. split; [done|]. split; [congruence|].
      split; [auto|]. split; [auto|].
      intros w Hw. destruct (Hok w Hw) as (Hhead & Hone & Hrounds).
      split; [done|]. split; [done|].
      apply Permutation_length in Hperm. rewrite length_app in Hperm.
      destruct L; [done|]. simpl in Hperm. lia.
    + unfold bind at 1, getActivePlayers. cbn [fst snd]. fold active.
      destruct (getNames_ok (take 1 active) g) as [names Hnames].
      { apply Forall_forall. intros p Hp.
        apply (proj1 (Forall_forall _ _) (active_inRoster g) p).
        eapply elem_of_sublist; [exact Hp|]. apply sublist_take. }
      unfold bind, ret. rewrite Hnames.
      exists (Ok (head active)), g. split; [done|]. split; [by right|]. split; [done|].
      split; [done|]. split; [done|].
      intros w [= <-]. subst active. split; [done|]. split; lia.
Qed.


End ControllerRuns.

Lemma reverseShuffle_Permutation (e : nat) (l : list nat) :
  fst (reverseShuffle e l) ≡ₚ l.
Proof. simpl. symmetry. apply Permutation_rev. Qed.

(** X2.  A tournament that starts with at least one active player and comes
    to an end has exactly one winner: the player [run] announces is the only
    active player left, and was active at the start.  The branch of [run]
    for "all players eliminated" is never taken. *)
Theorem run_winner {Env : Type}
    (choose : Env -> nat -> Player -> outcome Choice * list string * Env)
    (shuffle : Env -> list nat -> list nat * Env) (pause : Env -> Env)
    (fuel : nat) (g : Game Env) (w : option nat) :
  (forall e l, fst (shuffle e l) ≡ₚ l) ->
  Z.of_nat (length (players_ g)) < 2 ^ 31 ->
  activeFrom 0 (players_ g) ≠ [] ->
  fst (run choose shuffle pause fuel g) = Ok w ->
  exists i, w = Some i /\
    activeFrom 0 (players_ (snd (run choose shuffle pause fuel g))) = [i] /\
    i ∈ activeFrom 0 (players_ g).
Proof.
  intros Hshuffle Hint Hsome Hw.
  destruct (run_spec choose shuffle pause Hshuffle fuel g Hint)
    as (r & g' & Hrun & _ & _ & Hback & Hleft & Hok).
  rewrite Hrun in *. simpl in Hw. subst r. simpl.
  destruct (Hok w eq_refl) as (-> & Hone & _). specialize (Hleft Hsome).
  destruct (activeFrom 0 (players_ g')) as [|i [|j rest]] eqn:E;
    [done| |simpl in Hone; lia].
  exists i. split; [done|]. split; [done|]. apply Hback. left.
Qed.

Lemma run_winner_witness :
  let g := startGame 0%nat (replicate 7 (newPlayer "bot" false)) in
  (forall e l, fst (reverseShuffle e l) ≡ₚ l) /\
  Z.of_nat (length (players_ g)) < 2 ^ 31 /\
  activeFrom 0 (players_ g) ≠ [] /\
  fst (run (silent cyclicChoose) reverseShuffle id 30 g) = Ok (Some 1%nat) /\
  exists i, Some 1%nat = Some i /\
    activeFrom 0 (players_ (snd (run (silent cyclicChoose) reverseShuffle id 30 g))) = [i] /\
    i ∈ activeFrom 0 (players_ g).
Proof.
  cbv zeta.
  assert (Hint : Z.of_nat (length (players_
            (startGame 0%nat (replicate 7 (newPlayer "bot" false))))) < 2 ^ 31)
    by (simpl; lia).
  assert (Hsome : activeFrom 0 (players_
            (startGame 0%nat (replicate 7 (newPlayer "bot" false)))) ≠ [])
    by discriminate.
  assert (Hw : fst (run (silent cyclicChoose) reverseShuffle id 30
            (startGame 0%nat (replicate 7 (newPlayer "bot" false)))) = Ok (Some 1%nat))
    by (vm_compute; reflexivity).
  split; [exact reverseShuffle_Permutation|]. split; [exact Hint|].
  split; [exact Hsome|]. split; [exact Hw|].
  exact (run_winner (silent cyclicChoose) reverseShuffle id 30 _ _
           reverseShuffle_Permutation Hint Hsome Hw).
Defined.

(** X3.  Every round of a tournament that comes to an end eliminates at
    least one player: the round counter advances by no more than the number
    of players eliminated, so n active players need at most n - 1 rounds. *)
Theorem run_round_bound {Env : Type}
    (choose : Env -> nat -> Player -> outcome Choice * list string * Env)
    (shuffle : Env -> list nat -> list nat * Env) (pause : Env -> Env)
    (fuel : nat) (g : Game Env) (w : option nat) :
  (forall e l, fst (shuffle e l) ≡ₚ l) ->
  Z.of_nat (length (players_ g)) < 2 ^ 31 ->
  fst (run choose shuffle pause fuel g) = Ok w ->
  let g' := snd (run choose shuffle pause fuel g) in
  roundNumber_ g' - roundNumber_ g
  <= Z.of_nat (length (activeFrom 0 (players_ g)))
     - Z.of_nat (length (activeFrom 0 (players_ g'))) /\
  (activeFrom 0 (players_ g) ≠ [] ->
   roundNumber_ g' - roundNumber_ g
   <= Z.of_nat (length (activeFrom 0 (players_ g))) - 1).
Proof.
  intros Hshuffle Hint Hw. cbn zeta.
  destruct (run_spec choose shuffle pause Hshuffle fuel g Hint)
    as (r & g' & Hrun & _ & _ & _ & Hleft & Hok).
  rewrite Hrun in *. simpl in Hw. subst r. simpl.
  destruct (Hok w eq_refl) as (_ & _ & Hrounds). split; [done|].
  intros Hsome. specialize (Hleft Hsome).
  destruct (activeFrom 0 (players_ g')); [done|]. simpl in Hrounds. lia.
Qed.

Lemma run_round_bound_witness :
  let g := startGame 0%nat (replicate 7 (newPlayer "bot" false)) in
  (forall e l, fst (reverseShuffle e l) ≡ₚ l) /\
  Z.of_nat (length (players_ g)) < 2 ^ 31 /\
  fst (run (silent cyclicChoose) reverseShuffle id 30 g) = Ok (Some 1%nat) /\
  let g' := snd (run (silent cyclicChoose) reverseShuffle id 30 g) in
  roundNumber_ g' - roundNumber_ g
  <= Z.of_nat (length (activeFrom 0 (players_ g)))
     - Z.of_nat (length (activeFrom 0 (players_ g'))) /\
  (activeFrom 0 (players_ g) ≠ [] ->
   roundNumber_ g' - roundNumber_ g
   <= Z.of_nat (length (activeFrom 0 (players_ g))) - 1).
Proof.
  cbv zeta.
  assert (Hint : Z.of_nat (length (players_
            (startGame 0%nat (replicate 7 (newPlayer "bot" false))))) < 2 ^ 31)
    by (simpl; lia).
  assert (Hw : fst (run (silent cyclicChoose) reverseShuffle id 30
            (startGame 0%nat (replicate 7 (newPlayer "bot" false)))) = Ok (Some 1%nat))
    by (vm_compute; reflexivity).
  split; [exact reverseShuffle_Permutation|]. split; [exact Hint|].
  split; [exact Hw|].
  exact (run_round_bound (silent cyclicChoose) reverseShuffle id 30 _ _
           reverseShuffle_Permutation Hint Hw).
Defined.

(** ** Collecting the choices *)

Section Collecting.

Context {Env : Type}.
Variable choose : Env -> nat -> Player -> outcome Choice * list string * Env.






End Collecting.

(** ** Rounds that are replayed for ever *)



Section NeverEnds.

Context {Env : Type}.
Variable choose : Env -> nat -> Player -> outcome Choice * list string * Env.
Variable shuffle : Env -> list nat -> list nat * Env.
Variable pause : Env -> Env.
Variable pace : nat -> Choice.

Hypothesis choose_pace :
  forall e p pl, (choose e p pl).1.1 = Ok (pace (length (choiceHistory_ pl))).
Hypothesis shuffle_Permutation : forall e l, fst (shuffle e l) ≡ₚ l.







End NeverEnds.



(** ** Rule table, evaluator and partitioner once more *)

(** X6.  [getDescription] has a text exactly for the pairs that [compare]
    decides for the first choice; for every other pair, equal choices
    included, [std::map::at] throws. *)
Theorem getDescription_defined (winner loser : Choice) :
  (GameRules.compare winner loser = WIN ->
   exists text, GameRules.getDescription winner loser = Ok text) /\
  (GameRules.compare winner loser ≠ WIN ->
   exists what, GameRules.getDescription winner loser = Throw what).
Proof.
  destruct winner, loser; vm_compute; split; intros H;
    first [congruence | by eexists].
Qed.

(** X7.  The rules are balanced: every choice beats exactly two of the five
    choices and is beaten by exactly two. *)
Theorem rules_balanced (c : Choice) :
  tally WIN c ChoiceHelper.allChoices = 2 /\
  tally LOSE c ChoiceHelper.allChoices = 2 /\
  tally DRAW c ChoiceHelper.allChoices = 1.
Proof. by destruct c. Qed.

Lemma tally_split (c : Choice) (others : list Choice) :
  tally WIN c others + tally LOSE c others + tally DRAW c others
  = Z.of_nat (length others).
Proof.
  induction others as [|d others IH]; [done|]. cbn [tally length].
  destruct (GameRules.compare c d); repeat case_decide; try congruence; lia.
Qed.

Lemma tally_draw_self (c : Choice) (others : list Choice) :
  c ∈ others -> 1 <= tally DRAW c others.
Proof.
  intros [l1 [l2 ->]]%list_elem_of_split. rewrite tally_app. simpl.
  pose proof (tally_bounds DRAW c l1). pose proof (tally_bounds DRAW c l2).
  rewrite compare_same. case_decide; [lia | done].
Qed.

(** X8.  The nested loops of the evaluator count: the score at index [i]
    belongs to the entry at index [i], its wins are the number of entries
    whose choice its choice beats, its losses the number of entries whose
    choice beats it; wins and losses together are at most the number of the
    other entries. *)
Theorem calculateScores_counts (choices : list (nat * Choice)) :
  length (calculateScores choices) = length choices /\
  forall i p c, choices !! i = Some (p, c) ->
    exists s, calculateScores choices !! i = Some s /\
      player s = p /\ choice s = c /\
      wins s = tally WIN c (choices.*2) /\
      losses s = tally LOSE c (choices.*2) /\
      0 <= wins s /\ 0 <= losses s /\
      wins s + losses s <= Z.of_nat (length choices) - 1.
Proof.
  split; [apply length_calculateScores|].
  intros i p c Hi. rewrite calculateScores_closed, list_lookup_fmap, Hi. simpl.
  eexists. split; [reflexivity|]. unfold scoreAgainst. simpl.
  assert (Hc : c ∈ choices.*2).
  { apply list_elem_of_fmap. exists (p, c). split; [done|].
    by eapply list_elem_of_lookup_2. }
  pose proof (tally_split c (choices.*2)) as Hs. rewrite length_fmap in Hs.
  pose proof (tally_draw_self c _ Hc).
  pose proof (tally_bounds WIN c (choices.*2)).
  pose proof (tally_bounds LOSE c (choices.*2)).
  repeat split; try done; lia.
Qed.

Lemma filter_Permutation_ext {A : Type} (P Q : A -> Prop)
    `{!forall x, Decision (P x)} `{!forall x, Decision (Q x)} (l l' : list A) :
  (forall x, P x <-> Q x) -> l ≡ₚ l' -> filter P l ≡ₚ filter Q l'.
Proof.
  intros Hext Hperm. rewrite (list_filter_iff P Q) by done. by rewrite Hperm.
Qed.

(** X9.  The result of a round does not depend on the order of its entries:
    for a rearranged list of entries the elimination step eliminates the
    same players. *)
Theorem round_order_independent (l l' : list (nat * Choice)) :
  l ≡ₚ l' -> l ≠ [] ->
  exists losers losers',
    determineLosers (calculateScores l) = Ok losers /\
    determineLosers (calculateScores l') = Ok losers' /\
    losers ≡ₚ losers'.
Proof.
  intros Hperm Hne.
  pose proof (calculateScores_Permutation l l' Hperm) as Hs.
  assert (Hne' : l' ≠ []) by (intros ->; by apply Permutation_nil_r in Hperm).
  pose proof (length_calculateScores l) as Hlen.
  pose proof (length_calculateScores l') as Hlen'.
  destruct (calculateScores l) as [|a r] eqn:E.
  { destruct l; [done | discriminate Hlen]. }
  destruct (calculateScores l') as [|a' r'] eqn:E'.
  { destruct l'; [done | discriminate Hlen']. }
  rewrite !determineLosers_unfold. cbn zeta.
  destruct (netBounds_spec a (a :: r) ltac:(left))
    as (Hb & (lo & Hlo & Elo) & (hi & Hhi & Ehi)).
  destruct (netBounds_spec a' (a' :: r') ltac:(left))
    as (Hb' & (lo' & Hlo' & Elo') & (hi' & Hhi' & Ehi')).
  assert (Hmin : fst (netBounds a (a :: r)) = fst (netBounds a' (a' :: r'))).
  { pose proof (Hb' lo ltac:(by rewrite <- Hs)).
    pose proof (Hb lo' ltac:(by rewrite Hs)). lia. }
  assert (Hmax : snd (netBounds a (a :: r)) = snd (netBounds a' (a' :: r'))).
  { pose proof (Hb' hi ltac:(by rewrite <- Hs)).
    pose proof (Hb hi' ltac:(by rewrite Hs)). lia. }
  rewrite <- Hmin, <- Hmax.
  destruct (_ =? _); eexists _, _; (split; [reflexivity|]); (split; [reflexivity|]);
    [done|].
  apply fmap_Permutation. by rewrite Hs.
Qed.

Lemma round_order_independent_witness :
  let l := [(0%nat, ROCK); (1%nat, PAPER); (2%nat, ROCK)] in
  let l' := [(1%nat, PAPER); (0%nat, ROCK); (2%nat, ROCK)] in
  l ≡ₚ l' /\ l ≠ [] /\
  exists losers losers',
    determineLosers (calculateScores l) = Ok losers /\
    determineLosers (calculateScores l') = Ok losers' /\
    losers ≡ₚ losers'.
Proof.
  cbv zeta.
  assert (Hperm : [(0%nat, ROCK); (1%nat, PAPER); (2%nat, ROCK)]
                  ≡ₚ [(1%nat, PAPER); (0%nat, ROCK); (2%nat, ROCK)])
    by apply perm_swap.
  assert (Hne : [(0%nat, ROCK); (1%nat, PAPER); (2%nat, ROCK)] ≠ []) by discriminate.
  split; [exact Hperm|]. split; [exact Hne|].
  exact (round_order_independent _ _ Hperm Hne).
Defined.

(** X10.  The partitioner is sound for every list of 2 or more players
    (fewer than 2^31), not only above the threshold of [playRound]: the
    groups have 2 to 4 players, follow the remainder policy, and put end to
    end they are the shuffled list. *)
Theorem sliceGroups_sound {A : Type} (shuffled : list A) :
  (2 <= length shuffled)%nat -> Z.of_nat (length shuffled) < 2 ^ 31 ->
  concat (sliceGroups shuffled) = shuffled /\
  length <$> sliceGroups shuffled = policySizes (length shuffled) /\
  Forall (fun group => 2 <= length group <= 4)%nat (sliceGroups shuffled).
Proof.
  intros Hn Hint. destruct (sliceGroups_spec shuffled Hn Hint) as [Hcat Hsizes].
  split; [done|]. split; [done|].
  pose proof (policySizes_range (length shuffled)) as Hr.
  rewrite <- Hsizes in Hr. by apply Forall_fmap in Hr.
Qed.

Lemma sliceGroups_sound_witness :
  let shuffled := [ROCK; PAPER; SCISSORS; LIZARD; SPOCK] in
  (2 <= length shuffled)%nat /\ Z.of_nat (length shuffled) < 2 ^ 31 /\
  concat (sliceGroups shuffled) = shuffled /\
  length <$> sliceGroups shuffled = policySizes (length shuffled) /\
  Forall (fun group => 2 <= length group <= 4)%nat (sliceGroups shuffled).
Proof.
  cbv zeta.
  assert (Hn : (2 <= length [ROCK; PAPER; SCISSORS; LIZARD; SPOCK])%nat) by (simpl; lia).
  assert (Hint : Z.of_nat (length [ROCK; PAPER; SCISSORS; LIZARD; SPOCK]) < 2 ^ 31)
    by (simpl; lia).
  split; [exact Hn|]. split; [exact Hint|].
  exact (sliceGroups_sound _ Hn Hint).
Defined.

(** X11.  The partitioner drops no player, whatever the number of players
    below 2^31, but it has no guard for a single player: the remainder 1
    asks for a group of 3 and a group of 2, the first takes the player and
    the second stays empty.  One player is the only case with an empty
    group. *)
Theorem sliceGroups_empty_group {A : Type} (shuffled : list A) :
  Z.of_nat (length shuffled) < 2 ^ 31 ->
  concat (sliceGroups shuffled) = shuffled /\
  (Exists (fun group => group = []) (sliceGroups shuffled) <-> length shuffled = 1%nat) /\
  (forall x, shuffled = [x] -> sliceGroups shuffled = [[x]; []]).
Proof.
  intros Hint.
  destruct shuffled as [|x [|y rest]].
  - split; [done|]. split; [|done]. split; [by intros ?%Exists_nil | done].
  - split; [done|]. split; [|by intros ? [= <-]].
    split; [done|]. intros _. apply Exists_cons_tl, Exists_cons_hd. done.
  - destruct (sliceGroups_spec (x :: y :: rest)) as [Hcat Hsizes]; [simpl; lia | done|].
    split; [done|]. split; [|done]. split; [|simpl; lia].
    intros Hex. exfalso.
    pose proof (policySizes_range (length (x :: y :: rest))) as Hr.
    rewrite <- Hsizes in Hr. apply Forall_fmap in Hr.
    apply Exists_exists in Hex as (group & Hin & ->).
    eapply Forall_forall in Hr; [|exact Hin]. simpl in Hr. lia.
Qed.

Lemma sliceGroups_empty_group_witness :
  Z.of_nat (length [SPOCK]) < 2 ^ 31 /\
  concat (sliceGroups [SPOCK]) = [SPOCK] /\
  (Exists (fun group => group = []) (sliceGroups [SPOCK]) <-> length [SPOCK] = 1%nat) /\
  (forall x, [SPOCK] = [x] -> sliceGroups [SPOCK] = [[x]; []]).
Proof.
  assert (H : Z.of_nat (length [SPOCK]) < 2 ^ 31) by (simpl; lia).
  split; [exact H | exact (sliceGroups_empty_group [SPOCK] H)].
Defined.

(** ** The human player at the console *)

Lemma trimLeft_blanks (a s : string) :
  allBlank a = true -> trimLeft (a +:+ s) = trimLeft s.
Proof.
  induction a as [|x a IH]; simpl; [done|].
  intros [Hx Ha]%andb_prop. rewrite Hx. by apply IH.
Qed.

Lemma trimLeft_id (s : string) : startsBlank s = false -> trimLeft s = s.
Proof. destruct s as [|x s]; simpl; [done|]. by intros ->. Qed.

Lemma trimRight_blanks (b : string) : allBlank b = true -> trimRight b = EmptyString.
Proof.
  induction b as [|x b IH]; simpl; [done|].
  intros [Hx Hb]%andb_prop. by rewrite (IH Hb), Hx.
Qed.

Lemma trimRight_cons (a : Ascii.ascii) (s : string) :
  trimRight (String a s)
  = match trimRight s with
    | EmptyString => if isBlank a then EmptyString else String a EmptyString
    | t => String a t
    end.
Proof. done. Qed.

Lemma trimRight_strips (m b : string) :
  allBlank b = true -> endsBlank m = false -> trimRight (m +:+ b) = m.
Proof.
  intros Hb. induction m as [|x m IH]; intros Hm.
  - by apply trimRight_blanks.
  - change (String x m +:+ b) with (String x (m +:+ b)). rewrite trimRight_cons.
    destruct m as [|y m].
    + change (EmptyString +:+ b) with b. rewrite (trimRight_blanks b Hb).
      simpl in Hm. by rewrite Hm.
    + rewrite IH by done. done.
Qed.

(** X12.  The two [erase] calls strip the blanks and tabs around a line and
    nothing else: a text with no blank at either end comes back as it is,
    whatever blanks surround it; a line of blanks becomes empty. *)
Theorem trim_strips (a m b : string) :
  allBlank a = true -> allBlank b = true ->
  startsBlank m = false -> endsBlank m = false ->
  trimRight (trimLeft (a +:+ m +:+ b)) = m.
Proof.
  intros Ha Hb Hs He. rewrite trimLeft_blanks by done.
  destruct m as [|x m].
  - change (EmptyString +:+ b) with b.
    assert (trimLeft b = EmptyString) as ->; [|done].
    clear -Hb. induction b as [|y b IH]; simpl in *; [done|].
    apply andb_prop in Hb as [-> Hb]. by apply IH.
  - rewrite trimLeft_id by done. by apply trimRight_strips.
Qed.

Lemma trim_strips_witness :
  allBlank "  " = true /\ allBlank " " = true /\
  startsBlank "3" = false /\ endsBlank "3" = false /\
  trimRight (trimLeft ("  " +:+ "3" +:+ " ")) = "3"%string.
Proof.
  split; [reflexivity|]. split; [reflexivity|].
  split; [reflexivity|]. split; [reflexivity|].
  exact (trim_strips "  " "3" " " eq_refl eq_refl eq_refl eq_refl).
Defined.

(** X13.  The keys of the menu: the key printed in front of a choice selects
    that choice, the five keys are the only inputs [fromInput] accepts, and
    for every other input it throws "Invalid input". *)
Theorem fromInput_keys :
  (forall i c, ChoiceHelper.allChoices !! i = Some c ->
     ChoiceHelper.fromInput (pretty (S i)) = Ok c /\
     exists name, ChoiceHelper.toString c = Ok name /\
       HumanPlayer.menu "" !! S i
       = Some ("    " +:+ pretty (S i) +:+ ". " +:+ name)%string) /\
  (forall input c, ChoiceHelper.fromInput input = Ok c ->
     exists i, ChoiceHelper.allChoices !! i = Some c /\ input = pretty (S i)) /\
  (forall input, (forall i, (i < 5)%nat -> input ≠ pretty (S i)) ->
     ChoiceHelper.fromInput input = Throw "Invalid input").
Proof.
  split; [|split].
  - intros [|[|[|[|[|i]]]]] c [= <-]; (split; [reflexivity|]);
      eexists; (split; [reflexivity|]); reflexivity.
  - intros input c. unfold ChoiceHelper.fromInput, ChoiceHelper.mapping.
    cbn [ChoiceHelper.find_input].
    repeat (match goal with
            | |- context [String.eqb ?k input] =>
                destruct (String.eqb_spec k input) as [<-|?]
            end;
            [intros [= <-];
             first [exists 0%nat; split; reflexivity | exists 1%nat; split; reflexivity
                   | exists 2%nat; split; reflexivity | exists 3%nat; split; reflexivity
                   | exists 4%nat; split; reflexivity]|]).
    done.
  - intros input Hno. unfold ChoiceHelper.fromInput, ChoiceHelper.mapping.
    cbn [ChoiceHelper.find_input].
    repeat (match goal with
            | |- context [String.eqb ?k input] =>
                destruct (String.eqb_spec k input) as [<-|?]
            end;
            [exfalso;
             first [apply (Hno 0%nat ltac:(lia)); reflexivity
                   | apply (Hno 1%nat ltac:(lia)); reflexivity
                   | apply (Hno 2%nat ltac:(lia)); reflexivity
                   | apply (Hno 3%nat ltac:(lia)); reflexivity
                   | apply (Hno 4%nat ltac:(lia)); reflexivity]|]).
    done.
Qed.

Lemma prompt_rejected (bad : list string) (fuel : nat) (p : Player)
    (rest : list string) (written : list string) :
  Forall rejected bad ->
  HumanPlayer.prompt (length bad + fuel) p (mkConsole (bad ++ rest) written)
  = HumanPlayer.prompt fuel p
      (mkConsole rest (written ++ concat (replicate (length bad)
         ["  Ваш выбор (1-5): "; "  Неверный ввод. Попробуйте снова."]%string))).
Proof.
  intros Hbad. revert written. induction Hbad as [|line bad [what Hline] _ IH];
    intros written.
  - simpl. by rewrite app_nil_r.
  - cbn [length Nat.add HumanPlayer.prompt app]. unfold getline, put. cbn [cin cout].
    rewrite Hline. unfold put. cbn [cin cout]. rewrite IH.
    do 2 f_equal. cbn [replicate concat]. by rewrite <- !app_assoc.
Qed.

Lemma retries_concat (n : nat) :
  retries n = concat (replicate n
     ["  Ваш выбор (1-5): "; "  Неверный ввод. Попробуйте снова."]%string)
     ++ ["  Ваш выбор (1-5): "]%string.
Proof. induction n as [|n IH]; [done|]. cbn [retries replicate concat]. by rewrite IH. Qed.

(** X14.  The human player is asked again until a line is accepted: the
    lines turned down before it are used up, each answered with the message
    for a wrong input; the choice of the first accepted line is returned and
    appended to the history; the lines after it stay unread. *)
Theorem makeChoice_first_valid (bad : list string) (good : string)
    (rest : list string) (fuel : nat) (p : Player) (io : Console) (c : Choice) :
  cin io = bad ++ good :: rest ->
  Forall rejected bad ->
  ChoiceHelper.fromInput (trimRight (trimLeft good)) = Ok c ->
  (length bad < fuel)%nat ->
  HumanPlayer.makeChoice fuel p io
  = (Ok (c, recordChoice c p),
     mkConsole rest (cout io ++ HumanPlayer.menu (name_ p) ++ retries (length bad))).
Proof.
  intros Hcin Hbad Hgood Hfuel. unfold HumanPlayer.makeChoice. rewrite Hcin.
  replace fuel with (length bad + S (fuel - S (length bad)))%nat by lia.
  rewrite prompt_rejected by done.
  cbn [HumanPlayer.prompt]. unfold getline, put. cbn [cin cout].
  rewrite Hgood. do 2 f_equal. rewrite retries_concat. by rewrite <- !app_assoc.
Qed.

Lemma makeChoice_first_valid_witness :
  let io := mkConsole ["7"; ""; " 4 "; "1"]%string [] in
  let p := newPlayer "Ann" true in
  cin io = ["7"; ""]%string ++ " 4 "%string :: ["1"]%string /\
  Forall rejected ["7"; ""]%string /\
  ChoiceHelper.fromInput (trimRight (trimLeft " 4 ")) = Ok LIZARD /\
  (length ["7"; ""]%string < 3)%nat /\
  HumanPlayer.makeChoice 3 p io
  = (Ok (LIZARD, recordChoice LIZARD p),
     mkConsole ["1"]%string
       (cout io ++ HumanPlayer.menu (name_ p) ++ retries (length ["7"; ""]%string))).
Proof.
  cbv zeta.
  assert (H1 : cin (mkConsole ["7"; ""; " 4 "; "1"]%string [])
               = ["7"; ""]%string ++ " 4 "%string :: ["1"]%string) by reflexivity.
  assert (H2 : Forall rejected ["7"; ""]%string)
    by (repeat constructor; by eexists).
  assert (H3 : ChoiceHelper.fromInput (trimRight (trimLeft " 4 ")) = Ok LIZARD)
    by reflexivity.
  assert (H4 : (length ["7"; ""]%string < 3)%nat) by (simpl; lia).
  split; [exact H1|]. split; [exact H2|]. split; [exact H3|]. split; [exact H4|].
  exact (makeChoice_first_valid _ _ _ 3 (newPlayer "Ann" true) _ LIZARD H1 H2 H3 H4).
Defined.

(** X15.  At the end of the input the human player is asked for ever: when
    no line left on the input is accepted, [makeChoice] does not return,
    whatever the fuel.  An empty input is such a case. *)
Theorem makeChoice_no_valid_line (fuel : nat) (p : Player) (io : Console) :
  Forall rejected (cin io) ->
  fst (HumanPlayer.makeChoice fuel p io) = OutOfFuel.
Proof.
  intros Hbad. unfold HumanPlayer.makeChoice.
  generalize (cout io ++ HumanPlayer.menu (name_ p)). intros written.
  revert written Hbad. generalize (cin io). intros lines. revert lines.
  induction fuel as [|fuel IH]; intros lines written Hbad; [done|].
  cbn [HumanPlayer.prompt]. unfold getline, put. cbn [cin cout].
  destruct Hbad as [|line lines [what Hline] Hbad].
  - cbn [cin cout]. change (ChoiceHelper.fromInput (trimRight (trimLeft EmptyString)))
      with (@Throw Choice "Invalid input"). cbv iota. unfold put. cbn [cin cout].
    apply IH. constructor.
  - rewrite Hline. unfold put. cbn [cin cout]. by apply IH.
Qed.

Lemma makeChoice_no_valid_line_witness :
  Forall rejected (cin (mkConsole [] [])) /\
  fst (HumanPlayer.makeChoice 100 (newPlayer "Ann" true) (mkConsole [] [])) = OutOfFuel.
Proof.
  assert (H : Forall rejected (cin (mkConsole [] []))) by constructor.
  split; [exact H|].
  exact (makeChoice_no_valid_line 100 (newPlayer "Ann" true) (mkConsole [] []) H).
Defined.

(** ** The strategies *)

Lemma cyclicCalls_from (n : nat) (index : Z) :
  0 <= index -> index + Z.of_nat n <= 2 ^ 64 ->
  cyclicCalls n index
  = (fun k => Ok (nth ((Z.to_nat index + k) mod 5) ChoiceHelper.allChoices ROCK))
      <$> seq 0 n.
Proof.
  revert index. induction n as [|n IH]; intros index H0 Hn; [done|].
  cbn [cyclicCalls]. unfold CyclicStrategy_makeChoice. cbn zeta.
  cbn [seq fmap list_fmap]. f_equal.
  - change (Z.of_nat (length ChoiceHelper.allChoices)) with 5.
    rewrite Nat.add_0_r.
    assert (Hm : Z.to_nat (index mod 5) = (Z.to_nat index mod 5)%nat).
    { rewrite <- (Z2Nat.id index) at 1 by lia. change 5 with (Z.of_nat 5).
      by rewrite <- Nat2Z.inj_mod, Nat2Z.id. }
    rewrite Hm.
    pose proof (Nat.mod_upper_bound (Z.to_nat index) 5 ltac:(lia)) as Hlt.
    destruct (Z.to_nat index mod 5)%nat as [|[|[|[|[|k]]]]]; [done..|lia].
  - destruct n as [|n]; [done|].
    rewrite Z.mod_small by lia. rewrite IH by lia.
    rewrite <- (fmap_S_seq 0 (S n)), <- list_fmap_compose.
    apply list_fmap_ext. intros i k _. unfold compose.
    replace (Z.to_nat (index + 1) + k)%nat with (Z.to_nat index + S k)%nat by lia.
    done.
Qed.

(** X16.  A cyclic strategy walks through rock, scissors, paper, lizard,
    Spock in this order, again and again: its call number [k], counted from
    0, returns the choice at position [k mod 5], for the first 2^64 calls. *)
Theorem cyclic_sequence (n : nat) :
  Z.of_nat n <= 2 ^ 64 ->
  cyclicCalls n 0
  = (fun k => Ok (nth (k mod 5) ChoiceHelper.allChoices ROCK)) <$> seq 0 n.
Proof. intros Hn. by rewrite cyclicCalls_from by lia. Qed.

Lemma cyclic_sequence_witness :
  Z.of_nat 7 <= 2 ^ 64 /\
  cyclicCalls 7 0
  = (fun k => Ok (nth (k mod 5) ChoiceHelper.allChoices ROCK)) <$> seq 0 7.
Proof.
  assert (H : Z.of_nat 7 <= 2 ^ 64) by (simpl; lia).
  split; [exact H | exact (cyclic_sequence 7 H)].
Defined.

(** X17.  A computer with a cyclic strategy whose index is the number of
    choices its player has made chooses by that number alone, and the index
    is again the length of the history afterwards.  The index is 0 and the
    history empty when the player is created, so it is always so. *)
Theorem cyclic_computer_pace {Rng : Type} (uniform : Rng -> nat -> nat * Rng)
    (p : Player) :
  Z.of_nat (length (choiceHistory_ p)) + 1 < 2 ^ 64 ->
  let c := nth (length (choiceHistory_ p) mod 5) ChoiceHelper.allChoices ROCK in
  fst (ownCycle tt p) = c /\
  ComputerPlayer_makeChoice uniform
    (CyclicStrategy (Z.of_nat (length (choiceHistory_ p)))) p
  = (Ok (c, recordChoice c p),
     CyclicStrategy (Z.of_nat (length (choiceHistory_ (recordChoice c p))))).
Proof.
  intros Hlen. cbn zeta. split; [done|].
  unfold ComputerPlayer_makeChoice, Strategy_makeChoice, CyclicStrategy_makeChoice.
  cbn zeta. change (Z.of_nat (length ChoiceHelper.allChoices)) with (Z.of_nat 5).
  rewrite <- Nat2Z.inj_mod, Nat2Z.id.
  pose proof (Nat.mod_upper_bound (length (choiceHistory_ p)) 5 ltac:(lia)) as Hlt.
  rewrite Z.mod_small by lia.
  assert (Hnext : Z.of_nat (length (choiceHistory_ p)) + 1
                  = Z.of_nat (length (choiceHistory_ p ++
                      [nth (length (choiceHistory_ p) mod 5) ChoiceHelper.allChoices ROCK]))).
  { rewrite length_app. simpl. lia. }
  destruct (length (choiceHistory_ p) mod 5)%nat as [|[|[|[|[|k]]]]] eqn:E;
    [| | | | |lia]; cbn [lookup list_lookup ChoiceHelper.allChoices nth] in *;
    unfold recordChoice; cbn [choiceHistory_]; by rewrite Hnext.
Qed.

Lemma cyclic_computer_pace_witness :
  let p := recordChoice ROCK (newPlayer "Бот 1" false) in
  Z.of_nat (length (choiceHistory_ p)) + 1 < 2 ^ 64 /\
  let c := nth (length (choiceHistory_ p) mod 5) ChoiceHelper.allChoices ROCK in
  fst (ownCycle tt p) = c /\
  ComputerPlayer_makeChoice (fun (rng : unit) (hi : nat) => (0%nat, rng))
    (CyclicStrategy (Z.of_nat (length (choiceHistory_ p)))) p
  = (Ok (c, recordChoice c p),
     CyclicStrategy (Z.of_nat (length (choiceHistory_ (recordChoice c p))))).
Proof.
  cbv zeta.
  assert (H : Z.of_nat (length (choiceHistory_
                (recordChoice ROCK (newPlayer "Бот 1" false)))) + 1 < 2 ^ 64)
    by (simpl; lia).
  split; [exact H|].
  exact (cyclic_computer_pace (fun (rng : unit) (hi : nat) => (0%nat, rng)) _ H).
Defined.

Section StrategyFacts.

Context {Rng : Type}.
Variable uniform : Rng -> nat -> nat * Rng.
Hypothesis uniform_range : forall rng hi, (fst (uniform rng hi) <= hi)%nat.

Lemma pick_ok (options : list Choice) (rng : Rng) :
  options ≠ [] ->
  exists c, pick uniform options rng = (Ok c, snd (uniform rng (length options - 1))) /\
            options !! fst (uniform rng (length options - 1)) = Some c.
Proof.
  intros Hne. unfold pick.
  pose proof (uniform_range rng (length options - 1)) as Hk.
  destruct (uniform rng (length options - 1)) as [k rng']. simpl in *.
  destruct (options !! k) as [c|] eqn:E; [by exists c|].
  apply lookup_ge_None in E. destruct options; [done | simpl in *; lia].
Qed.

Lemma occurrences_cons (k d : Choice) (l : list Choice) :
  occurrences k (d :: l) = (if decide (d = k) then 1 else 0) + occurrences k l.
Proof.
  unfold occurrences. rewrite filter_cons. case_decide; simpl; lia.
Qed.

Lemma occurrences_nonneg (k : Choice) (l : list Choice) : 0 <= occurrences k l.
Proof. unfold occurrences. lia. Qed.

Lemma occurrences_elem (k : Choice) (l : list Choice) : k ∈ l -> 1 <= occurrences k l.
Proof.
  induction l as [|d l IH]; [by intros ?%elem_of_nil|].
  rewrite occurrences_cons. pose proof (occurrences_nonneg k l).
  intros [->|Hk]%elem_of_cons.
  - rewrite decide_True by done. lia.
  - specialize (IH Hk). case_decide; lia.
Qed.

(** The map built from the history holds, for each choice that occurs, the
    number of its occurrences. *)
Lemma foldl_bump (history : list Choice) (counts : Choice -> option Z) (k : Choice) :
  foldl bump counts history k
  = if decide (occurrences k history = 0) then counts k
    else Some (default 0 (counts k) + occurrences k history).
Proof.
  revert counts. induction history as [|d h IH]; intros counts; [done|].
  cbn [foldl]. rewrite IH, occurrences_cons. unfold bump.
  pose proof (occurrences_nonneg k h).
  destruct (decide (k = d)) as [->|Hne].
  - rewrite (decide_True (P := d = d)) by done.
    rewrite (decide_False (P := 1 + _ = 0)) by lia.
    case_decide as H0; simpl; f_equal; lia.
  - rewrite (decide_False (P := d = k)) by done.
    rewrite Z.add_0_l. done.
Qed.

Lemma countChoices_spec (history : list Choice) (k : Choice) :
  countChoices history k
  = if decide (occurrences k history = 0) then None
    else Some (occurrences k history).
Proof. unfold countChoices. rewrite foldl_bump. simpl. by case_decide. Qed.

Lemma elem_of_entries {V : Type} (m : Choice -> option V) (k : Choice) (v : V) :
  (k, v) ∈ entries m <-> m k = Some v.
Proof.
  unfold entries. rewrite list_elem_of_omap. split.
  - intros (k' & _ & Hk'). destruct (m k') eqn:E; simpl in Hk'; [|done].
    by injection Hk' as -> ->.
  - intros Hm. exists k. split; [destruct k; set_solver|]. by rewrite Hm.
Qed.

Lemma mostCommon_fold (es : list (Choice * Z)) (best : Choice * Z) :
  snd best <= snd (foldl mostCommonStep best es) /\
  (forall e, e ∈ es -> snd e <= snd (foldl mostCommonStep best es)) /\
  (foldl mostCommonStep best es = best \/ foldl mostCommonStep best es ∈ es).
Proof.
  revert best. induction es as [|e es IH]; intros best; simpl.
  - split; [lia|]. split; [by intros e ?%elem_of_nil | by left].
  - destruct (IH (mostCommonStep best e)) as (H1 & H2 & H3).
    assert (Hstep : snd best <= snd (mostCommonStep best e) /\
                    snd e <= snd (mostCommonStep best e) /\
                    (mostCommonStep best e = best \/ mostCommonStep best e = e)).
    { unfold mostCommonStep. destruct (Z.ltb_spec (snd best) (snd e)); simpl.
      - split; [lia|]. split; [lia|]. right. by destruct e.
      - split; [lia|]. split; [lia|]. by left. }
    destruct Hstep as (S1 & S2 & S3).
    split; [lia|]. split.
    + intros e' [->|He']%elem_of_cons; [lia | by apply H2].
    + destruct H3 as [H3|H3]; [|right; by right].
      rewrite H3. destruct S3 as [->| ->]; [by left | right; left].
Qed.

(** X18.  With three or more choices in the history the adaptive strategy
    answers the most frequent of them: the choice it returns beats a choice
    of the history that no other choice occurs more often than.  It reads no
    list out of range and finds every key it looks up. *)
Theorem adaptive_counters_most_common (rng : Rng) (history : list Choice) :
  (3 <= length history)%nat ->
  exists c rng' target,
    AdaptiveStrategy_makeChoice uniform rng history = (Ok c, rng') /\
    target ∈ history /\
    (forall d, occurrences d history <= occurrences target history) /\
    GameRules.compare c target = WIN.
Proof.
  intros Hlen. unfold AdaptiveStrategy_makeChoice.
  destruct (Nat.ltb_spec (length history) 3) as [?|_]; [lia|].
  destruct history as [|first rest] eqn:Eh; [simpl in Hlen; lia|]. rewrite <- Eh.
  assert (Hfirst : history !! 0%nat = Some first) by (by subst history).
  rewrite Hfirst.
  set (counts := countChoices history).
  destruct (mostCommon_fold (entries counts) (first, 0)) as (H1 & H2 & H3).
  assert (Hin : first ∈ history) by (subst history; left).
  pose proof (occurrences_elem first history Hin) as Hocc.
  assert (Hentry : (first, occurrences first history) ∈ entries counts).
  { apply elem_of_entries. unfold counts. rewrite countChoices_spec.
    by rewrite decide_False by lia. }
  pose proof (H2 _ Hentry) as Hge. simpl in Hge.
  destruct H3 as [H3|H3]; [rewrite H3 in Hge; simpl in Hge; lia|].
  set (best := foldl mostCommonStep (first, 0) (entries counts)) in *.
  assert (Htarget : mostCommon first counts = fst best) by done.
  destruct best as [target v] eqn:Eb. simpl in *.
  apply elem_of_entries in H3. unfold counts in H3. rewrite countChoices_spec in H3.
  case_decide as Hz; [done|]. injection H3 as <-.
  assert (Hmax : forall d, occurrences d history <= occurrences target history).
  { intros d. destruct (decide (occurrences d history = 0)) as [->|Hd].
    - apply occurrences_nonneg.
    - apply (H2 (d, occurrences d history)). apply elem_of_entries.
      unfold counts. rewrite countChoices_spec. by rewrite decide_False. }
  assert (Ht : target ∈ history).
  { pose proof (occurrences_nonneg target history). unfold occurrences in Hz.
    destruct (filter (fun d => d = target) history) as [|x l] eqn:Ef; [done|].
    assert (Hx : x ∈ filter (fun d => d = target) history) by (rewrite Ef; left).
    apply list_elem_of_filter in Hx as [-> ?]. done. }
  rewrite Htarget. unfold findCounter.
  assert (Hoptions : exists o1 o2, GameRules.find target counters = Some [o1; o2] /\
            GameRules.compare o1 target = WIN /\ GameRules.compare o2 target = WIN).
  { destruct target; eexists _, _; (split; [reflexivity|]); by split. }
  destruct Hoptions as (o1 & o2 & -> & Hw1 & Hw2).
  destruct (pick_ok [o1; o2] rng ltac:(done)) as (c & Hpick & Hc).
  exists c, (snd (uniform rng (length [o1; o2] - 1))), target.
  split; [done|]. split; [done|]. split; [done|].
  destruct (fst (uniform rng (length [o1; o2] - 1))) as [|[|k]]; simpl in Hc.
  - by injection Hc as <-.
  - by injection Hc as <-.
  - done.
Qed.

(** X19.  The random and the weighted strategy never read their list out
    of range.  The weighted one draws from a pool of eight entries in which
    rock, scissors and paper occur twice and lizard and Spock once; the
    random one draws from the five choices, each once. *)
Theorem simple_strategies_draw (rng : Rng) (history : list Choice) :
  (exists c, RandomStrategy_makeChoice uniform rng history
             = (Ok c, snd (uniform rng 4)) /\
             ChoiceHelper.allChoices !! fst (uniform rng 4) = Some c) /\
  (exists c, BiasedStrategy_makeChoice uniform rng history
             = (Ok c, snd (uniform rng 7)) /\
             pool !! fst (uniform rng 7) = Some c) /\
  length pool = 8%nat /\
  forall c, occurrences c pool = default 0 (weights c) /\
            occurrences c ChoiceHelper.allChoices = 1.
Proof.
  split; [apply (pick_ok ChoiceHelper.allChoices rng); done|].
  split; [apply (pick_ok pool rng); done|].
  split; [done|]. intros c. by destruct c.
Qed.

(** Every strategy returns a choice, whatever its state and the history. *)
Lemma findCounter_ok (target : Choice) (rng : Rng) :
  exists c rng', findCounter uniform target rng = (Ok c, rng').
Proof.
  unfold findCounter.
  destruct target; simpl;
    match goal with
    | |- context [pick uniform ?options rng] =>
        destruct (pick_ok options rng ltac:(done)) as (c & -> & _)
    end; by eexists _, _.
Qed.

Lemma Strategy_makeChoice_ok (strategy : Strategy Rng) (history : list Choice) :
  exists c strategy',
    Strategy_makeChoice uniform strategy history = (Ok c, strategy').
Proof.
  destruct strategy as [rng|rng|rng|index]; simpl.
  - unfold RandomStrategy_makeChoice. cbn zeta.
    destruct (pick_ok ChoiceHelper.allChoices rng ltac:(done)) as (c & -> & _).
    by eexists _, _.
  - unfold BiasedStrategy_makeChoice.
    destruct (pick_ok pool rng ltac:(done)) as (c & -> & _).
    by eexists _, _.
  - unfold AdaptiveStrategy_makeChoice.
    destruct (Nat.ltb_spec (length history) 3) as [Hshort|Hlong].
    + cbn zeta.
      destruct (pick_ok ChoiceHelper.allChoices rng ltac:(done)) as (c & -> & _).
      by eexists _, _.
    + destruct history as [|first rest]; [simpl in Hlong; lia|].
      cbn zeta. cbn [lookup list_lookup].
      destruct (findCounter_ok (mostCommon first (countChoices (first :: rest))) rng)
        as (c & rng' & ->).
      by eexists _, _.
  - unfold CyclicStrategy_makeChoice. cbn zeta.
    assert (Hin : is_Some (ChoiceHelper.allChoices
              !! Z.to_nat (index mod Z.of_nat 5))).
    { apply lookup_lt_is_Some. simpl.
      pose proof (Z.mod_pos_bound index 5 ltac:(lia)). lia. }
    destruct Hin as [c Hc]. cbn [length] in *. rewrite Hc. by eexists _, _.
Qed.

End StrategyFacts.

(** ** The player factory and the setup *)

Section SetupFacts.

Context {Rng Device : Type}.
Variable uniform : Rng -> nat -> nat * Rng.
Variable seed : Device -> Rng * Device.
Variable stoi : string -> outcome Z.

Lemma getline_nth (io : Console) :
  fst (getline io) = nth 0 (cin io) EmptyString /\
  cin (snd (getline io)) = drop 1 (cin io) /\
  cout (snd (getline io)) = cout io.
Proof. unfold getline. destruct (cin io) eqn:E; simpl; by rewrite ?E. Qed.

Lemma trim_in_createPlayers (line : string) :
  (if decide (trimLeft line = EmptyString) then trimLeft line
   else trimRight (trimLeft line))
  = trimRight (trimLeft line).
Proof. case_decide as H; [by rewrite H | done]. Qed.

Lemma readHumans_spec (n : nat) (i : Z) (io : Console) (f : Factory Rng Device) :
  let '(ps, io', f') := readHumans n i io f in
  ps = (fun k => newPlayer
          (let name := trimRight (trimLeft (nth k (cin io) EmptyString)) in
           if decide (name = EmptyString)
           then ("Игрок " +:+ pretty (humanCounter_ f + Z.of_nat k + 1))%string
           else name) true) <$> seq 0 n /\
  cin io' = drop n (cin io) /\
  humanCounter_ f' = humanCounter_ f + Z.of_nat n /\
  computerCounter_ f' = computerCounter_ f /\
  rng_ f' = rng_ f /\ device f' = device f.
Proof.
  revert i io f. induction n as [|n IH]; intros i io f.
  - simpl. rewrite drop_0. repeat split; lia.
  - cbn [readHumans]. cbv zeta.
    set (io1 := put _ io).
    destruct (getline_nth io1) as (Hline & Hcin & _).
    destruct (getline io1) as [line io2]. simpl in Hline, Hcin.
    rewrite trim_in_createPlayers. unfold createHuman. cbv zeta.
    set (f1 := mkFactory _ _ _ _).
    specialize (IH (i + 1) io2 f1).
    destruct (readHumans n (i + 1) io2 f1) as [[ps io'] f'].
    destruct IH as (Hps & Hio & Hh & Hc & Hr & Hd).
    change (cin io1) with (cin io) in *.
    split; [|split; [|split; [|split; [|split]]]].
    + cbn [seq fmap list_fmap]. f_equal.
      * rewrite Hline. rewrite Z.add_0_r. done.
      * rewrite Hps, <- fmap_S_seq, <- list_fmap_compose.
        apply list_fmap_ext. intros j k _. unfold compose. cbv zeta.
        rewrite Hcin. unfold f1. cbn [humanCounter_].
        replace (nth k (drop 1 (cin io)) EmptyString) with (nth (S k) (cin io) EmptyString)
          by (destruct (cin io) as [|l ls]; [by destruct k | done]).
        replace (humanCounter_ f + 1 + Z.of_nat k + 1)
          with (humanCounter_ f + Z.of_nat (S k) + 1) by lia.
        done.
    + rewrite Hio, Hcin. by rewrite drop_drop.
    + rewrite Hh. unfold f1. simpl. lia.
    + by rewrite Hc.
    + by rewrite Hr.
    + by rewrite Hd.
Qed.

Lemma createComputer_spec (f : Factory Rng Device) :
  fst (fst (createComputer uniform seed f))
  = newPlayer ("Бот " +:+ pretty (computerCounter_ f + 1))%string false /\
  computerCounter_ (snd (createComputer uniform seed f)) = computerCounter_ f + 1 /\
  humanCounter_ (snd (createComputer uniform seed f)) = humanCounter_ f.
Proof.
  unfold createComputer. cbv zeta.
  destruct (uniform (rng_ f) 3) as [k rng].
  destruct k as [|[|[|[|k]]]]; try destruct (seed (device f)); done.
Qed.

Lemma makeComputers_spec (n : nat) (f : Factory Rng Device) :
  (fst <$> fst (makeComputers uniform seed n f))
  = (fun k => newPlayer
       ("Бот " +:+ pretty (computerCounter_ f + Z.of_nat k + 1))%string false)
      <$> seq 0 n.
Proof.
  revert f. induction n as [|n IH]; intros f; [done|].
  cbn [makeComputers].
  destruct (createComputer_spec f) as (Hp & Hc & _).
  destruct (createComputer uniform seed f) as [c f1]. simpl in Hp, Hc.
  specialize (IH f1). destruct (makeComputers uniform seed n f1) as [cs f2].
  simpl in IH. cbn [fst fmap list_fmap seq]. f_equal.
  - rewrite Hp. by rewrite Z.add_0_r.
  - rewrite IH, <- fmap_S_seq, <- list_fmap_compose.
    apply list_fmap_ext. intros j k _. unfold compose. rewrite Hc.
    replace (computerCounter_ f + 1 + Z.of_nat k + 1)
      with (computerCounter_ f + Z.of_nat (S k) + 1) by lia.
    done.
Qed.

Lemma createPlayers_players (numHumans numComputers : Z) (io : Console)
    (f : Factory Rng Device) :
  fst <$> fst (fst (createPlayers uniform seed numHumans numComputers io f))
  = ((fun k => newPlayer (humanName k (nth k (cin io) EmptyString)) true)
       <$> seq 0 (Z.to_nat numHumans))
    ++ ((fun k => newPlayer ("Бот " +:+ pretty (Z.of_nat k + 1))%string false)
       <$> seq 0 (Z.to_nat numComputers)) /\
  cin (snd (fst (createPlayers uniform seed numHumans numComputers io f)))
  = drop (Z.to_nat numHumans) (cin io).
Proof.
  unfold createPlayers. cbv zeta.
  pose proof (readHumans_spec (Z.to_nat numHumans) 0 io (resetCounters f)) as Hh.
  destruct (readHumans (Z.to_nat numHumans) 0 io (resetCounters f)) as [[hs io1] f1].
  destruct Hh as (Hhs & Hcin & _ & Hcc & _).
  pose proof (makeComputers_spec (Z.to_nat numComputers) f1) as Hc.
  destruct (makeComputers uniform seed (Z.to_nat numComputers) f1) as [cs f2].
  simpl in Hc. cbn [fst snd]. split; [|done].
  rewrite fmap_app, <- !list_fmap_compose.
  f_equal.
  - change (fst ∘ (fun p : Player => (p, @None (Strategy Rng)))) with (@id Player).
    rewrite list_fmap_id, Hhs. done.
  - change (fst ∘ (fun c : Player * Strategy Rng => (c.1, Some c.2)))
      with (@fst Player (Strategy Rng)).
    rewrite Hc, Hcc. done.
Qed.

Lemma createPlayers_kinds (numHumans numComputers : Z) (io : Console)
    (f : Factory Rng Device) :
  Forall (fun ps => isHuman (fst ps) = true <-> snd ps = None)
         (fst (fst (createPlayers uniform seed numHumans numComputers io f))).
Proof.
  unfold createPlayers. cbv zeta.
  pose proof (readHumans_spec (Z.to_nat numHumans) 0 io (resetCounters f)) as Hh.
  destruct (readHumans (Z.to_nat numHumans) 0 io (resetCounters f)) as [[hs io1] f1].
  destruct Hh as (Hhs & _).
  pose proof (makeComputers_spec (Z.to_nat numComputers) f1) as Hc.
  destruct (makeComputers uniform seed (Z.to_nat numComputers) f1) as [cs f2].
  simpl in Hc. cbn [fst snd]. apply Forall_app. split; apply Forall_fmap, Forall_forall.
  - intros p Hp. simpl. rewrite Hhs in Hp.
    apply list_elem_of_fmap in Hp as (k & -> & _). done.
  - intros [p st] Hp. simpl.
    assert (Hin : p ∈ cs.*1) by (apply list_elem_of_fmap; by exists (p, st)).
    rewrite Hc in Hin. apply list_elem_of_fmap in Hin as (k & -> & _). done.
Qed.

(** X20.  [createPlayers] makes the humans first, one for each of the next
    lines of the input, then the computers.  A human is named by its line
    without the blanks around it, or "Игрок k" with its position k when the
    line is blank or missing; computer number k is named "Бот k".  A player
    has a strategy exactly when it is a computer.  The lines of the humans
    are used up, and all players are active with an empty history. *)
Theorem createPlayers_roster (numHumans numComputers : Z) (io : Console)
    (f : Factory Rng Device) :
  let result := createPlayers uniform seed numHumans numComputers io f in
  let players := fst (fst result) in
  fst <$> players
  = ((fun k => newPlayer (humanName k (nth k (cin io) EmptyString)) true)
       <$> seq 0 (Z.to_nat numHumans))
    ++ ((fun k => newPlayer ("Бот " +:+ pretty (Z.of_nat k + 1))%string false)
       <$> seq 0 (Z.to_nat numComputers)) /\
  length players = (Z.to_nat numHumans + Z.to_nat numComputers)%nat /\
  Forall (fun ps => isHuman (fst ps) = true <-> snd ps = None) players /\
  Forall (fun ps => isActive_ (fst ps) = true /\ choiceHistory_ (fst ps) = []) players /\
  cin (snd (fst result)) = drop (Z.to_nat numHumans) (cin io).
Proof.
  cbv zeta. destruct (createPlayers_players numHumans numComputers io f) as [Hps Hcin].
  split; [done|]. split; [|split; [apply createPlayers_kinds|split; [|done]]].
  - rewrite <- (length_fmap fst), Hps, length_app, !length_fmap, !length_seq. done.
  - assert (H : Forall (fun p => isActive_ p = true /\ choiceHistory_ p = [])
                (fst <$> fst (fst (createPlayers uniform seed numHumans numComputers io f)))).
    { rewrite Hps. apply Forall_app.
      split; apply Forall_fmap, Forall_forall; by intros k _. }
    by apply Forall_fmap in H.
Qed.

(** X21.  The names of the computers are distinct from one another.  The
    names of the humans are not checked: two humans who type the same name
    both carry it. *)
Theorem createPlayers_names (numHumans numComputers : Z) (io : Console)
    (f : Factory Rng Device) :
  let players := fst (fst (createPlayers uniform seed numHumans numComputers io f)) in
  (forall i j p q, players !! i = Some p -> players !! j = Some q ->
     isHuman (fst p) = false -> isHuman (fst q) = false ->
     name_ (fst p) = name_ (fst q) -> i = j) /\
  (forall i j p q, players !! i = Some p -> players !! j = Some q ->
     isHuman (fst p) = true -> isHuman (fst q) = true ->
     trimRight (trimLeft (nth i (cin io) EmptyString))
     = trimRight (trimLeft (nth j (cin io) EmptyString)) ->
     trimRight (trimLeft (nth i (cin io) EmptyString)) ≠ EmptyString ->
     name_ (fst p) = name_ (fst q)).
Proof.
  cbv zeta. destruct (createPlayers_players numHumans numComputers io f) as [Hps _].
  set (players := fst (fst (createPlayers uniform seed numHumans numComputers io f))) in *.
  set (h := Z.to_nat numHumans) in *. set (c := Z.to_nat numComputers) in *.
  assert (Hat : forall i p, players !! i = Some p ->
            ((i < h)%nat /\ fst p = newPlayer (humanName i (nth i (cin io) EmptyString)) true) \/
            ((h <= i)%nat /\
             fst p = newPlayer ("Бот " +:+ pretty (Z.of_nat (i - h) + 1))%string false)).
  { intros i p Hi.
    assert (Hi' : (fst <$> players) !! i = Some (fst p))
      by (by rewrite list_lookup_fmap, Hi).
    rewrite Hps in Hi'. apply lookup_app_Some in Hi' as [Hi'|[Hge Hi']].
    - left. apply list_lookup_fmap_Some in Hi' as (k & Hp & Hk).
      apply lookup_seq in Hk as [-> Hk]. split; [lia | done].
    - right. rewrite length_fmap, length_seq in Hge, Hi'.
      apply list_lookup_fmap_Some in Hi' as (k & Hp & Hk).
      apply lookup_seq in Hk as [-> Hk]. split; [done | done]. }
  split.
  - intros i j p q Hi Hj Hp Hq Hname.
    destruct (Hat i p Hi) as [[_ Ep]|[Hih Ep]]; [by rewrite Ep in Hp|].
    destruct (Hat j q Hj) as [[_ Eq]|[Hjh Eq]]; [by rewrite Eq in Hq|].
    rewrite Ep, Eq in Hname. simpl in Hname.
    apply (inj (String.app _)) in Hname. apply (inj pretty) in Hname. lia.
  - intros i j p q Hi Hj Hp Hq Hsame Hne.
    destruct (Hat i p Hi) as [[_ Ep]|[_ Ep]]; [|by rewrite Ep in Hp].
    destruct (Hat j q Hj) as [[_ Eq]|[_ Eq]]; [|by rewrite Eq in Hq].
    rewrite Ep, Eq. simpl. unfold humanName. cbv zeta. rewrite <- Hsame.
    by rewrite !decide_False by done.
Qed.

Lemma readInt_cout (fuel : nat) (prompt : string) (io : Console) :
  exists new, cout (snd (readInt stoi fuel prompt io)) = cout io ++ new /\
    Forall (fun t => t = prompt \/ t = "  Введите целое число!"%string) new.
Proof.
  revert io. induction fuel as [|fuel IH]; intros io.
  - exists []. simpl. by rewrite app_nil_r.
  - cbn [readInt]. cbv zeta.
    destruct (getline_nth (put prompt io)) as (_ & _ & Hout).
    destruct (getline (put prompt io)) as [input io1]. simpl in Hout.
    destruct (stoi input) as [v|w| |].
    + exists [prompt]. simpl. split; [done | repeat constructor; by left].
    + destruct (IH (put "  Введите целое число!" io1)) as (new & Hnew & Hall).
      exists (prompt :: "  Введите целое число!"%string :: new).
      rewrite Hnew. simpl. rewrite Hout, <- !app_assoc. split; [done|].
      constructor; [by left|]. constructor; [by right | done].
    + exists [prompt]. simpl. split; [done | repeat constructor; by left].
    + exists [prompt]. simpl. split; [done | repeat constructor; by left].
Qed.

(** X22.  The check for "one human and no computer" in [setup] is dead
    code: that case is turned down before as fewer than two players, so
    neither line of its message is ever written, whatever is typed. *)
Theorem single_human_message_dead (fuel : nat) (numHumans : Z) (io : Console) :
  exists new,
    cout (snd (askComputers stoi fuel numHumans io)) = cout io ++ new /\
    ("  Один игрок не может играть сам с собой,"%string ∉ new) /\
    ("  Добавьте хотя бы одного компьютера."%string ∉ new).
Proof.
  set (allowed := ["  Количество игроков-компьютеров: "; "  Введите целое число!";
                   "  Число не может быть отрицательным!";
                   "  Для игры нужно минимум 2 участника!"]%string).
  assert (Hallowed : exists new,
            cout (snd (askComputers stoi fuel numHumans io)) = cout io ++ new /\
            Forall (fun t => t ∈ allowed) new).
  { revert io. induction fuel as [|fuel IH]; intros io.
    - exists []. simpl. by rewrite app_nil_r.
    - cbn [askComputers].
      destruct (readInt_cout fuel "  Количество игроков-компьютеров: " io)
        as (new1 & Hnew1 & Hall1).
      assert (Hall1' : Forall (fun t => t ∈ allowed) new1).
      { eapply Forall_impl; [exact Hall1|]. intros t [->| ->]; unfold allowed.
        - left.
        - right. left. }
      destruct (readInt stoi fuel _ io) as [[c|w| |] io1]; simpl in Hnew1;
        [|by exists new1..].
      assert (Hagain : forall msg, msg ∈ allowed ->
                exists new, cout (snd (askComputers stoi fuel numHumans (put msg io1)))
                            = cout io ++ new /\ Forall (fun t => t ∈ allowed) new).
      { intros msg Hmsg. destruct (IH (put msg io1)) as (new & Hnew & Hall).
        exists (new1 ++ msg :: new). rewrite Hnew. simpl. rewrite Hnew1, <- !app_assoc.
        split; [done|]. apply Forall_app. split; [done|]. by constructor. }
      destruct (Z.ltb_spec c 0).
      { apply Hagain. unfold allowed. right. right. left. }
      cbv zeta.
      destruct ((- 2 ^ 31 <=? numHumans + c) && (numHumans + c <? 2 ^ 31)); simpl;
        [|by exists new1].
      destruct (Z.ltb_spec (numHumans + c) 2).
      { apply Hagain. unfold allowed. right. right. right. left. }
      destruct (Z.eqb_spec numHumans 1), (Z.eqb_spec c 0); simpl;
        first [lia | by exists new1]. }
  destruct Hallowed as (new & Hnew & Hall). exists new. split; [done|].
  split; intros Hin; eapply Forall_forall in Hall; try exact Hin;
    unfold allowed in Hall;
    repeat (apply elem_of_cons in Hall as [Hall|Hall]; [discriminate Hall|]);
    by apply elem_of_nil in Hall.
Qed.

Lemma askHumans_nonneg (fuel : nat) (io io' : Console) (numHumans : Z) :
  askHumans stoi fuel io = (Ok numHumans, io') -> 0 <= numHumans.
Proof.
  revert io. induction fuel as [|fuel IH]; intros io; [done|].
  cbn [askHumans]. destruct (readInt stoi fuel _ io) as [[h|w| |] io1]; [|done..].
  destruct (Z.ltb_spec h 0); [apply IH|]. intros [= <- <-]. done.
Qed.

Lemma askComputers_admits (fuel : nat) (numHumans : Z) (io io' : Console)
    (numComputers : Z) :
  askComputers stoi fuel numHumans io = (Ok numComputers, io') ->
  0 <= numComputers /\ 2 <= numHumans + numComputers < 2 ^ 31.
Proof.
  revert io. induction fuel as [|fuel IH]; intros io; [done|].
  cbn [askComputers]. destruct (readInt stoi fuel _ io) as [[c|w| |] io1]; [|done..].
  destruct (Z.ltb_spec c 0); [apply IH|]. cbv zeta.
  destruct (Z.leb_spec (- 2 ^ 31) (numHumans + c)),
           (Z.ltb_spec (numHumans + c) (2 ^ 31)); simpl; try done.
  destruct (Z.ltb_spec (numHumans + c) 2); [apply IH|].
  destruct ((numHumans =? 1) && (c =? 0)); [apply IH|].
  intros [= <- <-]. lia.
Qed.

(** X23.  A tournament is only set up with two players or more: when
    [setup] returns, there are at least 2 and fewer than 2^31 players, all
    of them active, whatever was typed. *)
Theorem setup_admits (fuel : nat) (io : Console) (f : Factory Rng Device)
    (players : list (Player * option (Strategy Rng))) :
  fst (fst (setup uniform seed stoi fuel io f)) = Ok players ->
  (2 <= length players)%nat /\ Z.of_nat (length players) < 2 ^ 31 /\
  Forall (fun ps => isActive_ (fst ps) = true) players.
Proof.
  unfold setup.
  destruct (askHumans stoi fuel io) as [[h|w| |] io1] eqn:Eh; [|done..].
  apply askHumans_nonneg in Eh.
  destruct (askComputers stoi fuel h io1) as [[c|w| |] io2] eqn:Ec; [|done..].
  apply askComputers_admits in Ec as [Hc Hsum].
  destruct (createPlayers_players h c io2 f) as [Hps _].
  destruct (createPlayers uniform seed h c io2 f) as [[ps io3] f3].
  simpl in Hps. simpl. intros [= <-].
  assert (Hlen : length ps = (Z.to_nat h + Z.to_nat c)%nat).
  { rewrite <- (length_fmap fst), Hps, length_app, !length_fmap, !length_seq. done. }
  split; [lia|]. split; [lia|].
  assert (H : Forall (fun p => isActive_ p = true) (fst <$> ps)).
  { rewrite Hps. apply Forall_app.
    split; apply Forall_fmap, Forall_forall; by intros k _. }
  by apply Forall_fmap in H.
Qed.

End SetupFacts.

(** ** Witnesses and two more facts about the controller *)

Lemma stepUniform_range (rng hi : nat) : (fst (stepUniform rng hi) <= hi)%nat.
Proof.
  unfold stepUniform. simpl.
  pose proof (Nat.mod_upper_bound rng (S hi) ltac:(lia)). lia.
Qed.

Lemma adaptive_counters_most_common_witness :
  (forall rng hi, (fst (stepUniform rng hi) <= hi)%nat) /\
  (3 <= length [ROCK; PAPER; ROCK; SPOCK])%nat /\
  exists c rng' target,
    AdaptiveStrategy_makeChoice stepUniform 1%nat [ROCK; PAPER; ROCK; SPOCK]
    = (Ok c, rng') /\
    target ∈ [ROCK; PAPER; ROCK; SPOCK] /\
    (forall d, occurrences d [ROCK; PAPER; ROCK; SPOCK]
               <= occurrences target [ROCK; PAPER; ROCK; SPOCK]) /\
    GameRules.compare c target = WIN.
Proof.
  assert (H : (3 <= length [ROCK; PAPER; ROCK; SPOCK])%nat) by (simpl; lia).
  split; [exact stepUniform_range|]. split; [exact H|].
  exact (adaptive_counters_most_common stepUniform stepUniform_range 1%nat _ H).
Defined.

Lemma simple_strategies_draw_witness :
  (forall rng hi, (fst (stepUniform rng hi) <= hi)%nat) /\
  (exists c, RandomStrategy_makeChoice stepUniform 7%nat []
             = (Ok c, snd (stepUniform 7%nat 4)) /\
             ChoiceHelper.allChoices !! fst (stepUniform 7%nat 4) = Some c) /\
  (exists c, BiasedStrategy_makeChoice stepUniform 7%nat []
             = (Ok c, snd (stepUniform 7%nat 7)) /\
             pool !! fst (stepUniform 7%nat 7) = Some c) /\
  length pool = 8%nat /\
  forall c, occurrences c pool = default 0 (weights c) /\
            occurrences c ChoiceHelper.allChoices = 1.
Proof.
  split; [exact stepUniform_range|].
  exact (simple_strategies_draw stepUniform stepUniform_range 7%nat []).
Defined.

Lemma setup_admits_witness :
  let io := mkConsole ["x"; "1"; "0"; "1"; " Ann "]%string [] in
  let f := mkFactory 5 5 0%nat tt in
  let seed := fun d : unit => (0%nat, d) in
  let players := [(newPlayer "Ann" true, None);
                  (newPlayer "Бот 1" false, Some (RandomStrategy 0%nat))] in
  fst (fst (setup stepUniform seed smallStoi 6 io f)) = Ok players /\
  (2 <= length players)%nat /\ Z.of_nat (length players) < 2 ^ 31 /\
  Forall (fun ps => isActive_ (fst ps) = true) players.
Proof.
  cbv zeta.
  assert (H : fst (fst (setup stepUniform (fun d : unit => (0%nat, d)) smallStoi 6
                 (mkConsole ["x"; "1"; "0"; "1"; " Ann "]%string [])
                 (mkFactory 5 5 0%nat tt)))
              = Ok [(newPlayer "Ann" true, None);
                    (newPlayer "Бот 1" false, Some (RandomStrategy 0%nat))])
    by (vm_compute; reflexivity).
  split; [exact H|].
  exact (setup_admits stepUniform _ smallStoi 6 _ _ _ H).
Defined.


(** X25.  A round that comes to an end eliminates somebody and not
    everybody: after [playRound] has returned for the active players, two
    or more, the active players are fewer, they were all active before, and
    at least one is left. *)
Theorem playRound_eliminates {Env : Type}
    (choose : Env -> nat -> Player -> outcome Choice * list string * Env)
    (shuffle : Env -> list nat -> list nat * Env) (fuel : nat) (g : Game Env) :
  (forall e l, fst (shuffle e l) ≡ₚ l) ->
  Z.of_nat (length (players_ g)) < 2 ^ 31 ->
  (2 <= length (activeFrom 0 (players_ g)))%nat ->
  fst (playRound choose shuffle fuel (activeFrom 0 (players_ g)) g) = Ok tt ->
  let g' := snd (playRound choose shuffle fuel (activeFrom 0 (players_ g)) g) in
  activeFrom 0 (players_ g') ⊆ activeFrom 0 (players_ g) /\
  (0 < length (activeFrom 0 (players_ g'))
     < length (activeFrom 0 (players_ g)))%nat.
Proof.
  intros Hshuffle Hint Hn Hok. cbn zeta.
  assert (Hlen : (length (activeFrom 0 (players_ g)) <= length (players_ g))%nat).
  { pose proof (NoDup_activeFrom (players_ g) 0) as Hnd.
    pose proof (active_inRoster g) as Hin.
    assert (Hsub : activeFrom 0 (players_ g) ⊆ seq 0 (length (players_ g))).
    { intros x Hx. apply elem_of_seq. eapply Forall_forall in Hin; [|done]. lia. }
    apply NoDup_submseteq in Hsub; [|done].
    apply submseteq_length in Hsub. by rewrite length_seq in Hsub. }
  destruct (playRound_spec choose shuffle Hshuffle fuel (activeFrom 0 (players_ g)) g
              (active_inRoster g) (NoDup_activeFrom _ _) Hn ltac:(lia))
    as (r & g' & L & Hrun & _ & HL & Hel).
  rewrite Hrun in *. simpl in Hok. subst r. simpl.
  specialize (HL eq_refl).
  destruct (active_eliminates _ _ g g' Hel ltac:(done)) as [Hperm [q Hq]].
  split.
  - intros x Hx. rewrite Hperm. apply elem_of_app. by left.
  - apply Permutation_length in Hperm. rewrite length_app in Hperm.
    destruct L; [done|]. destruct (activeFrom 0 (players_ g')); [by apply elem_of_nil in Hq|].
    simpl in *. lia.
Qed.

Lemma playRound_eliminates_witness :
  let g := startGame 0%nat (replicate 3 (newPlayer "bot" false)) in
  (forall e l, fst (reverseShuffle e l) ≡ₚ l) /\
  Z.of_nat (length (players_ g)) < 2 ^ 31 /\
  (2 <= length (activeFrom 0 (players_ g)))%nat /\
  fst (playRound (silent cyclicChoose) reverseShuffle 5 (activeFrom 0 (players_ g)) g) = Ok tt /\
  let g' := snd (playRound (silent cyclicChoose) reverseShuffle 5 (activeFrom 0 (players_ g)) g) in
  activeFrom 0 (players_ g') ⊆ activeFrom 0 (players_ g) /\
  (0 < length (activeFrom 0 (players_ g'))
     < length (activeFrom 0 (players_ g)))%nat.
Proof.
  cbv zeta.
  assert (Hint : Z.of_nat (length (players_
            (startGame 0%nat (replicate 3 (newPlayer "bot" false))))) < 2 ^ 31)
    by (simpl; lia).
  assert (Hn : (2 <= length (activeFrom 0 (players_
            (startGame 0%nat (replicate 3 (newPlayer "bot" false))))))%nat)
    by (simpl; lia).
  assert (Hok : fst (playRound (silent cyclicChoose) reverseShuffle 5
            (activeFrom 0 (players_ (startGame 0%nat (replicate 3 (newPlayer "bot" false)))))
            (startGame 0%nat (replicate 3 (newPlayer "bot" false)))) = Ok tt)
    by (vm_compute; reflexivity).
  split; [exact reverseShuffle_Permutation|]. split; [exact Hint|].
  split; [exact Hn|]. split; [exact Hok|].
  exact (playRound_eliminates (silent cyclicChoose) reverseShuffle 5 _
           reverseShuffle_Permutation Hint Hn Hok).
Defined.

(** X26.  [getActivePlayers] returns the pointers to the players whose flag
    is set, and no others, each once and in the order of the roster. *)
Theorem getActivePlayers_spec {Env : Type} (g : Game Env) :
  exists active,
    getActivePlayers g = (Ok active, g) /\
    (forall p, p ∈ active <->
       exists pl, players_ g !! p = Some pl /\ isActive_ pl = true) /\
    StronglySorted lt active.
Proof.
  exists (activeFrom 0 (players_ g)). split; [done|]. split.
  - intros p. rewrite elem_of_active. unfold flags. rewrite list_lookup_fmap.
    destruct (players_ g !! p) as [pl|]; simpl.
    + split; [intros [= H]; by exists pl | by intros (? & [= <-] & ->)].
    + split; [done | by intros (? & ? & _)].
  - generalize 0%nat. induction (players_ g) as [|a l IH]; intros i; simpl;
      [constructor|].
    destruct (isActive_ a); [|apply IH]. constructor; [apply IH|].
    apply Forall_forall. intros x [Hx _]%(elem_of_activeFrom l (S i)). lia.
Qed.

(** ** The players of the program in the tournament *)

Lemma prompt_faultless (fuel : nat) (p : Player) (io : Console) :
  faultless (fst (HumanPlayer.prompt fuel p io)).
Proof.
  revert io. induction fuel as [|fuel IH]; intros io; [done|].
  cbn [HumanPlayer.prompt]. cbv zeta.
  destruct (getline (put _ io)) as [input io'].
  unfold ChoiceHelper.fromInput.
  destruct (ChoiceHelper.find_input _ _); [done|]. apply IH.
Qed.

(** The prompt only adds to what is written. *)
Lemma prompt_cout (fuel : nat) (p : Player) (io : Console) :
  exists texts, cout (snd (HumanPlayer.prompt fuel p io)) = cout io ++ texts.
Proof.
  revert io. induction fuel as [|fuel IH]; intros io.
  { exists []. simpl. by rewrite app_nil_r. }
  cbn [HumanPlayer.prompt]. cbv zeta.
  assert (Hget : cout (snd (getline (put "  Ваш выбор (1-5): " io)))
                 = cout io ++ ["  Ваш выбор (1-5): "%string]).
  { unfold getline, put. cbn [cin cout]. by destruct (cin io). }
  destruct (getline (put _ io)) as [input io']. cbn [snd] in Hget.
  unfold ChoiceHelper.fromInput.
  destruct (ChoiceHelper.find_input _ _).
  - eexists. simpl. exact Hget.
  - destruct (IH (put "  Неверный ввод. Попробуйте снова." io')) as [texts Htexts].
    rewrite Htexts. unfold put. cbn [cout]. rewrite Hget, <- !app_assoc.
    by eexists.
Qed.

Section PlayerFacts.

Context {Rng : Type}.
Variable uniform : Rng -> nat -> nat * Rng.
Hypothesis uniform_range : forall rng hi, (fst (uniform rng hi) <= hi)%nat.

(** A computer always gets a choice from its strategy. *)
Lemma Player_makeChoice_computer (patience : nat) (w : World Rng) (p : nat)
    (pl : Player) :
  isHuman pl = false ->
  exists c strategy,
    Strategy_makeChoice uniform (strategy_ w p) (choiceHistory_ pl) = (Ok c, strategy) /\
    Player_makeChoice uniform patience w p pl
    = (Ok c, [],
       mkWorld (stdin w)
         (fun q => if decide (q = p) then strategy else strategy_ w q)
         (dividerRng w)).
Proof.
  intros Hh. unfold Player_makeChoice, ComputerPlayer_makeChoice. rewrite Hh.
  destruct (Strategy_makeChoice_ok uniform uniform_range (strategy_ w p)
              (choiceHistory_ pl)) as (c & strategy & Hs).
  rewrite Hs. by exists c, strategy.
Qed.

(** A human is shown the menu and asked. *)
Lemma Player_makeChoice_human (patience : nat) (w : World Rng) (p : nat)
    (pl : Player) :
  isHuman pl = true ->
  faultless (Player_makeChoice uniform patience w p pl).1.1 /\
  (exists texts,
     (Player_makeChoice uniform patience w p pl).1.2
     = HumanPlayer.menu (name_ pl) ++ texts) /\
  strategy_ (Player_makeChoice uniform patience w p pl).2 = strategy_ w /\
  dividerRng (Player_makeChoice uniform patience w p pl).2 = dividerRng w.
Proof.
  intros Hh. unfold Player_makeChoice, HumanPlayer.makeChoice. rewrite Hh.
  cbn [cin cout app].
  pose proof (prompt_faultless patience pl
                (mkConsole (stdin w) (HumanPlayer.menu (name_ pl)))) as Hf.
  pose proof (prompt_cout patience pl
                (mkConsole (stdin w) (HumanPlayer.menu (name_ pl)))) as Hc.
  destruct (HumanPlayer.prompt patience pl _) as [r io]. cbn [fst snd cout] in *.
  split; [by destruct r as [[c pl']|what| |]|]. done.
Qed.

Lemma Player_makeChoice_faultless (patience : nat) (w : World Rng) (p : nat)
    (pl : Player) :
  faultless (Player_makeChoice uniform patience w p pl).1.1.
Proof.
  destruct (isHuman pl) eqn:Hh.
  - by apply Player_makeChoice_human.
  - destruct (Player_makeChoice_computer patience w p pl Hh) as (c & s & _ & ->).
    done.
Qed.


End PlayerFacts.



(** X27.  No player's [makeChoice] throws or runs into undefined behaviour.
    A computer always gets a choice from its strategy, whatever the
    strategy, its state and the history of the player: it writes nothing,
    reads no input and leaves the strategies of the others alone.  A human
    is shown the menu, the call returns or goes on asking, and no strategy
    is touched. *)
Theorem Player_makeChoice_returns {Rng : Type} (uniform : Rng -> nat -> nat * Rng)
    (patience : nat) (w : World Rng) (p : nat) (pl : Player) :
  (forall rng hi, (fst (uniform rng hi) <= hi)%nat) ->
  let result := Player_makeChoice uniform patience w p pl in
  faultless result.1.1 /\
  (isHuman pl = false ->
   (exists c, result.1.1 = Ok c) /\ result.1.2 = [] /\
   stdin result.2 = stdin w /\
   forall q, q ≠ p -> strategy_ result.2 q = strategy_ w q) /\
  (isHuman pl = true ->
   (exists texts, result.1.2 = HumanPlayer.menu (name_ pl) ++ texts) /\
   strategy_ result.2 = strategy_ w) /\
  dividerRng result.2 = dividerRng w.
Proof.
  intros Hrange. cbv zeta.
  split; [by apply Player_makeChoice_faultless|].
  split; [|split].
  - intros Hh.
    destruct (Player_makeChoice_computer uniform Hrange patience w p pl Hh)
      as (c & strategy & _ & ->). cbn [fst snd stdin strategy_].
    split; [by exists c|]. split; [done|]. split; [done|].
    intros q Hq. by rewrite decide_False.
  - intros Hh.
    destruct (Player_makeChoice_human uniform patience w p pl Hh) as (_ & Hm & Hs & _).
    done.
  - destruct (isHuman pl) eqn:Hh.
    + by destruct (Player_makeChoice_human uniform patience w p pl Hh) as (_ & _ & _ & ?).
    + by destruct (Player_makeChoice_computer uniform Hrange patience w p pl Hh)
        as (c & strategy & _ & ->).
Qed.

Lemma Player_makeChoice_returns_witness :
  let w := mkWorld ["7"; " 4 "]%string (fun _ : nat => AdaptiveStrategy 2%nat) 0%nat in
  let pl := recordChoice SPOCK (recordChoice ROCK (recordChoice SPOCK
              (newPlayer "Бот 1" false))) in
  (forall rng hi, (fst (stepUniform rng hi) <= hi)%nat) /\
  let result := Player_makeChoice stepUniform 3 w 0 pl in
  faultless result.1.1 /\
  (isHuman pl = false ->
   (exists c, result.1.1 = Ok c) /\ result.1.2 = [] /\
   stdin result.2 = stdin w /\
   forall q, q ≠ 0%nat -> strategy_ result.2 q = strategy_ w q) /\
  (isHuman pl = true ->
   (exists texts, result.1.2 = HumanPlayer.menu (name_ pl) ++ texts) /\
   strategy_ result.2 = strategy_ w) /\
  dividerRng result.2 = dividerRng w.
Proof.
  cbv zeta. split; [exact stepUniform_range|].
  exact (Player_makeChoice_returns stepUniform 3 _ 0 _ stepUniform_range).
Defined.

(** ** The score table *)

(** X28.  The comparison that [printScoreTable] sorts with is a strict weak
    order, as [std::sort] requires of it: no score comes before itself,
    coming before is transitive, and so is being tied.  Tied are the scores
    with the same balance and the same number of wins. *)
Theorem tableBefore_strict_weak_order :
  (forall a, tableBefore a a = false) /\
  (forall a b c, tableBefore a b = true -> tableBefore b c = true ->
     tableBefore a c = true) /\
  (forall a b, tableBefore a b = false /\ tableBefore b a = false <->
     getNetScore a = getNetScore b /\ wins a = wins b) /\
  (forall a b c,
     tableBefore a b = false /\ tableBefore b a = false ->
     tableBefore b c = false /\ tableBefore c b = false ->
     tableBefore a c = false /\ tableBefore c a = false).
Proof.
  assert (Hspec : forall a b, tableBefore a b = true <->
            getNetScore b < getNetScore a \/
            (getNetScore a = getNetScore b /\ wins b < wins a)).
  { intros a b. unfold tableBefore.
    destruct (Z.eqb_spec (getNetScore a) (getNetScore b)) as [He|Hne]; simpl.
    - rewrite Z.ltb_lt. lia.
    - rewrite Z.ltb_lt. lia. }
  assert (Hfalse : forall a b, tableBefore a b = false <->
            ~ (getNetScore b < getNetScore a \/
               (getNetScore a = getNetScore b /\ wins b < wins a))).
  { intros a b. rewrite <- Hspec. by destruct (tableBefore a b). }
  assert (Htied : forall a b, tableBefore a b = false /\ tableBefore b a = false <->
            getNetScore a = getNetScore b /\ wins a = wins b).
  { intros a b. rewrite !Hfalse. lia. }
  split; [|split; [|split]].
  - intros a. apply Hfalse. lia.
  - intros a b c. rewrite !Hspec. lia.
  - exact Htied.
  - intros a b c. rewrite !Htied. lia.
Qed.
